(** * Disco ball: aperture placement, rotation controller and beam system

    A shallow embedding of [src/DiscoBall.js] (class [DiscoBall]) and of the
    beam system (class [LightBeamSystem]), together with the handful of
    three.js operations those classes call.

    Numbers.  A JavaScript number is an IEEE-754 double.  Throughout this
    development a number is idealised as a real ([R]): [Math.sin],
    [Math.cos], [Math.acos], [Math.asin], [Math.atan2] and [Math.sqrt]
    are the real functions, and no rounding, overflow, signed zero or NaN
    is modelled.  Aperture counts and array
    indices are [nat].

    Objects.  A class instance is a record; a method that mutates [this]
    is a function from the record to the updated record.  The beam system
    keeps a reference to the disco ball: the methods that read through that
    reference take the ball's current state as an argument. *)

From Stdlib Require Import Reals Lra Lia List String ZArith.
Import ListNotations.
Open Scope R_scope.

(** ** The three.js operations used by the source *)

Module THREE.

(** [THREE.Vector3] *)
Record Vector3 : Type := mkVector3 { vx : R; vy : R; vz : R }.

(** [v.clone()]: a fresh vector with the same components. *)
Definition clone (v : Vector3) : Vector3 := mkVector3 (vx v) (vy v) (vz v).

(** [v.multiplyScalar(s)] *)
Definition multiplyScalar (v : Vector3) (s : R) : Vector3 :=
  mkVector3 (vx v * s) (vy v * s) (vz v * s).

(** [v.add(w)] *)
Definition add (v w : Vector3) : Vector3 :=
  mkVector3 (vx v + vx w) (vy v + vy w) (vz v + vz w).

(** [v.dot(w)] *)
Definition dot (v w : Vector3) : R :=
  vx v * vx w + vy v * vy w + vz v * vz w.

(** [v.length()] *)
Definition Vector3_length (v : Vector3) : R :=
  sqrt (vx v * vx v + vy v * vy v + vz v * vz v).

(** [THREE.Quaternion] *)
Record Quaternion : Type := mkQuaternion { qx : R; qy : R; qz : R; qw : R }.

(** [new THREE.Quaternion()] *)
Definition Quaternion_new : Quaternion := mkQuaternion 0 0 0 1.

(** [q.length()] and [q.normalize()] (a zero quaternion becomes the
    identity). *)
Definition Quaternion_length (q : Quaternion) : R :=
  sqrt (qx q * qx q + qy q * qy q + qz q * qz q + qw q * qw q).

Definition Quaternion_normalize (q : Quaternion) : Quaternion :=
  let l := Quaternion_length q in
  if Req_dec_T l 0 then mkQuaternion 0 0 0 1
  else let k := 1 / l in
       mkQuaternion (qx q * k) (qy q * k) (qz q * k) (qw q * k).

(** [q.lengthSq()] *)
Definition Quaternion_lengthSq (q : Quaternion) : R :=
  qx q * qx q + qy q * qy q + qz q * qz q + qw q * qw q.

(** [Number.EPSILON], two to the power -52. *)
Definition EPSILON : R := / (2 ^ 52).

(** [q.setFromUnitVectors(vFrom, vTo)] *)
Definition setFromUnitVectors (vFrom vTo : Vector3) : Quaternion :=
  let r := dot vFrom vTo + 1 in
  if Rlt_dec r EPSILON then
    if Rlt_dec (Rabs (vz vFrom)) (Rabs (vx vFrom)) then
      Quaternion_normalize (mkQuaternion (- vy vFrom) (vx vFrom) 0 0)
    else
      Quaternion_normalize (mkQuaternion 0 (- vz vFrom) (vy vFrom) 0)
  else
    Quaternion_normalize
      (mkQuaternion (vy vFrom * vz vTo - vz vFrom * vy vTo)
                    (vz vFrom * vx vTo - vx vFrom * vz vTo)
                    (vx vFrom * vy vTo - vy vFrom * vx vTo)
                    r).

(** [v.applyQuaternion(q)] *)
Definition applyQuaternion (v : Vector3) (q : Quaternion) : Vector3 :=
  let tx := 2 * (qy q * vz v - qz q * vy v) in
  let ty := 2 * (qz q * vx v - qx q * vz v) in
  let tz := 2 * (qx q * vy v - qy q * vx v) in
  mkVector3 (vx v + qw q * tx + qy q * tz - qz q * ty)
            (vy v + qw q * ty + qz q * tx - qx q * tz)
            (vz v + qw q * tz + qx q * ty - qy q * tx).

(** [q.setFromEuler(e)] for the default order ['XYZ']. *)
Definition setFromEuler (e : Vector3) : Quaternion :=
  let c1 := cos (vx e / 2) in
  let c2 := cos (vy e / 2) in
  let c3 := cos (vz e / 2) in
  let s1 := sin (vx e / 2) in
  let s2 := sin (vy e / 2) in
  let s3 := sin (vz e / 2) in
  mkQuaternion (s1 * c2 * c3 + c1 * s2 * s3)
               (c1 * s2 * c3 - s1 * c2 * s3)
               (c1 * c2 * s3 + s1 * s2 * c3)
               (c1 * c2 * c3 - s1 * s2 * s3).

(** [THREE.MathUtils.lerp(x, y, t)] *)
Definition lerp (x y t : R) : R := (1 - t) * x + t * y.

(** [THREE.Color], components in [0, 1]. *)
Record Color : Type := mkColor { cr : R; cg : R; cb : R }.

(** [new THREE.Color(hex)]: the three bytes of [hex] over 255. *)
Definition Color_hex (hex : Z) : Color :=
  mkColor (IZR (Z.land (Z.shiftr hex 16) 255) / 255)
          (IZR (Z.land (Z.shiftr hex 8) 255) / 255)
          (IZR (Z.land hex 255) / 255).

(** [c.lerp(color, alpha)] *)
Definition Color_lerp (c color : Color) (alpha : R) : Color :=
  mkColor (cr c + (cr color - cr c) * alpha)
          (cg c + (cg color - cg c) * alpha)
          (cb c + (cb color - cb c) * alpha).

(** [c.clone()] *)
Definition Color_clone (c : Color) : Color := mkColor (cr c) (cg c) (cb c).

(** An [Object3D] as far as the source touches it: its position, its
    Euler rotation and the quaternion three.js keeps in step with it. *)
Record Mesh : Type := mkMesh {
  position : Vector3;
  rotation : Vector3;
  quaternion : Quaternion
}.

(** [new THREE.Mesh(geometry, material)] *)
Definition Mesh_new : Mesh :=
  mkMesh (mkVector3 0 0 0) (mkVector3 0 0 0) Quaternion_new.

(** [mesh.position.set(x, y, z)] / [mesh.position.copy(v)] *)
Definition Mesh_position_set (m : Mesh) (v : Vector3) : Mesh :=
  mkMesh v (rotation m) (quaternion m).

(** [mesh.rotation.set(x, y, z)]: the quaternion follows the Euler
    angles. *)
Definition Mesh_rotation_set (m : Mesh) (e : Vector3) : Mesh :=
  mkMesh (position m) e (setFromEuler e).

(** [Math.atan2(y, x)] on the reals: the angle of the point [(x, y)],
    in [(-PI, PI]], and [0] at the origin. *)
Definition Math_atan2 (y x : R) : R :=
  if Rlt_dec 0 x then atan (y / x)
  else if Rlt_dec x 0 then
    if Rle_dec 0 y then atan (y / x) + PI else atan (y / x) - PI
  else if Rlt_dec 0 y then PI / 2
  else if Rlt_dec y 0 then - (PI / 2)
  else 0.

(** [euler.setFromQuaternion(q)] for the default order ['XYZ']:
    [Matrix4.makeRotationFromQuaternion] followed by
    [Euler.setFromRotationMatrix], of which the seven matrix entries
    that are read are written out. *)
Definition Euler_setFromQuaternion (q : Quaternion) : Vector3 :=
  let x := qx q in
  let y := qy q in
  let z := qz q in
  let w := qw q in
  let x2 := x + x in
  let y2 := y + y in
  let z2 := z + z in
  let xx := x * x2 in
  let xy := x * y2 in
  let xz := x * z2 in
  let yy := y * y2 in
  let yz := y * z2 in
  let zz := z * z2 in
  let wx := w * x2 in
  let wy := w * y2 in
  let wz := w * z2 in
  let m11 := 1 - (yy + zz) in
  let m12 := xy - wz in
  let m13 := xz + wy in
  let m22 := 1 - (xx + zz) in
  let m23 := yz - wx in
  let m32 := yz + wx in
  let m33 := 1 - (xx + yy) in
  let ey := asin (Rmax (-1) (Rmin 1 m13)) in
  if Rlt_dec (Rabs m13) 0.9999999 then
    mkVector3 (Math_atan2 (- m23) m33) ey (Math_atan2 (- m12) m11)
  else
    mkVector3 (Math_atan2 m32 m22) ey 0.

(** [mesh.setRotationFromQuaternion(q)]: [this.quaternion.copy(q)], on
    which the change callback of the quaternion rewrites the Euler
    angles from it. *)
Definition setRotationFromQuaternion (m : Mesh) (q : Quaternion) : Mesh :=
  mkMesh (position m) (Euler_setFromQuaternion q) q.

End THREE.

Import THREE.

(** ** DiscoBall.js *)

(** The [config] argument of the constructor: every key may be absent. *)
Record ConfigArg : Type := mkConfigArg {
  arg_radius : option R;
  arg_segments : option nat;
  arg_holes : option nat
}.

(** [this.config] after the constructor merged the defaults: the keys read
    by the methods kept here ([holes_count] is the key [holes], renamed to
    leave [holes] to the aperture list [this.holes]). *)
Record Config : Type := mkConfig {
  radius : R;
  segments : nat;
  holes_count : nat
}.

(** One aperture, as pushed by [generateHoles]: [theta] and [phi] are the
    two entries of [spherical], [hole_position] is the key [position]. *)
Record Hole : Type := mkHole {
  id : nat;
  theta : R;
  phi : R;
  direction : Vector3;
  hole_position : Vector3;
  normal : Vector3
}.

(** [this.rotationConfig] *)
Record RotationConfig : Type := mkRotationConfig {
  speedTransitionRate : R;
  minSpeed : R;
  maxSpeed : R;
  xAxisFactor : R;
  zAxisFactor : R
}.

Record DiscoBall : Type := mkDiscoBall {
  config : Config;
  mesh : option Mesh;
  holes : list Hole;
  rotationSpeed : R;
  targetRotationSpeed : R;
  rotationDirection : R;
  currentRotation : Vector3;
  rotationConfig : RotationConfig
}.

(** [key: config.key || d, ...config]: the spread that follows writes the
    caller's value back whenever the key is present, so the default is
    used for an absent key only. *)
Definition or_default {A : Type} (o : option A) (d : A) : A :=
  match o with Some v => v | None => d end.

Definition goldenRatio : R := (1 + sqrt 5) / 2.

(** Body of the loop of [generateHoles] at index [i]. *)
Definition makeHole (numHoles : nat) (r : R) (i : nat) : Hole :=
  let theta := 2 * PI * INR i / goldenRatio in
  let phi := acos (1 - 2 * (INR i + 0.5) / INR numHoles) in
  let x := sin phi * cos theta in
  let y := sin phi * sin theta in
  let z := cos phi in
  let position := mkVector3 x y z in
  let worldPosition := multiplyScalar (clone position) r in
  mkHole i theta phi (clone position) worldPosition (clone position).

(** [for (let i = ...; i < numHoles; i++) { ...; this.holes.push(...) }]
    with [k] iterations left to run. *)
Fixpoint generateHoles_loop (numHoles : nat) (r : R) (k i : nat)
    (acc : list Hole) : list Hole :=
  match k with
  | O => acc
  | S k' => generateHoles_loop numHoles r k' (S i) (acc ++ [makeHole numHoles r i])
  end.

(** [generateHoles()], as a function of the two configuration values it
    reads. *)
Definition generateHoles (numHoles : nat) (r : R) : list Hole :=
  generateHoles_loop numHoles r numHoles 0%nat [].

Definition DiscoBall_generateHoles (d : DiscoBall) : DiscoBall :=
  mkDiscoBall (config d) (mesh d)
    (generateHoles (holes_count (config d)) (radius (config d)))
    (rotationSpeed d) (targetRotationSpeed d) (rotationDirection d)
    (currentRotation d) (rotationConfig d).

(** [createMesh()] *)
Definition createMesh (d : DiscoBall) : DiscoBall :=
  mkDiscoBall (config d)
    (Some (Mesh_position_set Mesh_new (mkVector3 0 0 0)))
    (holes d)
    (rotationSpeed d) (targetRotationSpeed d) (rotationDirection d)
    (currentRotation d) (rotationConfig d).

Definition defaultRotationConfig : RotationConfig :=
  mkRotationConfig 0.05 0.1 5.0 0.1 0.05.

(** [new DiscoBall(config)]: the field initialisers followed by [init()].
    Of the steps of [init()], [generateHoles] and [createMesh] write the
    fields kept here.  The geometry and material steps ([createGeometry],
    [createHoleGeometry], [createMaterial], [createHoleVisuals]) write
    buffers that are not part of this record; [createHoleGeometry] and
    [createHoleVisuals] return at once when [this.holes] is empty. *)
Definition DiscoBall_new (c : ConfigArg) : DiscoBall :=
  let cfg := mkConfig (or_default (arg_radius c) 2)
                      (or_default (arg_segments c) 32%nat)
                      (or_default (arg_holes c) 12%nat) in
  let this := mkDiscoBall cfg None [] 1.0 1.0 1 (mkVector3 0 0 0)
                          defaultRotationConfig in
  createMesh (DiscoBall_generateHoles this).

(** [getHoles()] and [getMesh()] *)
Definition getHoles (d : DiscoBall) : list Hole := holes d.
Definition getMesh (d : DiscoBall) : option Mesh := mesh d.

(** ** The rotation controller *)

(** [updateRotationSpeed(deltaTime)] *)
Definition updateRotationSpeed (d : DiscoBall) (deltaTime : R) : DiscoBall :=
  let speed' :=
    if Rlt_dec 0.01 (Rabs (rotationSpeed d - targetRotationSpeed d)) then
      let transitionRate :=
        speedTransitionRate (rotationConfig d) * (deltaTime * 0.001) in
      lerp (rotationSpeed d) (targetRotationSpeed d) (Rmin transitionRate 1.0)
    else targetRotationSpeed d in
  mkDiscoBall (config d) (mesh d) (holes d) speed' (targetRotationSpeed d)
    (rotationDirection d) (currentRotation d) (rotationConfig d).

(** The increment [rotationDelta] computed by [updateRotation] once the
    speed has been smoothed. *)
Definition rotationDelta (d : DiscoBall) (deltaTime : R) : R :=
  rotationSpeed (updateRotationSpeed d deltaTime) * rotationDirection d
  * deltaTime * 0.001.

(** [updateRotation(deltaTime)] *)
Definition updateRotation (d : DiscoBall) (deltaTime : R) : DiscoBall :=
  match mesh d with
  | None => d
  | Some m =>
      let d1 := updateRotationSpeed d deltaTime in
      let rotationDelta :=
        rotationSpeed d1 * rotationDirection d1 * deltaTime * 0.001 in
      let y' := vy (currentRotation d1) + rotationDelta in
      let x' := vx (currentRotation d1)
                + rotationDelta * xAxisFactor (rotationConfig d1) in
      let z' := vz (currentRotation d1)
                + sin (y' * 2) * zAxisFactor (rotationConfig d1) * rotationDelta in
      let rot := mkVector3 x' y' z' in
      mkDiscoBall (config d1) (Some (Mesh_rotation_set m rot)) (holes d1)
        (rotationSpeed d1) (targetRotationSpeed d1) (rotationDirection d1)
        rot (rotationConfig d1)
  end.

(** [Math.max(minSpeed, Math.min(maxSpeed, speed))] *)
Definition clampSpeed (c : RotationConfig) (speed : R) : R :=
  Rmax (minSpeed c) (Rmin (maxSpeed c) speed).

(** [setRotationSpeed(speed)] *)
Definition setRotationSpeed (d : DiscoBall) (speed : R) : DiscoBall :=
  mkDiscoBall (config d) (mesh d) (holes d) (rotationSpeed d)
    (clampSpeed (rotationConfig d) speed)
    (rotationDirection d) (currentRotation d) (rotationConfig d).

(** [setRotationSpeedImmediate(speed)] *)
Definition setRotationSpeedImmediate (d : DiscoBall) (speed : R) : DiscoBall :=
  let clampedSpeed := clampSpeed (rotationConfig d) speed in
  mkDiscoBall (config d) (mesh d) (holes d) clampedSpeed clampedSpeed
    (rotationDirection d) (currentRotation d) (rotationConfig d).

(** [setRotationDirection(direction)] *)
Definition setRotationDirection (d : DiscoBall) (direction : R) : DiscoBall :=
  mkDiscoBall (config d) (mesh d) (holes d) (rotationSpeed d)
    (targetRotationSpeed d)
    (if Rlt_dec 0 direction then 1 else -1)
    (currentRotation d) (rotationConfig d).

(** [stopRotation()] and [stopRotationImmediate()] *)
Definition stopRotation (d : DiscoBall) : DiscoBall := setRotationSpeed d 0.
Definition stopRotationImmediate (d : DiscoBall) : DiscoBall :=
  setRotationSpeedImmediate d 0.

(** The argument of [setRotationConfig]: any subset of the keys. *)
Record RotationConfigArg : Type := mkRotationConfigArg {
  arg_speedTransitionRate : option R;
  arg_minSpeed : option R;
  arg_maxSpeed : option R;
  arg_xAxisFactor : option R;
  arg_zAxisFactor : option R
}.

(** [{ ...this.rotationConfig, ...config }] *)
Definition mergeRotationConfig (old : RotationConfig) (c : RotationConfigArg)
    : RotationConfig :=
  mkRotationConfig
    (or_default (arg_speedTransitionRate c) (speedTransitionRate old))
    (or_default (arg_minSpeed c) (minSpeed old))
    (or_default (arg_maxSpeed c) (maxSpeed old))
    (or_default (arg_xAxisFactor c) (xAxisFactor old))
    (or_default (arg_zAxisFactor c) (zAxisFactor old)).

(** [setRotationConfig(config)] *)
Definition setRotationConfig (d : DiscoBall) (c : RotationConfigArg) : DiscoBall :=
  mkDiscoBall (config d) (mesh d) (holes d) (rotationSpeed d)
    (targetRotationSpeed d) (rotationDirection d) (currentRotation d)
    (mergeRotationConfig (rotationConfig d) c).

(** [dispose()], on the fields kept here. *)
Definition dispose (d : DiscoBall) : DiscoBall :=
  mkDiscoBall (config d) None [] (rotationSpeed d)
    (targetRotationSpeed d) (rotationDirection d) (currentRotation d)
    (rotationConfig d).

(** The calls a controlling collaborator can make on the rotation state. *)
Inductive RotationOp : Type :=
| OpSetSpeed (speed : R)
| OpSetSpeedImmediate (speed : R)
| OpSetDirection (direction : R)
| OpStop
| OpStopImmediate
| OpUpdate (deltaTime : R)
| OpSetRotationConfig (c : RotationConfigArg).

Definition applyOp (d : DiscoBall) (op : RotationOp) : DiscoBall :=
  match op with
  | OpSetSpeed s => setRotationSpeed d s
  | OpSetSpeedImmediate s => setRotationSpeedImmediate d s
  | OpSetDirection dir => setRotationDirection d dir
  | OpStop => stopRotation d
  | OpStopImmediate => stopRotationImmediate d
  | OpUpdate dt => updateRotation d dt
  | OpSetRotationConfig c => setRotationConfig d c
  end.

(** A sequence of calls, first call first. *)
Definition runOps (d : DiscoBall) (ops : list RotationOp) : DiscoBall :=
  fold_left applyOp ops d.

(** Successive [updateRotation] calls, one per frame. *)
Definition updates (d : DiscoBall) (deltaTimes : list R) : DiscoBall :=
  fold_left updateRotation deltaTimes d.

(** The calls under which the speed bounds are kept: an update is given
    an elapsed time that is not negative, and a [setRotationConfig] leaves
    [minSpeed] and [maxSpeed] alone and sets no negative transition rate. *)
Definition keepsBounds (op : RotationOp) : Prop :=
  match op with
  | OpUpdate deltaTime => 0 <= deltaTime
  | OpSetRotationConfig c =>
      arg_minSpeed c = None /\ arg_maxSpeed c = None /\
      0 <= or_default (arg_speedTransitionRate c) 0
  | _ => True
  end.

(** The constructor called with no key at all. *)
Definition noConfig : ConfigArg := mkConfigArg None None None.

(** The speed and the target both lie between bounds that are in order,
    and the transition rate is not negative. *)
Definition speedInvariant (d : DiscoBall) : Prop :=
  let c := rotationConfig d in
  minSpeed c <= maxSpeed c /\
  0 <= speedTransitionRate c /\
  minSpeed c <= rotationSpeed d <= maxSpeed c /\
  minSpeed c <= targetRotationSpeed d <= maxSpeed c.

(** [setRotationConfig({ minSpeed: 2 })] *)
Definition raiseMinSpeed : RotationConfigArg :=
  mkRotationConfigArg None (Some 2) None None None.

(** [setRotationConfig({ speedTransitionRate: -1000 })] *)
Definition negativeRate : RotationConfigArg :=
  mkRotationConfigArg (Some (-1000)) None None None None.

(** The ball sits on a crest of the wobble: it is settled at speed one,
    turning in the positive direction under the constructed configuration,
    its yaw is [PI/4] plus [j] half turns and its roll has grown by
    [0.05 * PI] for each of them. *)
Definition onCrest (j : nat) (d : DiscoBall) : Prop :=
  (exists m, mesh d = Some m /\ rotation m = currentRotation d) /\
  rotationSpeed d = 1 /\
  targetRotationSpeed d = 1 /\
  rotationDirection d = 1 /\
  rotationConfig d = defaultRotationConfig /\
  vy (currentRotation d) = PI / 4 + INR j * PI /\
  vz (currentRotation d) = 0.05 * (PI / 4) + INR j * (0.05 * PI).

(** The constructor called with [{ holes: 1 }]. *)
Definition oneHole : ConfigArg := mkConfigArg None None (Some 1%nat).

(** ** JavaScript arithmetic used by the beam system *)

(** [Math.floor] and [Math.ceil]; the integer below and the integer above
    are the library's [Zfloor] and [Zceil]. *)
Definition Math_floor (x : R) : R := IZR (Zfloor x).
Definition Math_ceil (x : R) : R := IZR (Zceil x).

(** [a % b] on numbers: the quotient is truncated towards zero, so the
    result takes the sign of [a]. *)
Definition js_rem (a b : R) : R :=
  let q := a / b in
  a - b * (if Rle_dec 0 q then Math_floor q else Math_ceil q).

(** [Math.random()]: the draws still to come, and how many were taken. *)
Record Random : Type := mkRandom { draws : nat -> R; taken : nat }.

Definition Math_random (g : Random) : R * Random :=
  (draws g (taken g), mkRandom (draws g) (S (taken g))).

(** [THREE.MathUtils.euclideanModulo(n, m)] and [clamp(v, lo, hi)] *)
Definition euclideanModulo (n m : R) : R := js_rem (js_rem n m + m) m.
Definition clamp (v lo hi : R) : R := Rmax lo (Rmin hi v).

(** three.js's [hue2rgb(p, q, t)] *)
Definition hue2rgb (p q t : R) : R :=
  let t := if Rlt_dec t 0 then t + 1 else t in
  let t := if Rlt_dec 1 t then t - 1 else t in
  if Rlt_dec t (1 / 6) then p + (q - p) * 6 * t
  else if Rlt_dec t (1 / 2) then q
  else if Rlt_dec t (2 / 3) then p + (q - p) * 6 * (2 / 3 - t)
  else p.

(** [color.setHSL(h, s, l)] *)
Definition setHSL (h s l : R) : Color :=
  let h := euclideanModulo h 1 in
  let s := clamp s 0 1 in
  let l := clamp l 0 1 in
  if Req_dec_T s 0 then mkColor l l l
  else
    let p := if Rle_dec l 0.5 then l * (1 + s) else l + s - l * s in
    let q := 2 * l - p in
    mkColor (hue2rgb q p (h + 1 / 3)) (hue2rgb q p h) (hue2rgb q p (h - 1 / 3)).

(** ** The beam system *)

Module LightBeamSystem.

(** The keys of [this.config] that the methods below read or write. *)
Record Config : Type := mkConfig {
  beamLength : R;
  beamOpacity : R;
  beamIntensity : R;
  colorMode : string;
  animationSpeed : R
}.

(** The [config] argument of the constructor. *)
Record ConfigArg : Type := mkConfigArg {
  arg_beamLength : option R;
  arg_beamOpacity : option R;
  arg_beamIntensity : option R;
  arg_colorMode : option string;
  arg_animationSpeed : option R
}.

(** [material.uniforms] *)
Record Uniforms : Type := mkUniforms {
  u_color : Color;
  u_opacity : R;
  u_intensity : R;
  u_time : R
}.

(** [beamData] *)
Record Beam : Type := mkBeam {
  beam_id : nat;
  beam_mesh : Mesh;
  material : Uniforms;
  hole : Hole;
  baseColor : Color;
  currentColor : Color;
  colorOffset : R;
  randomColorTarget : Color
}.

Record t : Type := mkLightBeamSystem {
  config : Config;
  beams : list Beam;
  colorTime : R
}.

(** [this.rainbowColors] *)
Definition rainbowColors : list Color :=
  [ Color_hex 0xff0000; Color_hex 0xff8000; Color_hex 0xffff00;
    Color_hex 0x00ff00; Color_hex 0x00ffff; Color_hex 0x0080ff;
    Color_hex 0x8000ff ].

Definition white : Color := Color_hex 0xffffff.

(** [getRainbowColor(t)].  Both indices stay inside the palette (see
    [getRainbowColor_indices]); the default of [nth] is never read. *)
Definition getRainbowColor (t : R) : Color :=
  let normalizedT := js_rem (js_rem t 1.0 + 1.0) 1.0 in
  let colorIndex :=
    normalizedT * (INR (List.length rainbowColors) - 1) in
  let lowerIndex := Zfloor colorIndex in
  let upperIndex := Zceil colorIndex in
  let factor := colorIndex - IZR lowerIndex in
  let lowerColor := nth (Z.to_nat lowerIndex) rainbowColors white in
  let upperColor :=
    nth (Z.to_nat (Z.rem upperIndex (Z.of_nat (List.length rainbowColors))))
        rainbowColors white in
  Color_lerp (Color_clone lowerColor) upperColor factor.

(** Body of the [forEach] of [updateColors] for one beam. *)
Definition updateColors_beam (mode : string) (time : R)
    (beam : Beam) (g : Random) : Beam * Random :=
  let '(targetColor, target', g') :=
    if String.eqb mode "rainbow" then
      (getRainbowColor (colorOffset beam + time), randomColorTarget beam, g)
    else if String.eqb mode "random" then
      let targetColor := Color_clone (randomColorTarget beam) in
      let '(u, g1) := Math_random g in
      if Rlt_dec u 0.01 then
        let '(h, g2) := Math_random g1 in
        (targetColor, setHSL h 1.0 0.5, g2)
      else (targetColor, randomColorTarget beam, g1)
    else (white, randomColorTarget beam, g) in
  let current' := Color_lerp (currentColor beam) targetColor 0.05 in
  let m := material beam in
  (mkBeam (beam_id beam) (beam_mesh beam)
          (mkUniforms current' (u_opacity m) (u_intensity m) (u_time m))
          (hole beam) (baseColor beam) current' (colorOffset beam) target',
   g').

Fixpoint updateColors_loop (mode : string) (time : R)
    (bs : list Beam) (g : Random) : list Beam * Random :=
  match bs with
  | [] => ([], g)
  | b :: rest =>
      let '(b', g1) := updateColors_beam mode time b g in
      let '(rest', g2) := updateColors_loop mode time rest g1 in
      (b' :: rest', g2)
  end.

(** [updateColors()] *)
Definition updateColors (s : t) (g : Random) : t * Random :=
  let '(bs, g') := updateColors_loop (colorMode (config s)) (colorTime s)
                                     (beams s) g in
  (mkLightBeamSystem (config s) bs (colorTime s), g').

(** [new THREE.Vector3(0, 1, 0)] *)
Definition up_axis : Vector3 := mkVector3 0 1 0.

(** Body of the [forEach] of [syncWithDiscoBall] at [index]. *)
Definition sync_beam (discoBallMesh : Mesh) (holes : list Hole)
    (index : nat) (beam : Beam) : Beam :=
  match nth_error holes index with
  | None => beam
  | Some hole =>
      let rotatedPosition :=
        add (applyQuaternion (clone (hole_position hole))
                             (quaternion discoBallMesh))
            (position discoBallMesh) in
      let rotatedDirection :=
        applyQuaternion (clone (direction hole)) (quaternion discoBallMesh) in
      let q := setFromUnitVectors up_axis rotatedDirection in
      mkBeam (beam_id beam)
             (setRotationFromQuaternion
                (Mesh_position_set (beam_mesh beam) rotatedPosition) q)
             (material beam) (LightBeamSystem.hole beam) (baseColor beam)
             (currentColor beam) (colorOffset beam) (randomColorTarget beam)
  end.

Fixpoint sync_loop (discoBallMesh : Mesh) (holes : list Hole)
    (index : nat) (bs : list Beam) : list Beam :=
  match bs with
  | [] => []
  | b :: rest =>
      sync_beam discoBallMesh holes index b
      :: sync_loop discoBallMesh holes (S index) rest
  end.

(** [syncWithDiscoBall()]; [discoBall] is what [this.discoBall] refers to
    at the time of the call ([None] for a null reference). *)
Definition syncWithDiscoBall (discoBall : option DiscoBall) (s : t) : t :=
  match discoBall with
  | None => s
  | Some ball =>
      match getMesh ball with
      | None => s
      | Some discoBallMesh =>
          mkLightBeamSystem (config s)
            (sync_loop discoBallMesh (getHoles ball) 0 (beams s))
            (colorTime s)
      end
  end.

(** [update(deltaTime)] *)
Definition update (discoBall : option DiscoBall) (s : t) (deltaTime : R)
    (g : Random) : t * Random :=
  let time := colorTime s + animationSpeed (config s) * (deltaTime * 0.001) in
  let bs :=
    map (fun beam =>
           let m := material beam in
           mkBeam (beam_id beam) (beam_mesh beam)
                  (mkUniforms (u_color m) (u_opacity m) (u_intensity m) time)
                  (hole beam) (baseColor beam) (currentColor beam)
                  (colorOffset beam) (randomColorTarget beam))
        (beams s) in
  let '(s1, g1) := updateColors (mkLightBeamSystem (config s) bs time) g in
  (syncWithDiscoBall discoBall s1, g1).

(** [setColorMode(mode)] *)
Definition setColorMode (s : t) (mode : string) : t :=
  if existsb (String.eqb mode) ["rainbow"; "random"; "white"]%string then
    mkLightBeamSystem
      (mkConfig (beamLength (config s)) (beamOpacity (config s))
                (beamIntensity (config s)) mode (animationSpeed (config s)))
      (beams s) (colorTime s)
  else s.

(** [getConfig()] *)
Definition getConfig (s : t) : Config := config s.

(** Body of the [forEach] of [createBeams] at [index].  The orientation
    set by [beamMesh.lookAt(targetPoint)] is overwritten two statements
    later by [setRotationFromQuaternion], which is what is kept. *)
Definition createBeam (cfg : Config) (total : nat) (index : nat)
    (hole : Hole) (g : Random) : Beam * Random :=
  let beamMesh := Mesh_position_set Mesh_new (hole_position hole) in
  let q := setFromUnitVectors up_axis (direction hole) in
  let '(h, g') := Math_random g in
  (mkBeam index (setRotationFromQuaternion beamMesh q)
          (mkUniforms white (beamOpacity cfg) (beamIntensity cfg) 0.0)
          hole white white (INR index / INR total) (setHSL h 1.0 0.5),
   g').

Fixpoint createBeams_loop (cfg : Config) (total : nat) (index : nat)
    (hs : list Hole) (g : Random) : list Beam * Random :=
  match hs with
  | [] => ([], g)
  | h :: rest =>
      let '(b, g1) := createBeam cfg total index h g in
      let '(bs, g2) := createBeams_loop cfg total (S index) rest g1 in
      (b :: bs, g2)
  end.

(** [new LightBeamSystem(discoBall, config)]: the field initialisers,
    then [createBeams()], which ends with a first [updateColors()]. *)
Definition new (discoBall : DiscoBall) (c : ConfigArg) (g : Random)
    : t * Random :=
  let cfg := mkConfig (or_default (arg_beamLength c) 8)
                      (or_default (arg_beamOpacity c) 0.8)
                      (or_default (arg_beamIntensity c) 2.0)
                      (or_default (arg_colorMode c) "rainbow"%string)
                      (or_default (arg_animationSpeed c) 0.02) in
  let holes := getHoles discoBall in
  let '(bs, g1) := createBeams_loop cfg (List.length holes) 0 holes g in
  updateColors (mkLightBeamSystem cfg bs 0) g1.

End LightBeamSystem.

(** ** Shortest-arc rotations *)

(** What the specification calls the shortest-arc rotation from one unit
    vector onto another, said of a quaternion [q = (x, y, z, w)]: [q] is
    a rotation (it has length one); its axis [(x, y, z)] is perpendicular
    to both vectors, so that the turn stays in their plane; it turns by
    the angle between them and by no more ([w] is the cosine of half the
    angle of the turn: [w >= 0] keeps the turn within a half turn, and
    [2 * w * w - 1], the cosine of the angle of the turn, is the cosine
    of the angle between the vectors); and it takes the first vector
    onto the second. *)
Definition shortestArc (vFrom vTo : Vector3) (q : Quaternion) : Prop :=
  Quaternion_lengthSq q = 1 /\
  0 <= qw q /\
  dot (mkVector3 (qx q) (qy q) (qz q)) vFrom = 0 /\
  dot (mkVector3 (qx q) (qy q) (qz q)) vTo = 0 /\
  2 * (qw q * qw q) - 1 = dot vFrom vTo /\
  applyQuaternion vFrom q = vTo.

(** ** Sample states *)

(** A source of random numbers that always answers [0.5]. *)
Definition fixedRandom : Random := mkRandom (fun _ => 0.5) 0.

(** [new LightBeamSystem(discoBall)] with no configuration key. *)
Definition noBeamConfig : LightBeamSystem.ConfigArg :=
  LightBeamSystem.mkConfigArg None None None None None.

(** The beam system constructed on a ball with a single aperture. *)
Definition oneBeamSystem : LightBeamSystem.t * Random :=
  LightBeamSystem.new (DiscoBall_new oneHole) noBeamConfig fixedRandom.

(** A beam record written out by hand, on the aperture of that ball. *)
Definition sampleBeam : LightBeamSystem.Beam :=
  LightBeamSystem.mkBeam 0 Mesh_new
    (LightBeamSystem.mkUniforms LightBeamSystem.white 0.8 2.0 0)
    (makeHole 1 2 0) LightBeamSystem.white LightBeamSystem.white 0
    LightBeamSystem.white.

Definition sampleSystem : LightBeamSystem.t :=
  LightBeamSystem.mkLightBeamSystem
    (LightBeamSystem.mkConfig 8 0.8 2.0 "rainbow" 0.02) [sampleBeam] 0.

(** The ball with a single aperture, after
    [mesh.rotation.set(0, 0, Math.PI)] and [mesh.position.set(1, 2, 3)]:
    turned half way round the z axis and moved off the origin. *)
Definition turnedMesh : Mesh :=
  Mesh_position_set (Mesh_rotation_set Mesh_new (mkVector3 0 0 PI))
                    (mkVector3 1 2 3).

Definition turnedBall : DiscoBall :=
  let ball := DiscoBall_new oneHole in
  mkDiscoBall (config ball) (Some turnedMesh) (holes ball)
    (rotationSpeed ball) (targetRotationSpeed ball) (rotationDirection ball)
    (currentRotation ball) (rotationConfig ball).

(** ** Further three.js vector operations *)

(** [v.distanceTo(w)] *)
Definition Vector3_distanceTo (v w : Vector3) : R :=
  sqrt ((vx v - vx w) * (vx v - vx w) + (vy v - vy w) * (vy v - vy w)
        + (vz v - vz w) * (vz v - vz w)).

(** [v.lerp(w, alpha)] *)
Definition Vector3_lerp (v w : Vector3) (alpha : R) : Vector3 :=
  mkVector3 (vx v + (vx w - vx v) * alpha)
            (vy v + (vy w - vy v) * alpha)
            (vz v + (vz w - vz v) * alpha).

(** [v.normalize()], that is [v.divideScalar(v.length() || 1)]. *)
Definition Vector3_normalize (v : Vector3) : Vector3 :=
  let l := Vector3_length v in
  multiplyScalar v (1 / (if Req_dec_T l 0 then 1 else l)).

(** ** DiscoBall.js: carving the apertures into the sphere *)

(** The vertex buffers of [this.geometry]: one position and one normal
    per vertex. *)
Definition Geometry : Type := list (Vector3 * Vector3).

Definition holeRadius : R := 0.35.
Definition holeDepth : R := 0.3.

(** [hole.direction.clone().multiplyScalar(this.config.radius)] *)
Definition holeCenter (radius : R) (hole : Hole) : Vector3 :=
  multiplyScalar (clone (direction hole)) radius.

(** Body of the inner loop of [createHoleGeometry] for one vertex. *)
Definition carveVertex (radius : R) (hole : Hole) (vn : Vector3 * Vector3)
    : Vector3 * Vector3 :=
  let '(vertex, normal) := vn in
  let distance := Vector3_distanceTo vertex (holeCenter radius hole) in
  if Rlt_dec distance holeRadius then
    let factor := 1 - distance / holeRadius in
    let depthFactor := factor ^ 2 * holeDepth in
    let inwardDirection :=
      multiplyScalar (clone (direction hole)) (- depthFactor) in
    (add vertex inwardDirection,
     Vector3_normalize
       (Vector3_lerp normal (multiplyScalar (clone (direction hole)) (-1))
                     (factor * 0.3)))
  else (vertex, normal).

(** One round of [this.holes.forEach]: every vertex against one hole. *)
Definition carveHole (radius : R) (g : Geometry) (hole : Hole) : Geometry :=
  map (carveVertex radius hole) g.

(** [createHoleGeometry()]; the geometry is [None] when [this.geometry] is
    null. *)
Definition createHoleGeometry (d : DiscoBall) (geometry : option Geometry)
    : option Geometry :=
  match geometry with
  | None => None
  | Some g =>
      match holes d with
      | [] => Some g
      | _ => Some (fold_left (carveHole (radius (config d))) (holes d) g)
      end
  end.

(** ** DiscoBall.js: queries *)

(** The object returned by [getRotationState()]. *)
Record RotationState : Type := mkRotationState {
  state_speed : R;
  state_targetSpeed : R;
  state_direction : R;
  state_currentRotation : Vector3;
  isTransitioning : bool;
  state_config : RotationConfig
}.

(** [getRotationState()] *)
Definition getRotationState (d : DiscoBall) : RotationState :=
  mkRotationState (rotationSpeed d) (targetRotationSpeed d)
    (rotationDirection d) (clone (currentRotation d))
    (if Rlt_dec 0.01 (Rabs (rotationSpeed d - targetRotationSpeed d))
     then true else false)
    (rotationConfig d).

(** [getHoleWorldDirection(holeIndex)] for an integer index; [None] is
    the [null] the method returns. *)
Definition getHoleWorldDirection (d : DiscoBall) (holeIndex : Z)
    : option Vector3 :=
  match mesh d with
  | None => None
  | Some m =>
      if orb (holeIndex <? 0)%Z (Z.of_nat (List.length (holes d)) <=? holeIndex)%Z
      then None
      else
        match nth_error (holes d) (Z.to_nat holeIndex) with
        | Some hole => Some (applyQuaternion (clone (direction hole)) (quaternion m))
        | None => None
        end
  end.

(** The calls that leave [xAxisFactor] alone. *)
Definition keepsXAxisFactor (op : RotationOp) : Prop :=
  match op with
  | OpSetRotationConfig c => arg_xAxisFactor c = None
  | _ => True
  end.

(** Two vertices of a sphere of radius two with their outward normals:
    the first at the pole on the z axis, the second on the x axis. *)
Definition sampleGeometry : Geometry :=
  [ (mkVector3 0 0 2, mkVector3 0 0 1); (mkVector3 2 0 0, mkVector3 1 0 0) ].

(** ** The beam system: setters and runs of calls *)

Module LightBeamSystemOps.

Import LightBeamSystem.

(** [beam.material.uniforms.intensity.value = v] *)
Definition withIntensity (v : R) (beam : Beam) : Beam :=
  let m := material beam in
  mkBeam (beam_id beam) (beam_mesh beam)
         (mkUniforms (u_color m) (u_opacity m) v (u_time m))
         (hole beam) (baseColor beam) (currentColor beam)
         (colorOffset beam) (randomColorTarget beam).

(** [beam.material.uniforms.opacity.value = v] *)
Definition withOpacity (v : R) (beam : Beam) : Beam :=
  let m := material beam in
  mkBeam (beam_id beam) (beam_mesh beam)
         (mkUniforms (u_color m) v (u_intensity m) (u_time m))
         (hole beam) (baseColor beam) (currentColor beam)
         (colorOffset beam) (randomColorTarget beam).

(** [setIntensity(intensity)] *)
Definition setIntensity (s : t) (intensity : R) : t :=
  let c := config s in
  let v := Rmax 0 intensity in
  mkLightBeamSystem
    (mkConfig (beamLength c) (beamOpacity c) v (colorMode c) (animationSpeed c))
    (map (withIntensity v) (beams s)) (colorTime s).

(** [setOpacity(opacity)] *)
Definition setOpacity (s : t) (opacity : R) : t :=
  let c := config s in
  let v := Rmax 0 (Rmin 1 opacity) in
  mkLightBeamSystem
    (mkConfig (beamLength c) v (beamIntensity c) (colorMode c) (animationSpeed c))
    (map (withOpacity v) (beams s)) (colorTime s).

(** [setAnimationSpeed(speed)] *)
Definition setAnimationSpeed (s : t) (speed : R) : t :=
  let c := config s in
  mkLightBeamSystem
    (mkConfig (beamLength c) (beamOpacity c) (beamIntensity c) (colorMode c)
              (Rmax 0 speed))
    (beams s) (colorTime s).

(** [getBeamCount()] *)
Definition getBeamCount (s : t) : nat := List.length (beams s).

(** [dispose()], as far as this record goes: [this.beams = []].  The
    geometry, the materials and the group that it also releases are not
    part of the record. *)
Definition dispose (s : t) : t :=
  mkLightBeamSystem (config s) [] (colorTime s).

(** The calls a controlling collaborator and the render loop make on the
    beam system.  An update carries the state the ball is in when the
    call is made. *)
Inductive BeamOp : Type :=
| BUpdate (discoBall : option DiscoBall) (deltaTime : R)
| BSetColorMode (mode : string)
| BSetIntensity (intensity : R)
| BSetOpacity (opacity : R)
| BSetAnimationSpeed (speed : R).

Definition applyBeamOp (sg : t * Random) (op : BeamOp) : t * Random :=
  match op with
  | BUpdate discoBall deltaTime => update discoBall (fst sg) deltaTime (snd sg)
  | BSetColorMode mode => (setColorMode (fst sg) mode, snd sg)
  | BSetIntensity v => (setIntensity (fst sg) v, snd sg)
  | BSetOpacity v => (setOpacity (fst sg) v, snd sg)
  | BSetAnimationSpeed v => (setAnimationSpeed (fst sg) v, snd sg)
  end.

(** A sequence of calls, first call first. *)
Definition runBeamOps (sg : t * Random) (ops : list BeamOp) : t * Random :=
  fold_left applyBeamOp ops sg.

(** Every shader uniform mirrors the state it is copied from. *)
Definition uniformsMirror (s : t) : Prop :=
  Forall (fun beam =>
            u_color (material beam) = currentColor beam /\
            u_opacity (material beam) = beamOpacity (config s) /\
            u_intensity (material beam) = beamIntensity (config s) /\
            u_time (material beam) = colorTime s)
         (beams s).

(** A colour whose three components lie between zero and one. *)
Definition inGamut (c : Color) : Prop :=
  0 <= cr c <= 1 /\ 0 <= cg c <= 1 /\ 0 <= cb c <= 1.

(** What identifies a beam: its id, its aperture and its colour offset. *)
Definition beamKey (beam : Beam) : nat * Hole * R :=
  (beam_id beam, hole beam, colorOffset beam).

(** The colour [c] after [n] steps of [lerp(white, 0.05)]. *)
Definition fadedToWhite (n : nat) (c : Color) : Color :=
  mkColor (1 + (cr c - 1) * 0.95 ^ n)
          (1 + (cg c - 1) * 0.95 ^ n)
          (1 + (cb c - 1) * 0.95 ^ n).

End LightBeamSystemOps.

(** ** RenderEngine.js: device classes, quality profile and frame pacing *)

Module RenderEngine.

(** The values of [screenSize]: ['mobile'], ['tablet'], ['small-desktop'],
    ['desktop']; and of [performanceLevel]: ['low'], ['medium'],
    ['high']. *)
Inductive ScreenSize : Type := mobile | tablet | small_desktop | desktop.
Inductive PerformanceLevel : Type := low | medium | high.

(** What [detectDevice] reads from the browser: the outcome of its two
    tests on [navigator.userAgent], and three numbers of [window]. *)
Record Window : Type := mkWindow {
  userAgentIsMobile : bool;
  userAgentIsTablet : bool;
  innerWidth : R;
  innerHeight : R;
  devicePixelRatio : R
}.

Record DeviceInfo : Type := mkDeviceInfo {
  isMobile : bool;
  isTablet : bool;
  isDesktop : bool;
  screenSize : ScreenSize;
  width : R;
  height : R;
  pixelRatio : R;
  performanceLevel : PerformanceLevel;
  aspectRatio : R
}.

(** [detectDevice()] *)
Definition detectDevice (w : Window) : DeviceInfo :=
  let width := innerWidth w in
  let height := innerHeight w in
  let pixelRatio :=
    if Req_dec_T (devicePixelRatio w) 0 then 1 else devicePixelRatio w in
  let isMobile := userAgentIsMobile w in
  let isTablet := userAgentIsTablet w in
  let isDesktop := andb (negb isMobile) (negb isTablet) in
  let screenSize :=
    if Rle_dec width 480 then mobile
    else if Rle_dec width 768 then tablet
    else if Rle_dec width 1024 then small_desktop
    else desktop in
  let performanceLevel :=
    if isMobile then medium
    else if Rlt_dec 2 pixelRatio then medium
    else if Rlt_dec 2073600 (width * height * pixelRatio) then medium
    else high in
  let performanceLevel :=
    if Rle_dec width 480 then
      if Rlt_dec 2 pixelRatio then low else performanceLevel
    else performanceLevel in
  mkDeviceInfo isMobile isTablet isDesktop screenSize width height pixelRatio
               performanceLevel (width / height).

(** The object returned by [getResponsiveConfig]. *)
Record ResponsiveConfig : Type := mkResponsiveConfig {
  cfg_pixelRatio : R;
  antialias : bool;
  shadowMapSize : R;
  fov : R;
  near : R;
  far : R;
  cameraDistance : R;
  targetFPS : R;
  enableShadows : bool;
  enableFog : bool
}.

(** One of the objects spread over the base configuration: any subset of
    the keys. *)
Record ResponsiveConfigPart : Type := mkResponsiveConfigPart {
  part_pixelRatio : option R;
  part_antialias : option bool;
  part_shadowMapSize : option R;
  part_fov : option R;
  part_cameraDistance : option R;
  part_targetFPS : option R;
  part_enableShadows : option bool;
  part_enableFog : option bool
}.

(** [{ ...c, ...p }] *)
Definition spread (c : ResponsiveConfig) (p : ResponsiveConfigPart)
    : ResponsiveConfig :=
  mkResponsiveConfig
    (or_default (part_pixelRatio p) (cfg_pixelRatio c))
    (or_default (part_antialias p) (antialias c))
    (or_default (part_shadowMapSize p) (shadowMapSize c))
    (or_default (part_fov p) (fov c))
    (near c) (far c)
    (or_default (part_cameraDistance p) (cameraDistance c))
    (or_default (part_targetFPS p) (targetFPS c))
    (or_default (part_enableShadows p) (enableShadows c))
    (or_default (part_enableFog p) (enableFog c)).

(** [sizeConfig[screenSize]] *)
Definition sizeConfig (dpr : R) (s : ScreenSize) : ResponsiveConfigPart :=
  match s with
  | mobile =>
      mkResponsiveConfigPart (Some (Rmin dpr 1.5)) None (Some 1024) (Some 80)
                             (Some 6) (Some 30) None None
  | tablet =>
      mkResponsiveConfigPart (Some (Rmin dpr 2)) None (Some 1024) (Some 75)
                             (Some 7) (Some 45) None None
  | small_desktop =>
      mkResponsiveConfigPart None None None (Some 75) (Some 8) None None None
  | desktop =>
      mkResponsiveConfigPart None None (Some 2048) (Some 75) (Some 8) (Some 60)
                             None None
  end.

(** [performanceConfig[performanceLevel]] *)
Definition performanceConfig (dpr : R) (p : PerformanceLevel)
    : ResponsiveConfigPart :=
  match p with
  | low =>
      mkResponsiveConfigPart (Some 1) (Some false) (Some 512) None None
                             (Some 30) (Some false) (Some false)
  | medium =>
      mkResponsiveConfigPart (Some (Rmin dpr 1.5)) None (Some 1024) None None
                             (Some 45) (Some true) None
  | high =>
      mkResponsiveConfigPart (Some (Rmin dpr 2)) None (Some 2048) None None
                             (Some 60) (Some true) None
  end.

(** [getResponsiveConfig()], reading [this.deviceInfo] and
    [window.devicePixelRatio]. *)
Definition getResponsiveConfig (info : DeviceInfo) (w : Window)
    : ResponsiveConfig :=
  let dpr := devicePixelRatio w in
  let baseConfig :=
    mkResponsiveConfig (Rmin dpr 2) true 2048 75 0.1 1000 8 60 true true in
  spread (spread baseConfig (sizeConfig dpr (screenSize info)))
         (performanceConfig dpr (performanceLevel info)).

(** [getBallRadius()] *)
Definition getBallRadius (info : DeviceInfo) : R :=
  let baseRadius := 2 in
  baseRadius * match screenSize info with
               | mobile => 1.2
               | tablet => 1.1
               | small_desktop => 1.0
               | desktop => 1.0
               end.

(** [getBallSegments()] *)
Definition getBallSegments (info : DeviceInfo) : nat :=
  match performanceLevel info with
  | low => 16
  | medium => 24
  | high => 32
  end.

(** [getLightBeamConfig()], on the keys the beam system model keeps. *)
Definition getLightBeamConfig (info : DeviceInfo) : LightBeamSystem.ConfigArg :=
  match performanceLevel info with
  | low =>
      LightBeamSystem.mkConfigArg (Some 6) (Some 0.6) (Some 1.5)
                                  (Some "rainbow"%string) (Some 0.015)
  | medium =>
      LightBeamSystem.mkConfigArg (Some 7) (Some 0.7) (Some 1.8)
                                  (Some "rainbow"%string) (Some 0.018)
  | high =>
      LightBeamSystem.mkConfigArg (Some 8) (Some 0.8) (Some 2.0)
                                  (Some "rainbow"%string) (Some 0.02)
  end.

(** The fields of the engine that the frame loop and the two factory
    methods read and write. *)
Record t : Type := mkRenderEngine {
  deviceInfo : DeviceInfo;
  responsiveConfig : ResponsiveConfig;
  frameRate : R;
  lastTime : R;
  frameInterval : R;
  discoBall : option DiscoBall;
  lightBeamSystem : option LightBeamSystem.t
}.

(** [new RenderEngine(container)] *)
Definition new (w : Window) : t :=
  let info := detectDevice w in
  mkRenderEngine info (getResponsiveConfig info w) 60 0 (1000 / 60) None None.

(** [setFrameRate(fps)] *)
Definition setFrameRate (e : t) (fps : R) : t :=
  let rate := Rmax 30 (Rmin 120 fps) in
  mkRenderEngine (deviceInfo e) (responsiveConfig e) rate (lastTime e)
                 (1000 / rate) (discoBall e) (lightBeamSystem e).

(** [createDiscoBall()] *)
Definition createDiscoBall (e : t) : t :=
  let ballConfig :=
    mkConfigArg (Some (getBallRadius (deviceInfo e)))
                (Some (getBallSegments (deviceInfo e))) (Some 50%nat) in
  mkRenderEngine (deviceInfo e) (responsiveConfig e) (frameRate e) (lastTime e)
                 (frameInterval e) (Some (DiscoBall_new ballConfig))
                 (lightBeamSystem e).

(** [createLightBeamSystem()] *)
Definition createLightBeamSystem (e : t) (g : Random) : t * Random :=
  match discoBall e with
  | None => (e, g)
  | Some ball =>
      let '(s, g') :=
        LightBeamSystem.new ball (getLightBeamConfig (deviceInfo e)) g in
      (mkRenderEngine (deviceInfo e) (responsiveConfig e) (frameRate e)
                      (lastTime e) (frameInterval e) (discoBall e) (Some s),
       g')
  end.

(** [updateAnimations(deltaTime)]: the ball first, then the beam system,
    which reads the ball as the first step left it. *)
Definition updateAnimations (e : t) (deltaTime : R) (g : Random) : t * Random :=
  let ball' := option_map (fun b => updateRotation b deltaTime) (discoBall e) in
  match lightBeamSystem e with
  | None =>
      (mkRenderEngine (deviceInfo e) (responsiveConfig e) (frameRate e)
                      (lastTime e) (frameInterval e) ball' None, g)
  | Some s =>
      let '(s', g') := LightBeamSystem.update ball' s deltaTime g in
      (mkRenderEngine (deviceInfo e) (responsiveConfig e) (frameRate e)
                      (lastTime e) (frameInterval e) ball' (Some s'), g')
  end.

(** [render(currentTime)], on the state: the frame is skipped when less
    than one frame interval has passed. *)
Definition render (e : t) (currentTime : R) (g : Random) : t * Random :=
  let deltaTime := currentTime - lastTime e in
  if Rlt_dec deltaTime (frameInterval e) then (e, g)
  else
    let e1 :=
      mkRenderEngine (deviceInfo e) (responsiveConfig e) (frameRate e)
                     (currentTime - js_rem deltaTime (frameInterval e))
                     (frameInterval e) (discoBall e) (lightBeamSystem e) in
    updateAnimations e1 deltaTime g.

(** What happens to a running engine: a frame callback at some time, a
    call on the ball's rotation controller, a call on the beam system, or
    a change of frame rate. *)
Inductive EngineOp : Type :=
| ERender (currentTime : R)
| EBall (op : RotationOp)
| EBeam (op : LightBeamSystemOps.BeamOp)
| ESetFrameRate (fps : R).

Definition applyEngineOp (eg : t * Random) (op : EngineOp) : t * Random :=
  let '(e, g) := eg in
  match op with
  | ERender currentTime => render e currentTime g
  | EBall op =>
      (mkRenderEngine (deviceInfo e) (responsiveConfig e) (frameRate e)
                      (lastTime e) (frameInterval e)
                      (option_map (fun b => applyOp b op) (discoBall e))
                      (lightBeamSystem e), g)
  | EBeam op =>
      match lightBeamSystem e with
      | None => (e, g)
      | Some s =>
          let '(s', g') := LightBeamSystemOps.applyBeamOp (s, g) op in
          (mkRenderEngine (deviceInfo e) (responsiveConfig e) (frameRate e)
                          (lastTime e) (frameInterval e) (discoBall e) (Some s'),
           g')
      end
  | ESetFrameRate fps => (setFrameRate e fps, g)
  end.

Definition runEngine (eg : t * Random) (ops : list EngineOp) : t * Random :=
  fold_left applyEngineOp ops eg.

(** The operations under which the ball keeps its speed bounds: calls on
    the ball are restricted as in [keepsBounds]; frame callbacks may come
    at any time whatsoever. *)
Definition keepsBallBounds (op : EngineOp) : Prop :=
  match op with
  | EBall o => keepsBounds o
  | _ => True
  end.

(** The engine once its ball and its beam system are created. *)
Definition start (w : Window) (g : Random) : t * Random :=
  createLightBeamSystem (createDiscoBall (new w)) g.

End RenderEngine.

(** A 1920 by 1080 desktop window at pixel ratio one. *)
Definition desktopWindow : RenderEngine.Window :=
  RenderEngine.mkWindow false false 1920 1080 1.

(** A phone: 390 by 844 at pixel ratio three. *)
Definition phoneWindow : RenderEngine.Window :=
  RenderEngine.mkWindow true false 390 844 3.

(** ** Aperture placement *)

Section GenerateHoles.

Variables (numHoles : nat) (r : R).

Lemma generateHoles_loop_spec (k i : nat) (acc : list Hole) :
  generateHoles_loop numHoles r k i acc
  = acc ++ map (makeHole numHoles r) (seq i k).
Proof.
  revert i acc.
  induction k as [|k IH]; intros i acc; simpl.
  - now rewrite app_nil_r.
  - rewrite IH, <- app_assoc. reflexivity.
Qed.

Lemma generateHoles_map :
  generateHoles numHoles r = map (makeHole numHoles r) (seq 0 numHoles).
Proof. unfold generateHoles. now rewrite generateHoles_loop_spec. Qed.

Lemma generateHoles_length :
  List.length (generateHoles numHoles r) = numHoles.
Proof. rewrite generateHoles_map. now rewrite length_map, length_seq. Qed.

Lemma generateHoles_nth (i : nat) (dflt : Hole) :
  (i < numHoles)%nat ->
  nth i (generateHoles numHoles r) dflt = makeHole numHoles r i.
Proof.
  intros Hi. rewrite generateHoles_map.
  rewrite (nth_indep _ dflt (makeHole numHoles r 0%nat))
    by now rewrite length_map, length_seq.
  rewrite map_nth, seq_nth by exact Hi. reflexivity.
Qed.

End GenerateHoles.

(** The constructor stores what [generateHoles] computes from the merged
    configuration. *)
Lemma DiscoBall_new_holes (c : ConfigArg) :
  getHoles (DiscoBall_new c)
  = generateHoles (or_default (arg_holes c) 12%nat) (or_default (arg_radius c) 2).
Proof. reflexivity. Qed.

(** The argument of [Math.acos] stays inside [[-1, 1]]. *)
Lemma polar_cosine_range (N i : nat) :
  (i < N)%nat -> -1 <= 1 - 2 * (INR i + 0.5) / INR N <= 1.
Proof.
  intros Hi.
  assert (HN : 0 < INR N) by (apply lt_0_INR; lia).
  assert (Hi' : INR i + 1 <= INR N).
  { rewrite <- S_INR. apply le_INR. lia. }
  assert (H0 : 0 <= INR i) by apply pos_INR.
  assert (Hq : 0 <= (INR i + 0.5) / INR N <= 1).
  { split.
    - apply Rmult_le_pos; [lra | left; now apply Rinv_0_lt_compat].
    - apply (Rmult_le_reg_r (INR N)); [exact HN|].
      unfold Rdiv. rewrite Rmult_assoc, Rinv_l by lra. lra. }
  unfold Rdiv in *. rewrite Rmult_assoc. lra.
Qed.

Lemma clone_id (v : Vector3) : clone v = v.
Proof. now destruct v. Qed.

(** A vector given by spherical angles has length one. *)
Lemma spherical_unit (p t : R) :
  Vector3_length (mkVector3 (sin p * cos t) (sin p * sin t) (cos p)) = 1.
Proof.
  unfold Vector3_length; simpl.
  replace (sin p * cos t * (sin p * cos t) + sin p * sin t * (sin p * sin t)
           + cos p * cos p)
    with ((sin p)² * ((sin t)² + (cos t)²) + (cos p)²)
    by (unfold Rsqr; ring).
  rewrite sin2_cos2, Rmult_1_r, sin2_cos2. apply sqrt_1.
Qed.

(** Every generated aperture direction is a unit vector, whatever the count
    and the index. *)
Lemma makeHole_direction_unit (N : nat) (r : R) (i : nat) :
  dot (direction (makeHole N r i)) (direction (makeHole N r i)) = 1.
Proof.
  unfold makeHole; cbn [direction]. rewrite clone_id.
  unfold dot; cbn [vx vy vz].
  set (p := acos (1 - 2 * (INR i + 0.5) / INR N)).
  set (t := 2 * PI * INR i / goldenRatio).
  replace (sin p * cos t * (sin p * cos t) + sin p * sin t * (sin p * sin t)
           + cos p * cos p)
    with ((sin p)² * ((sin t)² + (cos t)²) + (cos p)²)
    by (unfold Rsqr; ring).
  now rewrite sin2_cos2, Rmult_1_r, sin2_cos2.
Qed.

Lemma multiplyScalar_length (v : Vector3) (s : R) :
  0 <= s -> Vector3_length (multiplyScalar v s) = Vector3_length v * s.
Proof.
  intros Hs. unfold Vector3_length, multiplyScalar; simpl.
  replace (vx v * s * (vx v * s) + vy v * s * (vy v * s) + vz v * s * (vz v * s))
    with ((vx v * vx v + vy v * vy v + vz v * vz v) * (s * s)) by ring.
  rewrite sqrt_mult_alt by nra.
  now rewrite sqrt_square.
Qed.

(** C1.  For an aperture count [N >= 1] and a radius [r > 0],
    [generateHoles] returns exactly [N] records; the record at index [i]
    carries [id = i], the azimuth [2*PI*i / goldenRatio] with
    [goldenRatio = (1 + sqrt 5) / 2], a polar angle whose cosine is
    [1 - 2*(i + 0.5)/N], as [direction] the Cartesian vector of these two
    angles, of length 1, and as [position] that direction scaled by [r],
    of length [r].  The result is a function of [(N, r)] alone. *)
Theorem generateHoles_fibonacci_sphere (N : nat) (r : R) :
  (1 <= N)%nat -> 0 < r ->
  goldenRatio = (1 + sqrt 5) / 2 /\
  List.length (generateHoles N r) = N /\
  forall (i : nat) (dflt : Hole), (i < N)%nat ->
    let h := nth i (generateHoles N r) dflt in
    id h = i /\
    theta h = 2 * PI * INR i / goldenRatio /\
    cos (phi h) = 1 - 2 * (INR i + 0.5) / INR N /\
    direction h = mkVector3 (sin (phi h) * cos (theta h))
                            (sin (phi h) * sin (theta h))
                            (cos (phi h)) /\
    Vector3_length (direction h) = 1 /\
    hole_position h = multiplyScalar (direction h) r /\
    Vector3_length (hole_position h) = r.
Proof.
  intros HN Hr. split; [reflexivity|]. split; [apply generateHoles_length|].
  intros i dflt Hi h. subst h. rewrite generateHoles_nth by exact Hi.
  unfold makeHole; cbn [id theta phi direction hole_position clone vx vy vz].
  repeat split.
  - apply cos_acos, polar_cosine_range, Hi.
  - apply spherical_unit.
  - rewrite clone_id, multiplyScalar_length by lra.
    rewrite spherical_unit. lra.
Qed.

Lemma generateHoles_fibonacci_sphere_witness :
  (1 <= 12)%nat /\ 0 < 2 /\ List.length (generateHoles 12 2) = 12%nat.
Proof.
  split; [lia|]. split; [lra|].
  apply (generateHoles_fibonacci_sphere 12 2); [lia | lra].
Defined.

(** C3.  A ball constructed with [holes: 0] has an empty aperture list.
    The constructor is a total function: it runs to completion, with the
    mesh created and the rotation state initialised. *)
Theorem constructor_zero_holes (radius : option R) (segments : option nat) :
  let ball := DiscoBall_new (mkConfigArg radius segments (Some 0%nat)) in
  getHoles ball = [] /\
  holes_count (config ball) = 0%nat /\
  (exists m, getMesh ball = Some m).
Proof.
  cbv zeta. repeat split. eexists. reflexivity.
Qed.

(** ** The rotation controller: speed smoothing *)

Section SpeedSmoothing.

Variables (d : DiscoBall) (deltaTime : R).

Let s := rotationSpeed d.
Let t := targetRotationSpeed d.
Let s' := rotationSpeed (updateRotationSpeed d deltaTime).

(** The interpolation factor never exceeds one, whatever [deltaTime]. *)
Lemma updateRotationSpeed_stays_above :
  t <= s -> t <= s'.
Proof.
  subst s t s'. unfold updateRotationSpeed, lerp; cbn [rotationSpeed].
  intros Hle. destruct (Rlt_dec _ _) as [_|_]; [|lra].
  pose proof (Rmin_r (speedTransitionRate (rotationConfig d)
                      * (deltaTime * 0.001)) 1.0) as Hf.
  nra.
Qed.

Lemma updateRotationSpeed_stays_below :
  s <= t -> s' <= t.
Proof.
  subst s t s'. unfold updateRotationSpeed, lerp; cbn [rotationSpeed].
  intros Hle. destruct (Rlt_dec _ _) as [_|_]; [|lra].
  pose proof (Rmin_r (speedTransitionRate (rotationConfig d)
                      * (deltaTime * 0.001)) 1.0) as Hf.
  nra.
Qed.

Hypothesis rate_nonneg : 0 <= speedTransitionRate (rotationConfig d).
Hypothesis deltaTime_nonneg : 0 <= deltaTime.

Lemma transition_factor_range :
  0 <= Rmin (speedTransitionRate (rotationConfig d) * (deltaTime * 0.001)) 1.0
    <= 1.
Proof.
  split.
  2:{ pose proof (Rmin_r (speedTransitionRate (rotationConfig d)
                          * (deltaTime * 0.001)) 1.0). lra. }
  apply Rmin_glb; [|lra].
  apply Rmult_le_pos; [exact rate_nonneg | lra].
Qed.

Lemma updateRotationSpeed_rises : s <= t -> s <= s'.
Proof.
  subst s t s'. unfold updateRotationSpeed, lerp; cbn [rotationSpeed].
  intros Hle. destruct (Rlt_dec _ _) as [_|_]; [|lra].
  pose proof transition_factor_range as Hf. nra.
Qed.

Lemma updateRotationSpeed_falls : t <= s -> s' <= s.
Proof.
  subst s t s'. unfold updateRotationSpeed, lerp; cbn [rotationSpeed].
  intros Hle. destruct (Rlt_dec _ _) as [_|_]; [|lra].
  pose proof transition_factor_range as Hf. nra.
Qed.

End SpeedSmoothing.

(** What [updateRotation] leaves alone, and what it does to the speed. *)
Lemma updateRotation_target (d : DiscoBall) (dt : R) :
  targetRotationSpeed (updateRotation d dt) = targetRotationSpeed d.
Proof. unfold updateRotation. now destruct (mesh d). Qed.

Lemma updateRotation_config (d : DiscoBall) (dt : R) :
  rotationConfig (updateRotation d dt) = rotationConfig d.
Proof. unfold updateRotation. now destruct (mesh d). Qed.

Lemma updateRotation_speed (d : DiscoBall) (dt : R) :
  rotationSpeed (updateRotation d dt)
  = match mesh d with
    | Some _ => rotationSpeed (updateRotationSpeed d dt)
    | None => rotationSpeed d
    end.
Proof. unfold updateRotation. now destruct (mesh d). Qed.

Lemma updates_target (dts : list R) (d : DiscoBall) :
  targetRotationSpeed (updates d dts) = targetRotationSpeed d.
Proof.
  revert d. induction dts as [|dt dts IH]; intros d; [reflexivity|].
  unfold updates in *; simpl. now rewrite IH, updateRotation_target.
Qed.

Lemma updates_config (dts : list R) (d : DiscoBall) :
  rotationConfig (updates d dts) = rotationConfig d.
Proof.
  revert d. induction dts as [|dt dts IH]; intros d; [reflexivity|].
  unfold updates in *; simpl. now rewrite IH, updateRotation_config.
Qed.

Lemma updates_app (d : DiscoBall) (dts1 dts2 : list R) :
  updates d (dts1 ++ dts2) = updates (updates d dts1) dts2.
Proof. unfold updates. apply fold_left_app. Qed.

(** One frame, speed below the target. *)
Lemma updateRotation_rises (d : DiscoBall) (dt : R) :
  0 <= speedTransitionRate (rotationConfig d) -> 0 <= dt ->
  rotationSpeed d <= targetRotationSpeed d ->
  rotationSpeed d <= rotationSpeed (updateRotation d dt)
                  <= targetRotationSpeed d.
Proof.
  intros Hr Hdt Hle. rewrite updateRotation_speed.
  destruct (mesh d); [|lra]. split.
  - now apply updateRotationSpeed_rises.
  - now apply updateRotationSpeed_stays_below.
Qed.

(** One frame, speed above the target. *)
Lemma updateRotation_falls (d : DiscoBall) (dt : R) :
  0 <= speedTransitionRate (rotationConfig d) -> 0 <= dt ->
  targetRotationSpeed d <= rotationSpeed d ->
  targetRotationSpeed d <= rotationSpeed (updateRotation d dt)
                        <= rotationSpeed d.
Proof.
  intros Hr Hdt Hle. rewrite updateRotation_speed.
  destruct (mesh d); [|lra]. split.
  - now apply updateRotationSpeed_stays_above.
  - now apply updateRotationSpeed_falls.
Qed.

(** Any number of frames, speed below the target. *)
Lemma updates_rise (dts : list R) (d : DiscoBall) :
  0 <= speedTransitionRate (rotationConfig d) ->
  Forall (fun dt => 0 < dt) dts ->
  rotationSpeed d <= targetRotationSpeed d ->
  rotationSpeed d <= rotationSpeed (updates d dts) <= targetRotationSpeed d.
Proof.
  revert d. induction dts as [|dt dts IH]; intros d Hr Hall Hle.
  - unfold updates; simpl; lra.
  - inversion Hall as [|? ? Hdt Hall']; subst.
    destruct (updateRotation_rises d dt Hr (Rlt_le _ _ Hdt) Hle) as [H1 H2].
    specialize (IH (updateRotation d dt)).
    rewrite updateRotation_config, updateRotation_target in IH.
    specialize (IH Hr Hall' H2).
    change (updates d (dt :: dts)) with (updates (updateRotation d dt) dts).
    lra.
Qed.

(** Any number of frames, speed above the target. *)
Lemma updates_fall (dts : list R) (d : DiscoBall) :
  0 <= speedTransitionRate (rotationConfig d) ->
  Forall (fun dt => 0 < dt) dts ->
  targetRotationSpeed d <= rotationSpeed d ->
  targetRotationSpeed d <= rotationSpeed (updates d dts) <= rotationSpeed d.
Proof.
  revert d. induction dts as [|dt dts IH]; intros d Hr Hall Hle.
  - unfold updates; simpl; lra.
  - inversion Hall as [|? ? Hdt Hall']; subst.
    destruct (updateRotation_falls d dt Hr (Rlt_le _ _ Hdt) Hle) as [H1 H2].
    specialize (IH (updateRotation d dt)).
    rewrite updateRotation_config, updateRotation_target in IH.
    specialize (IH Hr Hall' H1).
    change (updates d (dt :: dts)) with (updates (updateRotation d dt) dts).
    lra.
Qed.

(** One frame moves a speed that is off the target: with the mesh in
    place, a positive transition rate and a positive [deltaTime], a speed
    below the target comes out strictly higher, a speed above it strictly
    lower.  Far from the target the step is the positive fraction
    [min(rate * deltaTime * 0.001, 1)] of the gap; within [0.01] of it the
    speed is put on the target. *)
Lemma updateRotation_rises_strictly (d : DiscoBall) (dt : R) :
  mesh d <> None ->
  0 < speedTransitionRate (rotationConfig d) -> 0 < dt ->
  rotationSpeed d < targetRotationSpeed d ->
  rotationSpeed d < rotationSpeed (updateRotation d dt).
Proof.
  intros Hm Hr Hdt Hlt. rewrite updateRotation_speed.
  destruct (mesh d); [|congruence].
  unfold updateRotationSpeed, lerp; cbn [rotationSpeed].
  destruct (Rlt_dec _ _) as [_|_]; [|lra].
  assert (Hf : 0 < Rmin (speedTransitionRate (rotationConfig d)
                         * (dt * 0.001)) 1.0).
  { apply Rmin_glb_lt; [|lra]. apply Rmult_lt_0_compat; lra. }
  nra.
Qed.

Lemma updateRotation_falls_strictly (d : DiscoBall) (dt : R) :
  mesh d <> None ->
  0 < speedTransitionRate (rotationConfig d) -> 0 < dt ->
  targetRotationSpeed d < rotationSpeed d ->
  rotationSpeed (updateRotation d dt) < rotationSpeed d.
Proof.
  intros Hm Hr Hdt Hlt. rewrite updateRotation_speed.
  destruct (mesh d); [|congruence].
  unfold updateRotationSpeed, lerp; cbn [rotationSpeed].
  destruct (Rlt_dec _ _) as [_|_]; [|lra].
  assert (Hf : 0 < Rmin (speedTransitionRate (rotationConfig d)
                         * (dt * 0.001)) 1.0).
  { apply Rmin_glb_lt; [|lra]. apply Rmult_lt_0_compat; lra. }
  nra.
Qed.

(** The mesh is never taken away by [updateRotation]. *)
Lemma updates_keep_mesh (dts : list R) (d : DiscoBall) :
  mesh d <> None -> mesh (updates d dts) <> None.
Proof.
  revert d. induction dts as [|dt dts IH]; intros d Hm; [exact Hm|].
  change (updates d (dt :: dts)) with (updates (updateRotation d dt) dts).
  apply IH. unfold updateRotation.
  destruct (mesh d); [discriminate | congruence].
Qed.

(** C7.  Along any sequence of [updateRotation(deltaTime)] calls with
    [deltaTime > 0] the target is left alone and the speed moves
    monotonically towards it without passing it.  Write [s0] for the
    starting speed, [s1] for the speed after any prefix of the calls,
    [s2] for the speed after any longer prefix and [t] for the target.
    When [s0 <= t], then [s0 <= s1 <= s2 <= t]; symmetrically
    [t <= s2 <= s1 <= s0] when [t <= s0].  And the speed does move: on a
    ball that has its mesh, with a positive transition rate, a speed
    [s1] that is still below the target is strictly higher after at
    least one more call, [s1 < s2], and one still above it is strictly
    lower, [s2 < s1].  The transition rate is taken as not negative, as
    it is in the constructed configuration ([0.05]) and in every state
    reached from it without [setRotationConfig]. *)
Theorem updateRotation_monotone_no_overshoot
    (d : DiscoBall) (before after : list R) :
  0 <= speedTransitionRate (rotationConfig d) ->
  Forall (fun dt => 0 < dt) (before ++ after) ->
  let s0 := rotationSpeed d in
  let s1 := rotationSpeed (updates d before) in
  let s2 := rotationSpeed (updates d (before ++ after)) in
  let t := targetRotationSpeed d in
  targetRotationSpeed (updates d (before ++ after)) = t /\
  (s0 <= t -> s0 <= s1 /\ s1 <= s2 /\ s2 <= t) /\
  (t <= s0 -> t <= s2 /\ s2 <= s1 /\ s1 <= s0) /\
  (mesh d <> None -> 0 < speedTransitionRate (rotationConfig d) ->
   after <> [] ->
   (s1 < t -> s1 < s2 /\ s2 <= t) /\
   (t < s1 -> t <= s2 /\ s2 < s1)).
Proof.
  intros Hr Hall s0 s1 s2 t. subst s0 s1 s2 t.
  apply Forall_app in Hall as [Hb Ha].
  split; [apply updates_target|].
  rewrite updates_app.
  pose proof (updates_config before d) as Hc.
  pose proof (updates_target before d) as Ht.
  split; [|split].
  - intros Hle.
    destruct (updates_rise before d Hr Hb Hle) as [H1 H2].
    destruct (updates_rise after (updates d before)) as [H3 H4];
      rewrite ?Hc, ?Ht; try assumption.
    rewrite Ht in H4. lra.
  - intros Hle.
    destruct (updates_fall before d Hr Hb Hle) as [H1 H2].
    destruct (updates_fall after (updates d before)) as [H3 H4];
      rewrite ?Hc, ?Ht; try assumption.
    rewrite Ht in H3. lra.
  - intros Hm Hpos Hne.
    destruct after as [|dt rest]; [congruence|].
    inversion Ha as [|? ? Hdt Hrest]; subst.
    set (d1 := updates d before) in *.
    assert (Hm1 : mesh d1 <> None) by (now apply updates_keep_mesh).
    assert (Hr1 : 0 < speedTransitionRate (rotationConfig d1))
      by (now rewrite Hc).
    change (updates d1 (dt :: rest))
      with (updates (updateRotation d1 dt) rest).
    pose proof (updateRotation_config d1 dt) as Hc2.
    pose proof (updateRotation_target d1 dt) as Ht2.
    split; intros Hlt.
    + assert (Hlt1 : rotationSpeed d1 < targetRotationSpeed d1)
        by (now rewrite Ht).
      pose proof (updateRotation_rises_strictly d1 dt Hm1 Hr1 Hdt Hlt1) as Hs.
      assert (Hle2 : rotationSpeed (updateRotation d1 dt)
                     <= targetRotationSpeed d1)
        by (apply updateRotation_rises; lra).
      assert (H34 : rotationSpeed (updateRotation d1 dt)
                    <= rotationSpeed (updates (updateRotation d1 dt) rest)
                    <= targetRotationSpeed (updateRotation d1 dt)).
      { apply updates_rise; rewrite ?Hc2, ?Ht2; try assumption; lra. }
      rewrite Ht2, Ht in H34. lra.
    + assert (Hlt1 : targetRotationSpeed d1 < rotationSpeed d1)
        by (now rewrite Ht).
      pose proof (updateRotation_falls_strictly d1 dt Hm1 Hr1 Hdt Hlt1) as Hs.
      assert (Hle2 : targetRotationSpeed d1
                     <= rotationSpeed (updateRotation d1 dt))
        by (apply updateRotation_falls; lra).
      assert (H34 : targetRotationSpeed (updateRotation d1 dt)
                    <= rotationSpeed (updates (updateRotation d1 dt) rest)
                    <= rotationSpeed (updateRotation d1 dt)).
      { apply updates_fall; rewrite ?Hc2, ?Ht2; try assumption; lra. }
      rewrite Ht2, Ht in H34. lra.
Qed.

(** Case analysis on the comparisons a concrete run goes through. *)
Ltac real_cases :=
  unfold clampSpeed, lerp, Rmax, Rmin, Rabs, mergeRotationConfig, or_default,
    defaultRotationConfig in *;
  cbn [speedTransitionRate minSpeed maxSpeed xAxisFactor zAxisFactor
       arg_speedTransitionRate arg_minSpeed arg_maxSpeed arg_xAxisFactor
       arg_zAxisFactor] in *;
  repeat match goal with
         | |- context [Rle_dec ?a ?b] => destruct (Rle_dec a b)
         | |- context [Rlt_dec ?a ?b] => destruct (Rlt_dec a b)
         | |- context [Rcase_abs ?a] => destruct (Rcase_abs a)
         | H : context [Rle_dec ?a ?b] |- _ => destruct (Rle_dec a b)
         | H : context [Rlt_dec ?a ?b] |- _ => destruct (Rlt_dec a b)
         | H : context [Rcase_abs ?a] |- _ => destruct (Rcase_abs a)
         end;
  try lra.

Lemma updateRotation_monotone_no_overshoot_witness :
  let d := setRotationSpeed (DiscoBall_new noConfig) 3 in
  rotationSpeed (updates d [16]) < rotationSpeed (updates d ([16] ++ [16]))
  /\ rotationSpeed (updates d ([16] ++ [16])) <= targetRotationSpeed d.
Proof.
  intros d.
  assert (Hr : 0 <= speedTransitionRate (rotationConfig d)) by (simpl; lra).
  assert (Hall : Forall (fun dt => 0 < dt) ([16] ++ [16]))
    by (repeat constructor; lra).
  destruct (updateRotation_monotone_no_overshoot d [16] [16] Hr Hall)
    as (_ & _ & _ & Hmove).
  apply Hmove.
  - discriminate.
  - simpl. lra.
  - discriminate.
  - simpl. real_cases.
Defined.

(** ** The rotation controller: clamping *)

Lemma clampSpeed_range (c : RotationConfig) (speed : R) :
  minSpeed c <= maxSpeed c ->
  minSpeed c <= clampSpeed c speed <= maxSpeed c.
Proof.
  intros Hb. unfold clampSpeed. split.
  - apply Rmax_l.
  - apply Rmax_lub; [exact Hb | apply Rmin_l].
Qed.

(** C8.  [setRotationSpeed(s)] stores the clamp of [s] to
    [[minSpeed, maxSpeed]] as the target: [minSpeed] when [s] is below it,
    [maxSpeed] when [s] is above it, [s] itself otherwise.  The call is a
    total function (no input is rejected) and it changes the target only:
    the current speed and every other field stay as they were. *)
Theorem setRotationSpeed_clamps (d : DiscoBall) (s : R) :
  minSpeed (rotationConfig d) <= maxSpeed (rotationConfig d) ->
  let d' := setRotationSpeed d s in
  (s < minSpeed (rotationConfig d) ->
   targetRotationSpeed d' = minSpeed (rotationConfig d)) /\
  (maxSpeed (rotationConfig d) < s ->
   targetRotationSpeed d' = maxSpeed (rotationConfig d)) /\
  (minSpeed (rotationConfig d) <= s <= maxSpeed (rotationConfig d) ->
   targetRotationSpeed d' = s) /\
  rotationSpeed d' = rotationSpeed d /\
  d' = mkDiscoBall (config d) (mesh d) (holes d) (rotationSpeed d)
                   (targetRotationSpeed d') (rotationDirection d)
                   (currentRotation d) (rotationConfig d).
Proof.
  intros Hb d'. subst d'. unfold setRotationSpeed; cbn [targetRotationSpeed rotationSpeed].
  repeat split; intros; real_cases.
Qed.

Lemma setRotationSpeed_clamps_witness :
  let d := DiscoBall_new noConfig in
  targetRotationSpeed (setRotationSpeed d 9) = maxSpeed (rotationConfig d).
Proof.
  intros d.
  apply (setRotationSpeed_clamps d 9); simpl; lra.
Defined.

(** ** The rotation controller: the speed invariant *)

Lemma DiscoBall_new_invariant (c : ConfigArg) : speedInvariant (DiscoBall_new c).
Proof. unfold speedInvariant; simpl. lra. Qed.

Lemma DiscoBall_new_rotationConfig (c : ConfigArg) :
  rotationConfig (DiscoBall_new c) = defaultRotationConfig.
Proof. reflexivity. Qed.

Lemma applyOp_invariant (d : DiscoBall) (op : RotationOp) :
  keepsBounds op -> speedInvariant d -> speedInvariant (applyOp d op).
Proof.
  intros Hop (Hb & Hr & Hs & Ht).
  destruct op as [s|s|dir| | |dt|c]; unfold speedInvariant; simpl in *.
  - pose proof (clampSpeed_range (rotationConfig d) s Hb). tauto.
  - pose proof (clampSpeed_range (rotationConfig d) s Hb). tauto.
  - tauto.
  - pose proof (clampSpeed_range (rotationConfig d) 0 Hb). tauto.
  - pose proof (clampSpeed_range (rotationConfig d) 0 Hb). tauto.
  - rewrite updateRotation_config, updateRotation_target.
    repeat split; try tauto.
    + destruct (Rle_dec (rotationSpeed d) (targetRotationSpeed d)) as [Hle|Hgt].
      * pose proof (updateRotation_rises d dt Hr Hop Hle). lra.
      * pose proof (updateRotation_falls d dt Hr Hop). lra.
    + destruct (Rle_dec (rotationSpeed d) (targetRotationSpeed d)) as [Hle|Hgt].
      * pose proof (updateRotation_rises d dt Hr Hop Hle). lra.
      * pose proof (updateRotation_falls d dt Hr Hop). lra.
  - destruct Hop as (Hmin & Hmax & Hrate).
    rewrite Hmin, Hmax; simpl.
    repeat split; try tauto.
    destruct (arg_speedTransitionRate c); simpl in *; assumption.
Qed.

Lemma applyOp_bounds_fixed (d : DiscoBall) (op : RotationOp) :
  keepsBounds op ->
  minSpeed (rotationConfig (applyOp d op)) = minSpeed (rotationConfig d) /\
  maxSpeed (rotationConfig (applyOp d op)) = maxSpeed (rotationConfig d).
Proof.
  intros Hop. destruct op; simpl in *; try tauto.
  - now rewrite updateRotation_config.
  - destruct Hop as (Hmin & Hmax & _). now rewrite Hmin, Hmax.
Qed.

Lemma runOps_invariant (ops : list RotationOp) (d : DiscoBall) :
  Forall keepsBounds ops -> speedInvariant d ->
  speedInvariant (runOps d ops) /\
  minSpeed (rotationConfig (runOps d ops)) = minSpeed (rotationConfig d) /\
  maxSpeed (rotationConfig (runOps d ops)) = maxSpeed (rotationConfig d).
Proof.
  revert d. induction ops as [|op ops IH]; intros d Hall Hinv.
  - split; [exact Hinv | split; reflexivity].
  - inversion Hall as [|? ? Hop Hall']; subst.
    change (runOps d (op :: ops)) with (runOps (applyOp d op) ops).
    destruct (applyOp_bounds_fixed d op Hop) as [Emin Emax].
    destruct (IH (applyOp d op) Hall' (applyOp_invariant d op Hop Hinv))
      as (H1 & H2 & H3).
    split; [exact H1 | split; congruence].
Qed.

(** C6, as the code has it.  Start from a constructed ball and make any
    sequence of calls to [setRotationSpeed], [setRotationSpeedImmediate],
    [setRotationDirection], [stopRotation], [stopRotationImmediate],
    [updateRotation] with an elapsed time that is not negative, and
    [setRotationConfig] with an argument that leaves [minSpeed] and
    [maxSpeed] alone and sets no negative transition rate.  Then
    [minSpeed <= rotationSpeed <= maxSpeed] holds after the sequence, hence
    after each of its prefixes: at all times, the time before the first
    update included. *)
Theorem speed_within_bounds (c : ConfigArg) (ops : list RotationOp) :
  Forall keepsBounds ops ->
  let d := runOps (DiscoBall_new c) ops in
  minSpeed (rotationConfig d) <= rotationSpeed d <= maxSpeed (rotationConfig d).
Proof.
  intros Hall d.
  destruct (runOps_invariant ops (DiscoBall_new c) Hall
              (DiscoBall_new_invariant c)) as ((_ & _ & Hs & _) & _).
  exact Hs.
Qed.

Lemma speed_within_bounds_witness :
  let d := runOps (DiscoBall_new noConfig)
                  [OpUpdate 16; OpSetSpeed 9; OpUpdate 16; OpStop] in
  minSpeed (rotationConfig d) <= rotationSpeed d <= maxSpeed (rotationConfig d).
Proof.
  apply (speed_within_bounds noConfig
           [OpUpdate 16; OpSetSpeed 9; OpUpdate 16; OpStop]).
  repeat constructor; simpl; lra.
Defined.

(** C6 as stated fails: after a first update, raising [minSpeed] above
    the current speed through [setRotationConfig] leaves the speed below
    the new bound, and the next update does not repair it. *)
Lemma speed_within_bounds_counterexample :
  let d := runOps (DiscoBall_new noConfig)
                  [OpUpdate 16; OpSetRotationConfig raiseMinSpeed; OpUpdate 16] in
  rotationSpeed d = 1 /\ minSpeed (rotationConfig d) = 2 /\
  ~ (minSpeed (rotationConfig d) <= rotationSpeed d <= maxSpeed (rotationConfig d)).
Proof.
  cbv zeta.
  assert (Hs : rotationSpeed
                 (runOps (DiscoBall_new noConfig)
                    [OpUpdate 16; OpSetRotationConfig raiseMinSpeed; OpUpdate 16])
               = 1).
  { simpl. real_cases. }
  assert (Hm : minSpeed (rotationConfig
                 (runOps (DiscoBall_new noConfig)
                    [OpUpdate 16; OpSetRotationConfig raiseMinSpeed; OpUpdate 16]))
               = 2).
  { reflexivity. }
  rewrite Hs, Hm. repeat split. lra.
Qed.

(** With a negative elapsed time the interpolation factor is negative and
    the speed is pushed away from the target, out of the bounds. *)
Lemma negative_deltaTime_leaves_bounds :
  let d := runOps (DiscoBall_new noConfig) [OpSetSpeed 5; OpUpdate (-1000000)] in
  rotationSpeed d < minSpeed (rotationConfig d).
Proof.
  cbv zeta. simpl. real_cases.
Qed.

(** So does a negative transition rate. *)
Lemma negative_rate_leaves_bounds :
  let d := runOps (DiscoBall_new noConfig)
                  [OpSetRotationConfig negativeRate; OpSetSpeed 5; OpUpdate 1000] in
  rotationSpeed d < minSpeed (rotationConfig d).
Proof.
  cbv zeta. unfold negativeRate. simpl. real_cases.
Qed.

(** ** The rotation controller: stopping *)

Lemma updates_stay_above (dts : list R) (d : DiscoBall) :
  targetRotationSpeed d <= rotationSpeed d ->
  targetRotationSpeed d <= rotationSpeed (updates d dts).
Proof.
  revert d. induction dts as [|dt dts IH]; intros d Hle; [exact Hle|].
  change (updates d (dt :: dts)) with (updates (updateRotation d dt) dts).
  rewrite <- (updateRotation_target d dt). apply IH.
  rewrite updateRotation_target, updateRotation_speed.
  destruct (mesh d); [|exact Hle].
  now apply updateRotationSpeed_stays_above.
Qed.

(** C10.  Take a ball whose speed bounds are the constructed ones
    ([minSpeed = 0.1], [maxSpeed = 5]), in any state reached through calls
    that keep them.  After [stopRotation()] the target equals [minSpeed],
    which is [0.1 > 0]; and after any further sequence of
    [updateRotation] calls the speed is still at least [0.1], so it is
    never zero: the rotation does not stop. *)
Theorem stopRotation_never_stops
    (c : ConfigArg) (ops : list RotationOp) (dts : list R) :
  Forall keepsBounds ops ->
  let d := stopRotation (runOps (DiscoBall_new c) ops) in
  targetRotationSpeed d = minSpeed (rotationConfig d) /\
  minSpeed (rotationConfig d) = 0.1 /\
  0 < minSpeed (rotationConfig d) /\
  0.1 <= rotationSpeed (updates d dts) /\
  rotationSpeed (updates d dts) <> 0.
Proof.
  intros Hall d.
  destruct (runOps_invariant ops (DiscoBall_new c) Hall
              (DiscoBall_new_invariant c)) as ((Hb & _ & Hs & _) & Emin & Emax).
  rewrite DiscoBall_new_rotationConfig in Emin, Emax.
  cbn [minSpeed maxSpeed defaultRotationConfig] in Emin, Emax.
  set (b := runOps (DiscoBall_new c) ops) in *.
  assert (Hmin : minSpeed (rotationConfig d) = 0.1) by exact Emin.
  assert (Ht : targetRotationSpeed d = 0.1).
  { subst d. unfold stopRotation, setRotationSpeed; cbn [targetRotationSpeed].
    unfold clampSpeed. rewrite Emin, Emax. real_cases. }
  assert (Hge : targetRotationSpeed d <= rotationSpeed d).
  { rewrite Ht. subst d. unfold stopRotation, setRotationSpeed;
      cbn [rotationSpeed]. lra. }
  pose proof (updates_stay_above dts d Hge) as Hlow.
  rewrite Ht in Hlow. rewrite Hmin, Ht.
  repeat split; lra.
Qed.

Lemma stopRotation_never_stops_witness :
  let d := stopRotation (runOps (DiscoBall_new noConfig) [OpSetSpeed 3; OpUpdate 16]) in
  targetRotationSpeed d = minSpeed (rotationConfig d) /\
  minSpeed (rotationConfig d) = 0.1 /\
  0 < minSpeed (rotationConfig d) /\
  0.1 <= rotationSpeed (updates d [16; 16; 1000000]) /\
  rotationSpeed (updates d [16; 16; 1000000]) <> 0.
Proof.
  apply (stopRotation_never_stops noConfig [OpSetSpeed 3; OpUpdate 16]
           [16; 16; 1000000]).
  repeat constructor; simpl; lra.
Defined.

(** ** The rotation controller: the three angles *)

Lemma updateRotationSpeed_settled (d : DiscoBall) (dt : R) :
  rotationSpeed d = targetRotationSpeed d ->
  rotationSpeed (updateRotationSpeed d dt) = rotationSpeed d.
Proof.
  intros E. unfold updateRotationSpeed; cbn [rotationSpeed].
  rewrite E. destruct (Rlt_dec _ _) as [H|_]; [|reflexivity].
  exfalso. revert H. unfold Rminus. rewrite Rplus_opp_r, Rabs_R0. lra.
Qed.

(** C4, as the code has it.  On a ball that has its mesh, each
    [updateRotation(deltaTime)] call computes
    [rotationDelta = rotationSpeed * rotationDirection * deltaTime * 0.001]
    from the smoothed speed, adds it to the yaw, adds
    [sin(yaw * 2) * zAxisFactor * rotationDelta] (with the yaw just
    updated) to the roll kept in [currentRotation], and applies the
    accumulated angles to the mesh.  The increment of the roll in one call
    is at most [|zAxisFactor * rotationDelta|] in magnitude. *)
Theorem updateRotation_roll_increment (d : DiscoBall) (m : Mesh) (deltaTime : R) :
  mesh d = Some m ->
  let d' := updateRotation d deltaTime in
  let delta := rotationDelta d deltaTime in
  delta = rotationSpeed d' * rotationDirection d' * deltaTime * 0.001 /\
  vy (currentRotation d') = vy (currentRotation d) + delta /\
  vx (currentRotation d')
    = vx (currentRotation d) + delta * xAxisFactor (rotationConfig d) /\
  vz (currentRotation d')
    = vz (currentRotation d)
      + sin (vy (currentRotation d') * 2) * zAxisFactor (rotationConfig d) * delta /\
  option_map rotation (mesh d') = Some (currentRotation d') /\
  Rabs (vz (currentRotation d') - vz (currentRotation d))
    <= Rabs (zAxisFactor (rotationConfig d) * delta).
Proof.
  intros Hm d' delta. subst d' delta.
  unfold updateRotation, rotationDelta. rewrite Hm.
  cbn [rotationSpeed rotationDirection currentRotation rotationConfig mesh
       vx vy vz option_map rotation Mesh_rotation_set].
  change (rotationDirection (updateRotationSpeed d deltaTime))
    with (rotationDirection d).
  change (currentRotation (updateRotationSpeed d deltaTime))
    with (currentRotation d).
  change (rotationConfig (updateRotationSpeed d deltaTime))
    with (rotationConfig d).
  repeat split.
  set (delta := rotationSpeed (updateRotationSpeed d deltaTime)
                * rotationDirection d * deltaTime * 0.001).
  set (a := sin ((vy (currentRotation d) + delta) * 2)).
  replace (vz (currentRotation d) + a * zAxisFactor (rotationConfig d) * delta
           - vz (currentRotation d))
    with (a * (zAxisFactor (rotationConfig d) * delta)) by ring.
  rewrite Rabs_mult.
  assert (Ha : Rabs a <= 1).
  { apply Rabs_le. subst a. apply SIN_bound. }
  pose proof (Rabs_pos (zAxisFactor (rotationConfig d) * delta)). nra.
Qed.

Lemma updateRotation_roll_increment_witness :
  let d := DiscoBall_new noConfig in
  vy (currentRotation (updateRotation d 16))
  = vy (currentRotation d) + rotationDelta d 16.
Proof.
  intros d.
  apply (updateRotation_roll_increment d
           (Mesh_position_set Mesh_new (mkVector3 0 0 0)) 16).
  reflexivity.
Defined.

(** A settled ball (speed equal to its target) keeps its speed; one frame
    then only advances the angles. *)
Lemma settled_frame (d : DiscoBall) (m : Mesh) (dt : R) :
  mesh d = Some m ->
  rotationSpeed d = targetRotationSpeed d ->
  let d' := updateRotation d dt in
  let delta := rotationSpeed d * rotationDirection d * dt * 0.001 in
  mesh d' = Some (Mesh_rotation_set m (currentRotation d')) /\
  rotationSpeed d' = rotationSpeed d /\
  targetRotationSpeed d' = targetRotationSpeed d /\
  rotationDirection d' = rotationDirection d /\
  rotationConfig d' = rotationConfig d /\
  rotationDelta d dt = delta /\
  vy (currentRotation d') = vy (currentRotation d) + delta /\
  vz (currentRotation d')
  = vz (currentRotation d)
    + sin ((vy (currentRotation d) + delta) * 2)
      * zAxisFactor (rotationConfig d) * delta.
Proof.
  intros Hm E d' delta. subst d' delta.
  unfold rotationDelta, updateRotation. rewrite Hm.
  cbn [rotationSpeed rotationDirection currentRotation rotationConfig mesh
       targetRotationSpeed vx vy vz].
  change (rotationDirection (updateRotationSpeed d dt))
    with (rotationDirection d).
  change (currentRotation (updateRotationSpeed d dt))
    with (currentRotation d).
  change (rotationConfig (updateRotationSpeed d dt))
    with (rotationConfig d).
  change (targetRotationSpeed (updateRotationSpeed d dt))
    with (targetRotationSpeed d).
  rewrite (updateRotationSpeed_settled d dt E).
  repeat split.
Qed.

(** A first frame of [250 * PI] milliseconds. *)
Lemma first_frame_onCrest :
  onCrest 0 (updateRotation (DiscoBall_new noConfig) (250 * PI)).
Proof.
  destruct (settled_frame (DiscoBall_new noConfig)
              (Mesh_position_set Mesh_new (mkVector3 0 0 0)) (250 * PI)
              eq_refl eq_refl)
    as (Hm & Hs & Ht & Hd & Hc & _ & Hy & Hz).
  change (rotationSpeed (DiscoBall_new noConfig)) with 1.0 in *.
  change (targetRotationSpeed (DiscoBall_new noConfig)) with 1.0 in *.
  change (rotationDirection (DiscoBall_new noConfig)) with 1 in *.
  change (rotationConfig (DiscoBall_new noConfig))
    with defaultRotationConfig in *.
  change (currentRotation (DiscoBall_new noConfig))
    with (mkVector3 0 0 0) in *.
  cbn [vy vz zAxisFactor defaultRotationConfig] in Hy, Hz.
  replace ((0 + 1.0 * 1 * (250 * PI) * 0.001) * 2) with (PI / 2) in Hz by lra.
  rewrite sin_PI2 in Hz.
  unfold onCrest. rewrite Hm, Hs, Ht, Hd, Hc, Hy, Hz.
  cbn [INR]. repeat split; try lra.
  eexists. split; reflexivity.
Qed.

(** A frame of [1000 * PI] milliseconds from a crest: the yaw advances by
    [PI], [sin (yaw * 2)] is one again, and the roll grows by [0.05 * PI]. *)
Lemma crest_frame (j : nat) (d : DiscoBall) :
  onCrest j d ->
  onCrest (S j) (updateRotation d (1000 * PI)) /\
  rotationDelta d (1000 * PI) = PI /\
  sin (vy (currentRotation (updateRotation d (1000 * PI))) * 2) = 1.
Proof.
  intros ((m & Hm & _) & Hs & Ht & Hd & Hc & Hy & Hz).
  destruct (settled_frame d m (1000 * PI) Hm (eq_trans Hs (eq_sym Ht)))
    as (Hm' & Hs' & Ht' & Hd' & Hc' & HD & Hy' & Hz').
  rewrite Hs, Hd in HD, Hy', Hz'. rewrite Hc in Hz'.
  cbn [zAxisFactor defaultRotationConfig] in Hz'.
  assert (Hsin : sin ((vy (currentRotation d) + 1 * 1 * (1000 * PI) * 0.001) * 2)
                 = 1).
  { rewrite Hy.
    replace ((PI / 4 + INR j * PI + 1 * 1 * (1000 * PI) * 0.001) * 2)
      with (PI / 2 + 2 * INR (S j) * PI) by (rewrite S_INR; nra).
    rewrite sin_period. apply sin_PI2. }
  rewrite Hsin in Hz'.
  split; [|split].
  - unfold onCrest. rewrite Hm', Hs', Ht', Hd', Hc', Hy', Hz', Hs, Ht, Hd, Hc, Hy, Hz.
    rewrite S_INR. repeat split; try lra.
    eexists. split; reflexivity.
  - rewrite HD. lra.
  - rewrite Hy'. exact Hsin.
Qed.

Lemma crest_frames (k j : nat) (d : DiscoBall) :
  onCrest j d -> onCrest (k + j) (updates d (repeat (1000 * PI) k)).
Proof.
  revert j d. induction k as [|k IH]; intros j d H; [exact H|].
  change (updates d (repeat (1000 * PI) (S k)))
    with (updates (updateRotation d (1000 * PI)) (repeat (1000 * PI) k)).
  replace (S k + j)%nat with (k + S j)%nat by lia.
  apply IH. now apply crest_frame.
Qed.

(** The roll kept and applied by [updateRotation] is not bounded: whatever
    the bound, some sequence of frames with positive elapsed times takes
    the roll of a freshly constructed ball beyond it. *)
Lemma roll_unbounded (bound : R) :
  exists dts : list R,
    Forall (fun dt => 0 < dt) dts /\
    bound < vz (currentRotation (updates (DiscoBall_new noConfig) dts)).
Proof.
  destruct (INR_unbounded (bound / (0.05 * PI))) as [k Hk].
  exists (250 * PI :: repeat (1000 * PI) k). split.
  - pose proof PI_RGT_0. constructor; [lra|].
    apply Forall_forall. intros x Hx. apply repeat_spec in Hx. lra.
  - change (updates (DiscoBall_new noConfig) (250 * PI :: repeat (1000 * PI) k))
      with (updates (updateRotation (DiscoBall_new noConfig) (250 * PI))
                    (repeat (1000 * PI) k)).
    destruct (crest_frames k 0 _ first_frame_onCrest)
      as (_ & _ & _ & _ & _ & _ & Hz).
    rewrite Hz, Nat.add_0_r.
    pose proof PI_RGT_0 as Hpi.
    assert (Hpos : 0 < 0.05 * PI) by lra.
    apply (Rmult_lt_compat_r (0.05 * PI)) in Hk; [|exact Hpos].
    unfold Rdiv in Hk. rewrite Rmult_assoc, Rinv_l in Hk by lra.
    lra.
Qed.

(** C4 as stated fails: a frame of [250 * PI] milliseconds followed by one
    of [1000 * PI] milliseconds on a freshly constructed ball.  For the
    second frame [sin (yaw * 2) * zAxisFactor * rotationDelta] is
    [0.05 * PI], while the roll applied to the mesh is the sum over both
    frames, [0.05 * (PI / 4) + 0.05 * PI]. *)
Lemma roll_is_accumulated_counterexample :
  let d1 := updateRotation (DiscoBall_new noConfig) (250 * PI) in
  let d2 := updateRotation d1 (1000 * PI) in
  option_map (fun m => vz (rotation m)) (mesh d2)
  = Some (0.05 * (PI / 4) + 0.05 * PI) /\
  sin (vy (currentRotation d2) * 2) * zAxisFactor (rotationConfig d2)
    * rotationDelta d1 (1000 * PI) = 0.05 * PI /\
  option_map (fun m => vz (rotation m)) (mesh d2)
  <> Some (sin (vy (currentRotation d2) * 2) * zAxisFactor (rotationConfig d2)
           * rotationDelta d1 (1000 * PI)).
Proof.
  intros d1 d2.
  destruct (crest_frame 0 d1 first_frame_onCrest)
    as (((m & Hm & Hrot) & _ & _ & _ & Hc & _ & Hz) & HD & Hsin).
  fold d2 in Hm, Hrot, Hc, Hz, Hsin.
  rewrite Hm, HD, Hsin, Hc. cbn [option_map].
  rewrite Hrot, Hz. cbn [INR zAxisFactor defaultRotationConfig].
  pose proof PI_RGT_0.
  split; [f_equal; lra|]. split; [lra|].
  intros E. injection E as E. lra.
Qed.

(** ** Rotations by quaternion *)

(** [applyQuaternion] changes the squared length of a vector by a multiple
    of the defect of the quaternion's own squared length from one. *)
Lemma applyQuaternion_dot (v : Vector3) (q : Quaternion) :
  dot (applyQuaternion v q) (applyQuaternion v q)
  = dot v v
    + 4 * ((qy q * vz v - qz q * vy v) * (qy q * vz v - qz q * vy v)
           + (qz q * vx v - qx q * vz v) * (qz q * vx v - qx q * vz v)
           + (qx q * vy v - qy q * vx v) * (qx q * vy v - qy q * vx v))
      * (qx q * qx q + qy q * qy q + qz q * qz q + qw q * qw q - 1).
Proof.
  destruct v as [a b c], q as [x y z w].
  unfold applyQuaternion, dot; cbn [vx vy vz qx qy qz qw]. ring.
Qed.

(** A unit quaternion takes unit vectors to unit vectors. *)
Lemma applyQuaternion_unit (v : Vector3) (q : Quaternion) :
  qx q * qx q + qy q * qy q + qz q * qz q + qw q * qw q = 1 ->
  dot v v = 1 ->
  dot (applyQuaternion v q) (applyQuaternion v q) = 1.
Proof.
  intros Hq Hv. rewrite applyQuaternion_dot, Hq, Hv. ring.
Qed.

(** [setFromUnitVectors] from the up axis gives a rotation that takes the
    up axis onto the target, for every unit target that is not within
    [Number.EPSILON] of straight down. *)
Lemma setFromUnitVectors_up_maps_up (v : Vector3) :
  vx v * vx v + vy v * vy v + vz v * vz v = 1 ->
  EPSILON <= vy v + 1 ->
  applyQuaternion (mkVector3 0 1 0) (setFromUnitVectors (mkVector3 0 1 0) v) = v.
Proof.
  intros Hunit Heps.
  assert (Hepos : 0 < EPSILON).
  { unfold EPSILON. apply Rinv_0_lt_compat. apply pow_lt. lra. }
  unfold setFromUnitVectors, dot. cbn [vx vy vz].
  destruct (Rlt_dec (0 * vx v + 1 * vy v + 0 * vz v + 1) EPSILON) as [Hlt|_];
    [lra|].
  unfold Quaternion_normalize, Quaternion_length. cbn [qx qy qz qw].
  set (r := 0 * vx v + 1 * vy v + 0 * vz v + 1).
  set (n2 := (1 * vz v - 0 * vy v) * (1 * vz v - 0 * vy v)
             + (0 * vx v - 0 * vz v) * (0 * vx v - 0 * vz v)
             + (0 * vy v - 1 * vx v) * (0 * vy v - 1 * vx v) + r * r).
  assert (Hn2 : n2 = 2 * r) by (subst n2 r; nra).
  assert (Hr : 0 < r) by (subst r; lra).
  assert (Hl : sqrt n2 * sqrt n2 = 2 * r).
  { rewrite sqrt_sqrt; lra. }
  assert (Hlpos : 0 < sqrt n2) by (apply sqrt_lt_R0; lra).
  destruct (Req_dec_T (sqrt n2) 0) as [E|_]; [lra|].
  unfold applyQuaternion. cbn [qx qy qz qw vx vy vz].
  set (k := 1 / sqrt n2).
  assert (Hk : k * k * (2 * r) = 1).
  { subst k. rewrite <- Hl. field. lra. }
  destruct v as [a b c]. cbn [vx vy vz] in *.
  assert (Hk' : k * k * (2 * (b + 1)) = 1).
  { replace (2 * (b + 1)) with (2 * r) by (subst r; ring). exact Hk. }
  assert (Hac : a * a + c * c = (1 - b) * (b + 1)).
  { ring_simplify. lra. }
  subst r. f_equal.
  - transitivity (a * (k * k * (2 * (b + 1)))); [ring | rewrite Hk'; ring].
  - transitivity (1 - (a * a + c * c) * (k * k * 2)); [ring|].
    rewrite Hac.
    transitivity (1 - (1 - b) * (k * k * (2 * (b + 1)))); [ring|].
    rewrite Hk'. ring.
  - transitivity (c * (k * k * (2 * (b + 1)))); [ring | rewrite Hk'; ring].
Qed.

(** Straight down is reached by the half turn about the z axis. *)
Lemma setFromUnitVectors_up_straight_down :
  applyQuaternion (mkVector3 0 1 0)
    (setFromUnitVectors (mkVector3 0 1 0) (mkVector3 0 (-1) 0))
  = mkVector3 0 (-1) 0.
Proof.
  assert (Hepos : 0 < EPSILON).
  { unfold EPSILON. apply Rinv_0_lt_compat. apply pow_lt. lra. }
  unfold setFromUnitVectors, dot. cbn [vx vy vz].
  destruct (Rlt_dec (0 * 0 + 1 * -1 + 0 * 0 + 1) EPSILON) as [_|n]; [|lra].
  destruct (Rlt_dec (Rabs 0) (Rabs 0)) as [Hlt|_]; [lra|].
  unfold Quaternion_normalize, Quaternion_length. cbn [qx qy qz qw].
  replace (0 * 0 + - 0 * - 0 + 1 * 1 + 0 * 0) with 1 by ring.
  rewrite sqrt_1.
  destruct (Req_dec_T 1 0) as [E|_]; [lra|].
  unfold applyQuaternion. cbn [qx qy qz qw vx vy vz]. f_equal; lra.
Qed.

Lemma oneHole_direction : direction (makeHole 1 2 0) = mkVector3 1 0 0.
Proof.
  unfold makeHole; cbn [direction INR]. rewrite clone_id.
  replace (1 - 2 * (0 + 0.5) / 1) with 0 by lra.
  replace (2 * PI * 0 / goldenRatio) with 0 by (unfold Rdiv; ring).
  rewrite acos_0, sin_PI2, cos_PI2, cos_0, sin_0. f_equal; ring.
Qed.

Lemma oneHole_position : hole_position (makeHole 1 2 0) = mkVector3 2 0 0.
Proof.
  pose proof oneHole_direction as H. unfold makeHole in *.
  cbn [direction hole_position] in *. rewrite H.
  unfold multiplyScalar; cbn [vx vy vz]. f_equal; ring.
Qed.

(** A unit quaternion keeps scalar products, hence lengths and angles. *)
Lemma applyQuaternion_dot_two (u v : Vector3) (q : Quaternion) :
  Quaternion_lengthSq q = 1 ->
  dot (applyQuaternion u q) (applyQuaternion v q) = dot u v.
Proof.
  destruct u as [a b c], v as [a' b' c'], q as [x y z w].
  unfold Quaternion_lengthSq, applyQuaternion, dot;
    cbn [vx vy vz qx qy qz qw]. intros Hq.
  transitivity
    (a * a' + b * b' + c * c'
     + 4 * ((y * c - z * b) * (y * c' - z * b')
            + (z * a - x * c) * (z * a' - x * c')
            + (x * b - y * a) * (x * b' - y * a'))
       * (x * x + y * y + z * z + w * w - 1)); [ring|].
  rewrite Hq. ring.
Qed.

(** The quaternion that [setFromUnitVectors] builds from the up axis to a
    unit vector [(a, b, c)] that is not within [Number.EPSILON] of
    straight down: [(c, 0, -a, b + 1)] scaled to length one. *)
Lemma setFromUnitVectors_up_value (v : Vector3) :
  dot v v = 1 ->
  EPSILON <= vy v + 1 ->
  exists k : R,
    0 < k /\ k * k * (2 * (vy v + 1)) = 1 /\
    setFromUnitVectors (mkVector3 0 1 0) v
    = mkQuaternion (vz v * k) 0 (- vx v * k) ((vy v + 1) * k).
Proof.
  intros Hunit Heps.
  assert (Hepos : 0 < EPSILON).
  { unfold EPSILON. apply Rinv_0_lt_compat. apply pow_lt. lra. }
  destruct v as [a b c]. unfold dot in Hunit. cbn [vx vy vz] in *.
  unfold setFromUnitVectors, dot. cbn [vx vy vz].
  destruct (Rlt_dec (0 * a + 1 * b + 0 * c + 1) EPSILON) as [Hlt|_]; [lra|].
  unfold Quaternion_normalize, Quaternion_length. cbn [qx qy qz qw].
  set (n2 := (1 * c - 0 * b) * (1 * c - 0 * b)
             + (0 * a - 0 * c) * (0 * a - 0 * c)
             + (0 * b - 1 * a) * (0 * b - 1 * a)
             + (0 * a + 1 * b + 0 * c + 1) * (0 * a + 1 * b + 0 * c + 1)).
  assert (Hn2 : n2 = 2 * (b + 1)) by (subst n2; nra).
  assert (Hl : sqrt n2 * sqrt n2 = 2 * (b + 1)) by (rewrite sqrt_sqrt; lra).
  assert (Hlpos : 0 < sqrt n2) by (apply sqrt_lt_R0; lra).
  destruct (Req_dec_T (sqrt n2) 0) as [E|_]; [lra|].
  exists (1 / sqrt n2). split; [|split].
  - apply Rdiv_lt_0_compat; lra.
  - rewrite <- Hl. field. lra.
  - f_equal; ring.
Qed.

(** That quaternion is the shortest-arc rotation from the up axis onto
    the vector. *)
Lemma setFromUnitVectors_up_shortestArc (v : Vector3) :
  dot v v = 1 ->
  EPSILON <= vy v + 1 ->
  shortestArc (mkVector3 0 1 0) v (setFromUnitVectors (mkVector3 0 1 0) v).
Proof.
  intros Hunit Heps.
  destruct (setFromUnitVectors_up_value v Hunit Heps) as (k & Hk & Hkk & E).
  pose proof (setFromUnitVectors_up_maps_up v) as Hmap.
  rewrite E in *. clear E.
  destruct v as [a b c]. unfold dot in Hunit. cbn [vx vy vz] in *.
  unfold shortestArc, Quaternion_lengthSq, dot. cbn [qx qy qz qw vx vy vz].
  assert (Hac : a * a + c * c = (1 - b) * (b + 1)) by (ring_simplify; lra).
  assert (Hepos : 0 < EPSILON).
  { unfold EPSILON. apply Rinv_0_lt_compat. apply pow_lt. lra. }
  repeat split.
  - transitivity (k * k * (a * a + c * c + (b + 1) * (b + 1))); [ring|].
    rewrite Hac.
    transitivity (k * k * (2 * (b + 1))); [ring | exact Hkk].
  - apply Rmult_le_pos; lra.
  - ring.
  - ring.
  - transitivity ((b + 1) * (k * k * (2 * (b + 1))) - 1); [ring|].
    rewrite Hkk. ring.
  - apply Hmap; [lra | exact Heps].
Qed.

(** No other quaternion is: the shortest-arc rotation from the up axis
    onto a unit vector other than straight down is unique. *)
Lemma shortestArc_up_unique (v : Vector3) (q : Quaternion) :
  dot v v = 1 ->
  EPSILON <= vy v + 1 ->
  shortestArc (mkVector3 0 1 0) v q ->
  q = setFromUnitVectors (mkVector3 0 1 0) v.
Proof.
  intros Hunit Heps (Hq & Hw & Hup & Hv & Hcos & Hmap).
  destruct (setFromUnitVectors_up_value v Hunit Heps) as (k & Hk & Hkk & E).
  rewrite E. clear E.
  assert (Hepos : 0 < EPSILON).
  { unfold EPSILON. apply Rinv_0_lt_compat. apply pow_lt. lra. }
  destruct v as [a b c], q as [x y z w].
  unfold Quaternion_lengthSq, dot, applyQuaternion in *.
  cbn [vx vy vz qx qy qz qw] in *.
  assert (Hy : y = 0) by lra. subst y.
  injection Hmap as Ha Hb Hc.
  assert (Hww : 2 * (w * w) = b + 1) by lra.
  assert (Hone : 2 * w * k = 1).
  { assert (Hsq : (2 * w * k) * (2 * w * k) = 1).
    { transitivity (k * k * (2 * (2 * (w * w)))); [ring|].
      rewrite Hww. exact Hkk. }
    assert (Hnn : 0 <= 2 * w * k) by (apply Rmult_le_pos; lra).
    nra. }
  f_equal.
  - rewrite <- Hc. transitivity (x * (2 * w * k)); [rewrite Hone; ring | ring].
  - rewrite <- Ha. transitivity (z * (2 * w * k)); [rewrite Hone; ring | ring].
  - rewrite <- Hww. transitivity (w * (2 * w * k)); [rewrite Hone; ring | ring].
Qed.

(** Within [Number.EPSILON] of straight down, [setFromUnitVectors] from
    the up axis gives the half turn about the z axis, whatever the
    vector. *)
Lemma setFromUnitVectors_up_near_down (v : Vector3) :
  vy v + 1 < EPSILON ->
  setFromUnitVectors (mkVector3 0 1 0) v = mkQuaternion 0 0 1 0.
Proof.
  intros Hlt. unfold setFromUnitVectors, dot. cbn [vx vy vz].
  destruct (Rlt_dec (0 * vx v + 1 * vy v + 0 * vz v + 1) EPSILON) as [_|n];
    [|lra].
  destruct (Rlt_dec (Rabs 0) (Rabs 0)) as [H|_]; [lra|].
  unfold Quaternion_normalize, Quaternion_length. cbn [qx qy qz qw].
  replace (0 * 0 + - 0 * - 0 + 1 * 1 + 0 * 0) with 1 by ring.
  rewrite sqrt_1.
  destruct (Req_dec_T 1 0) as [E|_]; [lra|]. f_equal; lra.
Qed.

(** The half turn about the z axis is a shortest-arc rotation from the
    up axis onto straight down. *)
Lemma half_turn_shortestArc :
  shortestArc (mkVector3 0 1 0) (mkVector3 0 (-1) 0) (mkQuaternion 0 0 1 0).
Proof.
  unfold shortestArc, Quaternion_lengthSq, dot, applyQuaternion.
  cbn [qx qy qz qw vx vy vz].
  repeat split; try lra. f_equal; lra.
Qed.

(** A half turn is a shortest arc between opposite vectors only. *)
Lemma shortestArc_half_turn_opposite (vFrom vTo : Vector3) (q : Quaternion) :
  shortestArc vFrom vTo q -> qw q = 0 -> dot vFrom vTo = -1.
Proof. intros (_ & _ & _ & _ & Hcos & _) Hw. rewrite Hw in Hcos. lra. Qed.

(** A unit vector within [Number.EPSILON] of straight down, measured as
    [setFromUnitVectors] measures it, is at a squared distance below
    [2 * Number.EPSILON] from straight down. *)
Lemma near_down_distance (v : Vector3) :
  dot v v = 1 ->
  vy v + 1 < EPSILON ->
  vx v * vx v + (vy v + 1) * (vy v + 1) + vz v * vz v < 2 * EPSILON.
Proof.
  destruct v as [a b c]. unfold dot. cbn [vx vy vz]. intros Hunit Hlt. nra.
Qed.

(** The quaternion that three.js derives from Euler angles has length
    one, so the orientation of a mesh turned by [mesh.rotation.set] is a
    rotation; [updateRotation] turns the ball in no other way. *)
Lemma setFromEuler_unit (e : Vector3) :
  Quaternion_lengthSq (setFromEuler e) = 1.
Proof.
  unfold setFromEuler, Quaternion_lengthSq. cbn [qx qy qz qw].
  pose proof (sin2_cos2 (vx e / 2)) as H1.
  pose proof (sin2_cos2 (vy e / 2)) as H2.
  pose proof (sin2_cos2 (vz e / 2)) as H3.
  unfold Rsqr in *.
  set (c1 := cos (vx e / 2)) in *. set (s1 := sin (vx e / 2)) in *.
  set (c2 := cos (vy e / 2)) in *. set (s2 := sin (vy e / 2)) in *.
  set (c3 := cos (vz e / 2)) in *. set (s3 := sin (vz e / 2)) in *.
  transitivity ((s1 * s1 + c1 * c1) * (s2 * s2 + c2 * c2)
                * (s3 * s3 + c3 * c3)); [ring|].
  rewrite H1, H2, H3. ring.
Qed.

Lemma updateRotation_orientation_unit (d : DiscoBall) (m : Mesh) (dt : R) :
  mesh d = Some m ->
  exists m', mesh (updateRotation d dt) = Some m' /\
             Quaternion_lengthSq (quaternion m') = 1.
Proof.
  intros Hm. unfold updateRotation. rewrite Hm. cbn [mesh].
  eexists. split; [reflexivity|].
  unfold Mesh_rotation_set. cbn [quaternion]. apply setFromEuler_unit.
Qed.

(** The half turn about the z axis as Euler angles. *)
Lemma setFromEuler_half_turn_z :
  setFromEuler (mkVector3 0 0 PI) = mkQuaternion 0 0 1 0.
Proof.
  unfold setFromEuler. cbn [vx vy vz].
  replace (0 / 2) with 0 by lra.
  rewrite cos_0, sin_0, cos_PI2, sin_PI2. f_equal; ring.
Qed.

(** ** The beam system: colour mode *)

Module LightBeamSystemFacts.

Import LightBeamSystem.

(** C9.  [setColorMode(m)] with [m] outside [rainbow], [random], [white]
    returns the system as it was: the stored mode and every other field
    are unchanged, and the call is a total function (nothing is raised).
    With [m] one of the three, [m] becomes the stored mode and nothing
    else changes. *)
Theorem setColorMode_validates (s : LightBeamSystem.t) (m : string) :
  (~ In m ["rainbow"; "random"; "white"]%string ->
   setColorMode s m = s /\
   colorMode (getConfig (setColorMode s m)) = colorMode (getConfig s)) /\
  (In m ["rainbow"; "random"; "white"]%string ->
   colorMode (getConfig (setColorMode s m)) = m /\
   setColorMode s m
   = mkLightBeamSystem
       (LightBeamSystem.mkConfig
          (beamLength (LightBeamSystem.config s))
          (beamOpacity (LightBeamSystem.config s))
          (beamIntensity (LightBeamSystem.config s))
          m
          (animationSpeed (LightBeamSystem.config s)))
       (beams s) (colorTime s)).
Proof.
  unfold setColorMode, getConfig.
  destruct (existsb (String.eqb m) ["rainbow"; "random"; "white"]%string)
    eqn:E.
  - apply existsb_exists in E as (x & Hin & Hx).
    apply String.eqb_eq in Hx. subst x.
    split; [intros Hn; contradiction | intros _; split; reflexivity].
  - split; [intros _; split; reflexivity|].
    intros Hin. exfalso.
    assert (existsb (String.eqb m) ["rainbow"; "random"; "white"]%string = true)
      as E' by (apply existsb_exists; exists m; split;
                [exact Hin | apply String.eqb_refl]).
    congruence.
Qed.

(** ** The beam system: following the ball *)

Lemma sync_loop_nth (discoBallMesh : Mesh) (hs : list Hole)
    (bs : list Beam) (start i : nat) (beam : Beam) :
  nth_error bs i = Some beam ->
  nth_error (sync_loop discoBallMesh hs start bs) i
  = Some (sync_beam discoBallMesh hs (start + i) beam).
Proof.
  revert start i. induction bs as [|b bs IH]; intros start i H.
  - destruct i; discriminate.
  - destruct i as [|i]; simpl in *.
    + injection H as ->. now rewrite Nat.add_0_r.
    + rewrite (IH (S start) i H). f_equal. f_equal. lia.
Qed.

Lemma sync_loop_length (discoBallMesh : Mesh) (hs : list Hole)
    (bs : list Beam) (start : nat) :
  List.length (sync_loop discoBallMesh hs start bs) = List.length bs.
Proof.
  revert start. induction bs as [|b bs IH]; intros start; simpl;
    [reflexivity | now rewrite IH].
Qed.

(** C2.  Let the ball have a mesh with orientation [Q] and position [P],
    whatever they are, and let beam [i] have an aperture [i] in the
    ball's list.  After [syncWithDiscoBall()] the mesh of beam [i] is
    placed at [Q] applied to the aperture's position plus [P], component
    by component, and carries the quaternion [q] that
    [setFromUnitVectors] builds from the up axis [(0, 1, 0)] to the world
    direction, [Q] applied to the aperture's direction, with the Euler
    angles three.js derives from [q]; the beam's other fields are
    untouched.

    When [Q] is an orientation (a quaternion of length one), applying it
    keeps lengths and angles: the rotated position is as far from the
    origin as the aperture's position and makes the same angle with the
    world direction.  When the aperture's direction has length one as
    well, so has the world direction, and:
    - if the world direction is not within [Number.EPSILON] of straight
      down, [q] is the shortest-arc rotation from the up axis onto the
      world direction, and the only one;
    - if it is, [q] is the half turn about the z axis, a shortest-arc
      rotation from the up axis onto straight down, and the world
      direction is at a squared distance below [2 * Number.EPSILON] from
      straight down (so [q] takes the up axis exactly onto a world
      direction that is straight down, and to within [2.2e-8] of any
      other one). *)
Theorem syncWithDiscoBall_transforms
    (ball : DiscoBall) (m : Mesh) (s : LightBeamSystem.t)
    (i : nat) (beam : Beam) (h : Hole) :
  getMesh ball = Some m ->
  nth_error (beams s) i = Some beam ->
  nth_error (getHoles ball) i = Some h ->
  let Q := quaternion m in
  let P := position m in
  let rotatedPosition := applyQuaternion (hole_position h) Q in
  let worldPosition :=
    mkVector3 (vx rotatedPosition + vx P) (vy rotatedPosition + vy P)
              (vz rotatedPosition + vz P) in
  let worldDirection := applyQuaternion (direction h) Q in
  let q := setFromUnitVectors (mkVector3 0 1 0) worldDirection in
  nth_error (beams (syncWithDiscoBall (Some ball) s)) i
  = Some (mkBeam (beam_id beam)
            (mkMesh worldPosition (Euler_setFromQuaternion q) q)
            (material beam) (hole beam) (baseColor beam)
            (currentColor beam) (colorOffset beam) (randomColorTarget beam)) /\
  (Quaternion_lengthSq Q = 1 ->
   dot rotatedPosition rotatedPosition
   = dot (hole_position h) (hole_position h) /\
   dot rotatedPosition worldDirection = dot (hole_position h) (direction h) /\
   (dot (direction h) (direction h) = 1 ->
    dot worldDirection worldDirection = 1 /\
    (EPSILON <= vy worldDirection + 1 ->
     shortestArc (mkVector3 0 1 0) worldDirection q /\
     forall q' : Quaternion,
       shortestArc (mkVector3 0 1 0) worldDirection q' -> q' = q) /\
    (vy worldDirection + 1 < EPSILON ->
     q = mkQuaternion 0 0 1 0 /\
     shortestArc (mkVector3 0 1 0) (mkVector3 0 (-1) 0) q /\
     vx worldDirection * vx worldDirection
     + (vy worldDirection + 1) * (vy worldDirection + 1)
     + vz worldDirection * vz worldDirection < 2 * EPSILON))).
Proof.
  intros Hm Hb Hh Q P rotatedPosition worldPosition worldDirection q.
  split.
  - unfold syncWithDiscoBall. rewrite Hm. cbn [beams].
    rewrite (sync_loop_nth m (getHoles ball) (beams s) 0 i beam Hb).
    unfold sync_beam. cbn [Nat.add]. rewrite Hh, !clone_id.
    unfold setRotationFromQuaternion, Mesh_position_set, add.
    cbn [position quaternion]. reflexivity.
  - intros HQ. split; [apply applyQuaternion_dot_two; exact HQ|].
    split; [apply applyQuaternion_dot_two; exact HQ|].
    intros Hd.
    assert (Hwd : dot worldDirection worldDirection = 1).
    { unfold worldDirection. rewrite applyQuaternion_dot_two; assumption. }
    split; [exact Hwd|]. split.
    + intros Heps. split.
      * now apply setFromUnitVectors_up_shortestArc.
      * intros q' Hq'. now apply shortestArc_up_unique.
    + intros Hlt.
      assert (E : q = mkQuaternion 0 0 1 0)
        by (now apply setFromUnitVectors_up_near_down).
      split; [exact E|]. split.
      * rewrite E. apply half_turn_shortestArc.
      * now apply near_down_distance.
Qed.

(** ** The beam system: colours *)

Lemma js_rem_one (a : R) :
  js_rem a 1.0
  = a - (if Rle_dec 0 a then IZR (Zfloor a) else IZR (Zceil a)).
Proof.
  unfold js_rem, Math_floor, Math_ceil.
  replace (a / 1.0) with a by lra.
  destruct (Rle_dec 0 a); lra.
Qed.

Lemma js_rem_one_range (a : R) :
  -1 < js_rem a 1.0 < 1 /\ (0 <= a -> 0 <= js_rem a 1.0).
Proof.
  rewrite js_rem_one.
  pose proof (Zfloor_bound a) as Hf. pose proof (Zceil_bound a) as Hc.
  destruct (Rle_dec 0 a) as [Hpos|Hneg].
  - split; [lra | intros _; lra].
  - assert (Hz : (Zceil a <= 0)%Z).
    { apply Z.lt_succ_r. apply lt_IZR. rewrite succ_IZR. lra. }
    apply IZR_le in Hz. split; [lra | intros; lra].
Qed.

(** [normalizedT] lies in [[0, 1)]. *)
Lemma normalizedT_range (t : R) :
  0 <= js_rem (js_rem t 1.0 + 1.0) 1.0 < 1.
Proof.
  destruct (js_rem_one_range t) as [Ht _].
  destruct (js_rem_one_range (js_rem t 1.0 + 1.0)) as [H1 H2].
  split; [apply H2; lra | lra].
Qed.

(** Both palette indices computed by [getRainbowColor] are in range. *)
Lemma getRainbowColor_indices (t : R) :
  let colorIndex :=
    js_rem (js_rem t 1.0 + 1.0) 1.0 * (INR (List.length rainbowColors) - 1) in
  (Z.to_nat (Zfloor colorIndex) < List.length rainbowColors)%nat /\
  (Z.to_nat (Z.rem (Zceil colorIndex) (Z.of_nat (List.length rainbowColors)))
   < List.length rainbowColors)%nat.
Proof.
  intros colorIndex.
  pose proof (normalizedT_range t) as Hn.
  assert (Hlen : INR (List.length rainbowColors) - 1 = 6) by (simpl; lra).
  assert (Hci : 0 <= colorIndex < 6) by (subst colorIndex; rewrite Hlen; lra).
  pose proof (Zfloor_bound colorIndex) as Hf.
  pose proof (Zceil_bound colorIndex) as Hc.
  assert (Hf0 : (0 <= Zfloor colorIndex)%Z) by (apply Zfloor_lub; simpl; lra).
  assert (Hf6 : (Zfloor colorIndex < 6)%Z) by (apply lt_IZR; lra).
  assert (Hc0 : (0 <= Zceil colorIndex)%Z).
  { apply Z.lt_succ_r, Z.lt_pred_lt_succ. apply lt_IZR.
    unfold Z.pred. rewrite plus_IZR. simpl. lra. }
  assert (Hc6 : (Zceil colorIndex < 7)%Z).
  { apply lt_IZR. lra. }
  change (List.length rainbowColors) with 7%nat.
  change (Z.of_nat 7) with 7%Z.
  rewrite Z.rem_small by lia. lia.
Qed.

Lemma white_is_one : white = mkColor 1 1 1.
Proof.
  unfold white, Color_hex.
  change (Z.land (Z.shiftr 16777215 16) 255) with 255%Z.
  change (Z.land (Z.shiftr 16777215 8) 255) with 255%Z.
  change (Z.land 16777215 255) with 255%Z.
  f_equal; lra.
Qed.

Lemma Color_lerp_same (c : Color) (alpha : R) : Color_lerp c c alpha = c.
Proof. destruct c as [r g b]. unfold Color_lerp; simpl. f_equal; ring. Qed.

(** A mode that is neither [rainbow] nor [random] takes the last branch
    of [updateColors]: the target is white, no random number is drawn,
    and the current colour is still interpolated towards the target. *)
Lemma updateColors_beam_other (mode : string) (time : R) (beam : Beam)
    (g : Random) :
  String.eqb mode "rainbow" = false ->
  String.eqb mode "random" = false ->
  updateColors_beam mode time beam g
  = (let current' := Color_lerp (currentColor beam) white 0.05 in
     mkBeam (beam_id beam) (beam_mesh beam)
            (mkUniforms current' (u_opacity (material beam))
                        (u_intensity (material beam)) (u_time (material beam)))
            (hole beam) (baseColor beam) current' (colorOffset beam)
            (randomColorTarget beam),
     g).
Proof.
  intros H1 H2. unfold updateColors_beam. now rewrite H1, H2.
Qed.

Lemma updateColors_loop_other (mode : string) (time : R) (bs : list Beam)
    (g : Random) :
  String.eqb mode "rainbow" = false ->
  String.eqb mode "random" = false ->
  snd (updateColors_loop mode time bs g) = g /\
  map currentColor (fst (updateColors_loop mode time bs g))
  = map (fun b => Color_lerp (currentColor b) white 0.05) bs /\
  map (fun b => u_color (material b)) (fst (updateColors_loop mode time bs g))
  = map (fun b => Color_lerp (currentColor b) white 0.05) bs.
Proof.
  intros H1 H2. induction bs as [|b bs IH]; [now repeat split|].
  cbn [updateColors_loop]. rewrite (updateColors_beam_other _ _ _ _ H1 H2).
  destruct (updateColors_loop mode time bs g) as [rest g2].
  cbn [fst snd map] in *. destruct IH as (Hg & Hc & Hu).
  cbn [currentColor material u_color]. rewrite Hc, Hu. now repeat split.
Qed.

Lemma updateColors_beam_rainbow (time : R) (beam : Beam) (g : Random) :
  updateColors_beam "rainbow" time beam g
  = (let current' :=
       Color_lerp (currentColor beam)
                  (getRainbowColor (colorOffset beam + time)) 0.05 in
     mkBeam (beam_id beam) (beam_mesh beam)
            (mkUniforms current' (u_opacity (material beam))
                        (u_intensity (material beam)) (u_time (material beam)))
            (hole beam) (baseColor beam) current' (colorOffset beam)
            (randomColorTarget beam),
     g).
Proof. reflexivity. Qed.

Lemma updateColors_loop_rainbow (time : R) (bs : list Beam) (g : Random) :
  snd (updateColors_loop "rainbow" time bs g) = g /\
  map currentColor (fst (updateColors_loop "rainbow" time bs g))
  = map (fun b => Color_lerp (currentColor b)
                    (getRainbowColor (colorOffset b + time)) 0.05) bs.
Proof.
  induction bs as [|b bs IH]; [now split|].
  cbn [updateColors_loop]. rewrite updateColors_beam_rainbow.
  destruct (updateColors_loop "rainbow" time bs g) as [rest g2].
  cbn [fst snd map currentColor] in *. destruct IH as (Hg & Hc).
  rewrite Hc. now split.
Qed.

Lemma sync_loop_currentColor (discoBallMesh : Mesh) (hs : list Hole)
    (bs : list Beam) (start : nat) :
  map currentColor (sync_loop discoBallMesh hs start bs) = map currentColor bs /\
  map (fun b => u_color (material b)) (sync_loop discoBallMesh hs start bs)
  = map (fun b => u_color (material b)) bs.
Proof.
  revert start. induction bs as [|b bs IH]; intros start; [now split|].
  cbn [sync_loop map]. destruct (IH (S start)) as [H1 H2]. rewrite H1, H2.
  unfold sync_beam. destruct (nth_error hs start); now split.
Qed.

Lemma syncWithDiscoBall_currentColor (ball : option DiscoBall)
    (s : LightBeamSystem.t) :
  map currentColor (beams (syncWithDiscoBall ball s)) = map currentColor (beams s) /\
  map (fun b => u_color (material b)) (beams (syncWithDiscoBall ball s))
  = map (fun b => u_color (material b)) (beams s).
Proof.
  unfold syncWithDiscoBall. destruct ball as [b|]; [|now split].
  destruct (getMesh b); [|now split].
  cbn [beams]. apply sync_loop_currentColor.
Qed.

(** One [update] in a mode that is neither [rainbow] nor [random]. *)
Lemma update_other_mode_colors
    (ball : option DiscoBall) (s : LightBeamSystem.t) (deltaTime : R)
    (g : Random) :
  String.eqb (colorMode (LightBeamSystem.config s)) "rainbow" = false ->
  String.eqb (colorMode (LightBeamSystem.config s)) "random" = false ->
  snd (update ball s deltaTime g) = g /\
  map currentColor (beams (fst (update ball s deltaTime g)))
  = map (fun b => Color_lerp (currentColor b) white 0.05) (beams s) /\
  map (fun b => u_color (material b)) (beams (fst (update ball s deltaTime g)))
  = map (fun b => Color_lerp (currentColor b) white 0.05) (beams s).
Proof.
  intros H1 H2. unfold update, updateColors.
  cbn [LightBeamSystem.config beams colorTime].
  match goal with
  | |- context [updateColors_loop ?m ?t ?bs ?g0] =>
      destruct (updateColors_loop_other m t bs g0 H1 H2) as (Hg & Hc & Hu);
      destruct (updateColors_loop m t bs g0) as [bs' g']
  end.
  cbn [fst snd] in *.
  match goal with
  | |- context [syncWithDiscoBall ball ?x] =>
      destruct (syncWithDiscoBall_currentColor ball x) as [S1 S2]
  end.
  cbn [beams] in S1, S2. rewrite S1, S2, Hc, Hu, !map_map.
  now repeat split.
Qed.

(** C5, as the code has it.  In white mode every [update] takes the
    constant white as the target of every beam, draws no random number,
    and still runs the interpolation step of the other modes: the new
    [currentColor] is the old one moved by the factor [0.05] towards
    white, and that colour is copied to the shader uniform.  A beam whose
    colour is white already keeps it. *)
Theorem white_mode_update
    (ball : option DiscoBall) (s : LightBeamSystem.t) (deltaTime : R)
    (g : Random) :
  colorMode (LightBeamSystem.config s) = "white"%string ->
  let s' := fst (update ball s deltaTime g) in
  snd (update ball s deltaTime g) = g /\
  map currentColor (beams s')
  = map (fun b => Color_lerp (currentColor b) white 0.05) (beams s) /\
  map (fun b => u_color (material b)) (beams s')
  = map (fun b => Color_lerp (currentColor b) white 0.05) (beams s) /\
  (Forall (fun b => currentColor b = white) (beams s) ->
   Forall (fun b => currentColor b = white) (beams s')).
Proof.
  intros Hmode s'. subst s'.
  destruct (update_other_mode_colors ball s deltaTime g) as (Hg & Hc & Hu);
    try (rewrite Hmode; reflexivity).
  repeat split; try assumption.
  intros Hall. apply Forall_forall. intros b' Hin.
  apply (in_map currentColor) in Hin. rewrite Hc in Hin.
  apply in_map_iff in Hin as (b & Hb & Hbin).
  rewrite Forall_forall in Hall. rewrite (Hall b Hbin), Color_lerp_same in Hb.
  now symmetry.
Qed.

Lemma red_is_one : Color_hex 0xff0000 = mkColor 1 0 0.
Proof.
  unfold Color_hex.
  change (Z.land (Z.shiftr 16711680 16) 255) with 255%Z.
  change (Z.land (Z.shiftr 16711680 8) 255) with 0%Z.
  change (Z.land 16711680 255) with 0%Z.
  f_equal; lra.
Qed.

(** At time zero a beam with no colour offset gets the first palette
    colour. *)
Lemma getRainbowColor_0 : getRainbowColor 0 = Color_hex 0xff0000.
Proof.
  assert (H0 : js_rem 0 1.0 = 0).
  { rewrite js_rem_one. destruct (Rle_dec 0 0) as [_|n]; [|lra].
    rewrite (ZfloorZ 0). lra. }
  assert (Hn : js_rem (js_rem 0 1.0 + 1.0) 1.0 = 0).
  { rewrite H0, js_rem_one. destruct (Rle_dec 0 (0 + 1.0)) as [_|n]; [|lra].
    rewrite (Zfloor_eq 1); lra. }
  unfold getRainbowColor. rewrite Hn, Rmult_0_l.
  assert (Hc : Zceil 0 = 0%Z).
  { unfold Zceil. rewrite Ropp_0. now rewrite (ZfloorZ 0). }
  rewrite (ZfloorZ 0), Hc.
  cbn [Z.to_nat List.length rainbowColors Z.of_nat Z.rem Z.quotrem nth snd].
  unfold Color_lerp, Color_clone.
  destruct (Color_hex 16711680) as [r g b]. cbn [cr cg cb].
  f_equal; lra.
Qed.

Lemma createBeams_loop_colors (cfg : LightBeamSystem.Config) (total : nat)
    (hs : list Hole) (index : nat) (g : Random) :
  map currentColor (fst (createBeams_loop cfg total index hs g))
  = map (fun _ => white) hs /\
  map colorOffset (fst (createBeams_loop cfg total index hs g))
  = map (fun k => INR k / INR total) (seq index (List.length hs)).
Proof.
  revert index g. induction hs as [|h hs IH]; intros index g; [now split|].
  cbn [createBeams_loop].
  destruct (createBeam cfg total index h g) as [b g1] eqn:Eb.
  assert (Hb : currentColor b = white /\ colorOffset b = INR index / INR total).
  { unfold createBeam in Eb. cbn [Math_random] in Eb.
    injection Eb as <- _. now split. }
  destruct Hb as [Hb1 Hb2].
  match goal with
  | |- context [createBeams_loop cfg total (S index) hs ?g1] =>
      destruct (IH (S index) g1) as [H1 H2];
      destruct (createBeams_loop cfg total (S index) hs g1) as [bs g2]
  end.
  cbn [fst map List.length seq] in *.
  now rewrite H1, H2, Hb1, Hb2.
Qed.

(** Beams are created one per aperture. *)
Lemma createBeams_loop_length (cfg : LightBeamSystem.Config) (total : nat)
    (hs : list Hole) (index : nat) (g : Random) :
  List.length (fst (createBeams_loop cfg total index hs g)) = List.length hs.
Proof.
  rewrite <- (length_map currentColor).
  destruct (createBeams_loop_colors cfg total hs index g) as [H _].
  now rewrite H, length_map.
Qed.

Lemma updateColors_loop_length (mode : string) (time : R) (bs : list Beam)
    (g : Random) :
  List.length (fst (updateColors_loop mode time bs g)) = List.length bs.
Proof.
  revert g. induction bs as [|b bs IH]; intros g; [reflexivity|].
  cbn [updateColors_loop].
  destruct (updateColors_beam mode time b g) as [b' g1].
  specialize (IH g1).
  destruct (updateColors_loop mode time bs g1) as [rest g2].
  cbn [fst List.length] in *. now rewrite IH.
Qed.

(** The constructed system has one beam per aperture of the ball, so every
    beam index has its aperture as long as the ball keeps its list. *)
Lemma new_beam_count (ball : DiscoBall) (c : LightBeamSystem.ConfigArg)
    (g : Random) :
  List.length (beams (fst (new ball c g))) = List.length (getHoles ball).
Proof.
  unfold new.
  match goal with
  | |- context [createBeams_loop ?cfg ?n ?i ?hs ?g0] =>
      pose proof (createBeams_loop_length cfg n hs i g0) as Hl;
      destruct (createBeams_loop cfg n i hs g0) as [bs g1]
  end.
  unfold updateColors. cbn [LightBeamSystem.config beams colorTime fst] in *.
  match goal with
  | |- context [updateColors_loop ?m ?t ?l ?g0] =>
      pose proof (updateColors_loop_length m t l g0) as Hu;
      destruct (updateColors_loop m t l g0) as [bs' g2]
  end.
  cbn [fst beams] in *. congruence.
Qed.

Lemma oneBeamSystem_currentColor :
  map currentColor (beams (fst oneBeamSystem)) = [mkColor 1 0.95 0.95].
Proof.
  unfold oneBeamSystem, new.
  cbn [or_default arg_colorMode arg_beamLength arg_beamOpacity
       arg_beamIntensity arg_animationSpeed noBeamConfig].
  match goal with
  | |- context [createBeams_loop ?cfg ?n ?i ?hs ?g] =>
      destruct (createBeams_loop_colors cfg n hs i g) as [H1 H2];
      destruct (createBeams_loop cfg n i hs g) as [bs g1]
  end.
  unfold updateColors. cbn [LightBeamSystem.config colorMode beams colorTime fst] in *.
  destruct (updateColors_loop_rainbow 0 bs g1) as [_ Hc].
  destruct (updateColors_loop "rainbow" 0 bs g1) as [bs' g2].
  cbn [fst beams] in *. rewrite Hc.
  change (getHoles (DiscoBall_new oneHole)) with [makeHole 1 2 0] in H1, H2.
  cbn [map List.length seq INR] in H1, H2.
  destruct bs as [|b [|b' bs]]; try discriminate.
  cbn [map] in *. injection H1 as H1. injection H2 as H2.
  rewrite H1, H2.
  replace (0 / 1 + 0) with 0 by lra.
  rewrite getRainbowColor_0, red_is_one, white_is_one.
  unfold Color_lerp; cbn [cr cg cb]. repeat f_equal; lra.
Qed.

(** C5 as stated fails.  Construct the beam system (rainbow mode) on a
    ball with one aperture, switch to white mode and run one update: the
    beam's colour, [(1, 0.95, 0.95)] after construction, becomes
    [(1, 0.9525, 0.9525)], a blend of its prior colour towards white, and
    not white. *)
Lemma white_mode_update_counterexample :
  let s1 := setColorMode (fst oneBeamSystem) "white" in
  let s2 := fst (update (Some (DiscoBall_new oneHole)) s1 16 (snd oneBeamSystem)) in
  colorMode (LightBeamSystem.config s1) = "white"%string /\
  map currentColor (beams s2) = [mkColor 1 0.9525 0.9525] /\
  ~ Forall (fun b => currentColor b = white) (beams s2).
Proof.
  intros s1 s2.
  assert (Hmode : colorMode (LightBeamSystem.config s1) = "white"%string)
    by reflexivity.
  destruct (update_other_mode_colors (Some (DiscoBall_new oneHole)) s1 16
              (snd oneBeamSystem) eq_refl eq_refl) as (_ & Hc & _).
  fold s2 in Hc.
  change (beams s1) with (beams (fst oneBeamSystem)) in Hc.
  rewrite <- (map_map currentColor (fun c => Color_lerp c white 0.05)) in Hc.
  rewrite oneBeamSystem_currentColor, white_is_one in Hc.
  assert (Hc' : map currentColor (beams s2) = [mkColor 1 0.9525 0.9525]).
  { rewrite Hc. unfold Color_lerp; cbn [map cr cg cb]. repeat f_equal; lra. }
  split; [exact Hmode|]. split; [exact Hc'|].
  intros Hall.
  destruct (beams s2) as [|b [|b' bs]]; try discriminate.
  inversion Hall as [|? ? Hb _]; subst.
  cbn [map] in Hc'. injection Hc' as Hc'.
  rewrite Hb, white_is_one in Hc'. injection Hc' as Hg _. lra.
Qed.

Lemma white_mode_update_witness :
  let s1 := setColorMode (fst oneBeamSystem) "white" in
  let s2 := fst (update (Some (DiscoBall_new oneHole)) s1 16 (snd oneBeamSystem)) in
  map currentColor (beams s2)
  = map (fun b => Color_lerp (currentColor b) white 0.05) (beams s1).
Proof.
  intros s1 s2.
  apply (white_mode_update (Some (DiscoBall_new oneHole)) s1 16
           (snd oneBeamSystem)).
  reflexivity.
Defined.

Lemma syncWithDiscoBall_transforms_witness :
  exists beam',
    nth_error (beams (syncWithDiscoBall (Some turnedBall) sampleSystem)) 0
    = Some beam' /\
    position (beam_mesh beam') = mkVector3 (-1) 2 3 /\
    shortestArc (mkVector3 0 1 0) (mkVector3 (-1) 0 0)
                (quaternion (beam_mesh beam')) /\
    applyQuaternion (mkVector3 0 1 0) (quaternion (beam_mesh beam'))
    = mkVector3 (-1) 0 0.
Proof.
  destruct (syncWithDiscoBall_transforms turnedBall turnedMesh
              sampleSystem 0 sampleBeam (makeHole 1 2 0)
              eq_refl eq_refl eq_refl) as [Hn Hgeo].
  assert (HQ : quaternion turnedMesh = mkQuaternion 0 0 1 0)
    by apply setFromEuler_half_turn_z.
  assert (Hwd : applyQuaternion (direction (makeHole 1 2 0))
                                (quaternion turnedMesh)
                = mkVector3 (-1) 0 0).
  { rewrite HQ, oneHole_direction. unfold applyQuaternion.
    cbn [qx qy qz qw vx vy vz]. f_equal; ring. }
  assert (Hwp : applyQuaternion (hole_position (makeHole 1 2 0))
                                (quaternion turnedMesh)
                = mkVector3 (-2) 0 0).
  { rewrite HQ, oneHole_position. unfold applyQuaternion.
    cbn [qx qy qz qw vx vy vz]. f_equal; ring. }
  rewrite Hwd, Hwp in Hn.
  rewrite Hwd in Hgeo.
  assert (Hunit : Quaternion_lengthSq (quaternion turnedMesh) = 1).
  { rewrite HQ. unfold Quaternion_lengthSq. cbn [qx qy qz qw]. ring. }
  destruct (Hgeo Hunit) as (_ & _ & Hdir).
  assert (Hd : dot (direction (makeHole 1 2 0)) (direction (makeHole 1 2 0)) = 1).
  { rewrite oneHole_direction. unfold dot. cbn [vx vy vz]. ring. }
  destruct (Hdir Hd) as (_ & Hfar & _).
  assert (Heps : EPSILON <= vy (mkVector3 (-1) 0 0) + 1).
  { cbn [vy]. unfold EPSILON.
    assert (1 <= 2 ^ 52) by (apply pow_R1_Rle; lra).
    assert (/ 2 ^ 52 <= / 1) by (apply Rinv_le_contravar; lra).
    lra. }
  destruct (Hfar Heps) as [Harc _].
  eexists. split; [exact Hn|].
  cbn [beam_mesh position quaternion turnedMesh Mesh_position_set vx vy vz].
  split; [f_equal; ring|].
  split; [exact Harc|].
  destruct Harc as (_ & _ & _ & _ & _ & Hmap). exact Hmap.
Defined.

End LightBeamSystemFacts.

(** ** Carving the apertures *)

Lemma carve_fold_map (radius : R) (hs : list Hole) (g : Geometry) :
  fold_left (carveHole radius) hs g
  = map (fun vn => fold_left (fun vn h => carveVertex radius h vn) hs vn) g.
Proof.
  revert g. induction hs as [|h hs IH]; intros g; simpl.
  - now rewrite map_id.
  - rewrite IH. unfold carveHole. now rewrite map_map.
Qed.

Lemma createHoleGeometry_map (d : DiscoBall) (g : Geometry) :
  createHoleGeometry d (Some g)
  = Some (map (fun vn =>
                 fold_left (fun vn h => carveVertex (radius (config d)) h vn)
                           (holes d) vn) g).
Proof.
  unfold createHoleGeometry. rewrite <- carve_fold_map.
  destruct (holes d); reflexivity.
Qed.

(** X1.  [createHoleGeometry] keeps the vertex buffers' length; it leaves
    the buffers exactly as they are when the ball has no aperture, and
    does nothing at all when there is no geometry. *)
Theorem createHoleGeometry_shape (d : DiscoBall) (g : Geometry) :
  createHoleGeometry d None = None /\
  (exists g', createHoleGeometry d (Some g) = Some g' /\
              List.length g' = List.length g) /\
  (holes d = [] -> createHoleGeometry d (Some g) = Some g).
Proof.
  split; [reflexivity|]. split.
  - rewrite createHoleGeometry_map. eexists. split; [reflexivity|].
    apply length_map.
  - intros E. unfold createHoleGeometry. now rewrite E.
Qed.

Lemma carveVertex_far (radius : R) (h : Hole) (vn : Vector3 * Vector3) :
  holeRadius <= Vector3_distanceTo (fst vn) (holeCenter radius h) ->
  carveVertex radius h vn = vn.
Proof.
  destruct vn as [v n]; simpl. intros Hd.
  destruct (Rlt_dec _ _) as [Hlt|_]; [lra | reflexivity].
Qed.

Lemma carve_all_far (radius : R) (hs : list Hole) (vn : Vector3 * Vector3) :
  Forall (fun h => holeRadius <= Vector3_distanceTo (fst vn) (holeCenter radius h))
         hs ->
  fold_left (fun vn h => carveVertex radius h vn) hs vn = vn.
Proof.
  induction hs as [|h hs IH]; intros Hall; [reflexivity|].
  inversion Hall as [|? ? Hh Hrest]; subst. simpl.
  rewrite carveVertex_far by exact Hh. now apply IH.
Qed.

(** X2.  A vertex that lies at distance [holeRadius = 0.35] or more from
    the centre of every aperture comes out of [createHoleGeometry] with
    its position and its normal unchanged. *)
Theorem createHoleGeometry_far_vertex
    (d : DiscoBall) (g : Geometry) (i : nat) (vn : Vector3 * Vector3) :
  nth_error g i = Some vn ->
  Forall (fun h => holeRadius
                   <= Vector3_distanceTo (fst vn) (holeCenter (radius (config d)) h))
         (holes d) ->
  exists g', createHoleGeometry d (Some g) = Some g' /\ nth_error g' i = Some vn.
Proof.
  intros Hn Hall. rewrite createHoleGeometry_map. eexists. split; [reflexivity|].
  rewrite nth_error_map, Hn. simpl. now rewrite carve_all_far.
Qed.

(** *** Lengths and distances in three dimensions *)

Lemma Vector3_length_dot (v : Vector3) : Vector3_length v = sqrt (dot v v).
Proof. reflexivity. Qed.

Lemma dot_nonneg (v : Vector3) : 0 <= dot v v.
Proof. unfold dot. nra. Qed.

Lemma Vector3_length_unit_iff (v : Vector3) :
  Vector3_length v = 1 <-> dot v v = 1.
Proof.
  rewrite Vector3_length_dot. split; intros H.
  - rewrite <- (sqrt_sqrt (dot v v)) by apply dot_nonneg. rewrite H. ring.
  - rewrite H. apply sqrt_1.
Qed.

(** Cauchy and Schwarz, through Lagrange's identity. *)
Lemma dot_le_lengths (a b : Vector3) :
  dot a b <= Vector3_length a * Vector3_length b.
Proof.
  rewrite !Vector3_length_dot, <- sqrt_mult by apply dot_nonneg.
  apply Rle_trans with (Rabs (dot a b)); [apply Rle_abs|].
  rewrite <- sqrt_Rsqr_abs. apply sqrt_le_1_alt.
  unfold Rsqr, dot. destruct a as [a1 a2 a3], b as [b1 b2 b3]; cbn [vx vy vz].
  assert (H : (a1 * a1 + a2 * a2 + a3 * a3) * (b1 * b1 + b2 * b2 + b3 * b3)
              - (a1 * b1 + a2 * b2 + a3 * b3) * (a1 * b1 + a2 * b2 + a3 * b3)
              = (a1 * b2 - a2 * b1) * (a1 * b2 - a2 * b1)
                + (a2 * b3 - a3 * b2) * (a2 * b3 - a3 * b2)
                + (a3 * b1 - a1 * b3) * (a3 * b1 - a1 * b3)) by ring.
  pose proof (Rle_0_sqr (a1 * b2 - a2 * b1)) as H1.
  pose proof (Rle_0_sqr (a2 * b3 - a3 * b2)) as H2.
  pose proof (Rle_0_sqr (a3 * b1 - a1 * b3)) as H3.
  unfold Rsqr in H1, H2, H3. lra.
Qed.

Lemma Vector3_length_nonneg (v : Vector3) : 0 <= Vector3_length v.
Proof. apply sqrt_pos. Qed.

Lemma Vector3_length_add (a b : Vector3) :
  Vector3_length (add a b) <= Vector3_length a + Vector3_length b.
Proof.
  pose proof (Vector3_length_nonneg a) as Ha.
  pose proof (Vector3_length_nonneg b) as Hb.
  apply Rsqr_incr_0_var; [|lra].
  rewrite Vector3_length_dot at 1. rewrite Rsqr_sqrt by apply dot_nonneg.
  pose proof (dot_le_lengths a b) as Hcs.
  assert (Ea : (Vector3_length a)² = dot a a)
    by (rewrite Vector3_length_dot; apply Rsqr_sqrt, dot_nonneg).
  assert (Eb : (Vector3_length b)² = dot b b)
    by (rewrite Vector3_length_dot; apply Rsqr_sqrt, dot_nonneg).
  replace (dot (add a b) (add a b)) with (dot a a + 2 * dot a b + dot b b)
    by (unfold dot, add; cbn [vx vy vz]; ring).
  unfold Rsqr in *. nra.
Qed.

(** [distanceTo] is the length of the difference. *)
Lemma distanceTo_length (v w : Vector3) :
  Vector3_distanceTo v w = Vector3_length (add v (multiplyScalar w (-1))).
Proof.
  unfold Vector3_distanceTo, Vector3_length, add, multiplyScalar; cbn [vx vy vz].
  f_equal. ring.
Qed.

Lemma distanceTo_triangle (a b c : Vector3) :
  Vector3_distanceTo a c <= Vector3_distanceTo a b + Vector3_distanceTo b c.
Proof.
  rewrite !distanceTo_length.
  replace (add a (multiplyScalar c (-1)))
    with (add (add a (multiplyScalar b (-1))) (add b (multiplyScalar c (-1)))).
  - apply Vector3_length_add.
  - unfold add, multiplyScalar; cbn [vx vy vz]. f_equal; ring.
Qed.

Lemma distanceTo_self (a : Vector3) : Vector3_distanceTo a a = 0.
Proof.
  unfold Vector3_distanceTo.
  replace ((vx a - vx a) * (vx a - vx a) + (vy a - vy a) * (vy a - vy a)
           + (vz a - vz a) * (vz a - vz a)) with 0 by ring.
  apply sqrt_0.
Qed.

Lemma Vector3_normalize_unit (v : Vector3) :
  Vector3_length v <> 0 -> Vector3_length (Vector3_normalize v) = 1.
Proof.
  intros Hne. unfold Vector3_normalize.
  destruct (Req_dec_T (Vector3_length v) 0) as [E|_]; [contradiction|].
  pose proof (Vector3_length_nonneg v) as Hpos.
  rewrite multiplyScalar_length.
  - field. exact Hne.
  - apply Rlt_le. unfold Rdiv. rewrite Rmult_1_l.
    apply Rinv_0_lt_compat. lra.
Qed.

(** *** What carving does to one vertex *)

(** The blend of a unit normal towards the reversed unit direction, by at
    most [0.3], is never the zero vector. *)
Lemma blended_normal_nonzero (n dir : Vector3) (a : R) :
  dot n n = 1 -> dot dir dir = 1 -> 0 <= a <= 0.3 ->
  Vector3_length (Vector3_lerp n (multiplyScalar (clone dir) (-1)) a) <> 0.
Proof.
  intros Hn Hd Ha Hz.
  assert (Hsq : dot (Vector3_lerp n (multiplyScalar (clone dir) (-1)) a)
                    (Vector3_lerp n (multiplyScalar (clone dir) (-1)) a) = 0).
  { rewrite <- (sqrt_sqrt (dot _ _)) by apply dot_nonneg.
    rewrite <- Vector3_length_dot, Hz. ring. }
  assert (Hcs : dot n dir <= 1).
  { pose proof (dot_nonneg (add n (multiplyScalar dir (-1)))) as Hp.
    replace (dot (add n (multiplyScalar dir (-1))) (add n (multiplyScalar dir (-1))))
      with (dot n n - 2 * dot n dir + dot dir dir) in Hp
      by (unfold dot, add, multiplyScalar; cbn [vx vy vz]; ring).
    lra. }
  rewrite clone_id in Hsq.
  replace (dot (Vector3_lerp n (multiplyScalar dir (-1)) a)
               (Vector3_lerp n (multiplyScalar dir (-1)) a))
    with ((1 - a) * (1 - a) * dot n n + a * a * dot dir dir
          - 2 * a * (1 - a) * dot n dir) in Hsq
    by (unfold dot, Vector3_lerp, multiplyScalar; cbn [vx vy vz]; ring).
  rewrite Hn, Hd in Hsq.
  assert (Hprod : 0 <= a * (1 - a) * (1 - dot n dir)).
  { apply Rmult_le_pos; [apply Rmult_le_pos|]; lra. }
  nra.
Qed.

(** The blend factor of a vertex in range. *)
Lemma carve_factor_range (dist : R) :
  0 <= dist -> dist < holeRadius ->
  0 < 1 - dist / holeRadius <= 1.
Proof.
  unfold holeRadius. intros H0 H1. split.
  - apply Rlt_0_minus. apply (Rmult_lt_reg_r 0.35); [lra|].
    unfold Rdiv. rewrite Rmult_assoc, Rinv_l by lra. lra.
  - assert (0 <= dist / 0.35) by (apply Rmult_le_pos; [lra|];
      apply Rlt_le, Rinv_0_lt_compat; lra). lra.
Qed.

Lemma distanceTo_nonneg (v w : Vector3) : 0 <= Vector3_distanceTo v w.
Proof. apply sqrt_pos. Qed.

Lemma carveVertex_unit_normal (radius : R) (h : Hole) (vn : Vector3 * Vector3) :
  dot (direction h) (direction h) = 1 ->
  Vector3_length (snd vn) = 1 ->
  Vector3_length (snd (carveVertex radius h vn)) = 1.
Proof.
  destruct vn as [v n]; cbn [snd]. intros Hd Hn. unfold carveVertex.
  destruct (Rlt_dec _ _) as [Hlt|_]; [|exact Hn]. cbn [snd].
  apply Vector3_normalize_unit, blended_normal_nonzero.
  - now apply Vector3_length_unit_iff.
  - exact Hd.
  - pose proof (carve_factor_range _ (distanceTo_nonneg v (holeCenter radius h)) Hlt).
    lra.
Qed.

Lemma carve_all_unit_normal (radius : R) (hs : list Hole)
    (vn : Vector3 * Vector3) :
  Forall (fun h => dot (direction h) (direction h) = 1) hs ->
  Vector3_length (snd vn) = 1 ->
  Vector3_length (snd (fold_left (fun vn h => carveVertex radius h vn) hs vn)) = 1.
Proof.
  revert vn. induction hs as [|h hs IH]; intros vn Hall Hn; [exact Hn|].
  inversion Hall as [|? ? Hh Hrest]; subst. simpl.
  apply IH; [exact Hrest|]. now apply carveVertex_unit_normal.
Qed.

Lemma DiscoBall_new_unit_directions (c : ConfigArg) :
  Forall (fun h => dot (direction h) (direction h) = 1)
         (holes (DiscoBall_new c)).
Proof.
  change (holes (DiscoBall_new c)) with (getHoles (DiscoBall_new c)).
  rewrite DiscoBall_new_holes, generateHoles_map.
  apply Forall_forall. intros h Hin.
  apply in_map_iff in Hin as (i & <- & _). apply makeHole_direction_unit.
Qed.

(** X3.  On a constructed ball, [createHoleGeometry] keeps normals at
    length one: if every normal of the sphere has length one before the
    apertures are carved, every normal has length one afterwards (the
    blend towards the reversed aperture direction is never the zero
    vector, so [normalize] always rescales it). *)
Theorem createHoleGeometry_unit_normals (c : ConfigArg) (g : Geometry) :
  Forall (fun vn => Vector3_length (snd vn) = 1) g ->
  exists g',
    createHoleGeometry (DiscoBall_new c) (Some g) = Some g' /\
    Forall (fun vn => Vector3_length (snd vn) = 1) g'.
Proof.
  intros Hall. rewrite createHoleGeometry_map. eexists. split; [reflexivity|].
  apply Forall_forall. intros vn' Hin.
  apply in_map_iff in Hin as (vn & <- & Hvn).
  apply carve_all_unit_normal.
  - apply DiscoBall_new_unit_directions.
  - rewrite Forall_forall in Hall. now apply Hall.
Qed.

(** The single aperture of a ball constructed with [{ holes: 1 }] points
    along the x axis. *)
Lemma createHoleGeometry_far_vertex_witness :
  exists g',
    createHoleGeometry (DiscoBall_new oneHole) (Some sampleGeometry) = Some g' /\
    nth_error g' 0 = Some (mkVector3 0 0 2, mkVector3 0 0 1).
Proof.
  apply (createHoleGeometry_far_vertex (DiscoBall_new oneHole) sampleGeometry 0
           (mkVector3 0 0 2, mkVector3 0 0 1)); [reflexivity|].
  change (holes (DiscoBall_new oneHole)) with [makeHole 1 2 0].
  constructor; [|constructor]. unfold holeCenter. cbn [fst radius config DiscoBall_new
    createMesh DiscoBall_generateHoles or_default arg_radius oneHole].
  rewrite oneHole_direction, clone_id.
  unfold Vector3_distanceTo, multiplyScalar, holeRadius; cbn [vx vy vz].
  replace ((0 - 1 * 2) * (0 - 1 * 2) + (0 - 0 * 2) * (0 - 0 * 2)
           + (2 - 0 * 2) * (2 - 0 * 2)) with 8 by ring.
  rewrite <- (sqrt_square 0.35) by lra. apply sqrt_le_1_alt. lra.
Defined.

Lemma unit_z_length : Vector3_length (mkVector3 0 0 1) = 1.
Proof.
  unfold Vector3_length; cbn [vx vy vz].
  replace (0 * 0 + 0 * 0 + 1 * 1) with 1 by ring. apply sqrt_1.
Qed.

Lemma unit_x_length : Vector3_length (mkVector3 1 0 0) = 1.
Proof.
  unfold Vector3_length; cbn [vx vy vz].
  replace (1 * 1 + 0 * 0 + 0 * 0) with 1 by ring. apply sqrt_1.
Qed.

Lemma createHoleGeometry_unit_normals_witness :
  exists g',
    createHoleGeometry (DiscoBall_new noConfig) (Some sampleGeometry) = Some g' /\
    Forall (fun vn => Vector3_length (snd vn) = 1) g'.
Proof.
  apply (createHoleGeometry_unit_normals noConfig sampleGeometry).
  repeat constructor; cbn [snd]; [apply unit_z_length | apply unit_x_length].
Defined.

Lemma carveVertex_moves_at_most (radius : R) (h : Hole) (vn : Vector3 * Vector3) :
  dot (direction h) (direction h) = 1 ->
  Vector3_distanceTo (fst (carveVertex radius h vn)) (fst vn) <= holeDepth.
Proof.
  destruct vn as [v n]; cbn [fst]. intros Hd. unfold carveVertex.
  destruct (Rlt_dec _ _) as [Hlt|_]; cbn [fst].
  2:{ rewrite distanceTo_self. unfold holeDepth. lra. }
  pose proof (carve_factor_range _ (distanceTo_nonneg v (holeCenter radius h)) Hlt)
    as Hf.
  set (factor := 1 - Vector3_distanceTo v (holeCenter radius h) / holeRadius) in *.
  assert (Hdf : 0 <= factor ^ 2 * holeDepth <= holeDepth).
  { unfold holeDepth. simpl. nra. }
  set (df := factor ^ 2 * holeDepth) in *.
  rewrite clone_id. unfold Vector3_distanceTo, add, multiplyScalar; cbn [vx vy vz].
  replace ((vx v + vx (direction h) * - df - vx v)
           * (vx v + vx (direction h) * - df - vx v)
           + (vy v + vy (direction h) * - df - vy v)
             * (vy v + vy (direction h) * - df - vy v)
           + (vz v + vz (direction h) * - df - vz v)
             * (vz v + vz (direction h) * - df - vz v))
    with (dot (direction h) (direction h) * (df * df))
    by (unfold dot; ring).
  rewrite Hd, Rmult_1_l, sqrt_square; lra.
Qed.

Lemma carve_all_moves_at_most (radius : R) (hs : list Hole)
    (vn : Vector3 * Vector3) :
  Forall (fun h => dot (direction h) (direction h) = 1) hs ->
  Vector3_distanceTo
    (fst (fold_left (fun vn h => carveVertex radius h vn) hs vn)) (fst vn)
  <= holeDepth * INR (List.length hs).
Proof.
  revert vn. induction hs as [|h hs IH]; intros vn Hall.
  - simpl. rewrite distanceTo_self. lra.
  - inversion Hall as [|? ? Hh Hrest]; subst.
    cbn [fold_left List.length]. rewrite S_INR.
    pose proof (IH (carveVertex radius h vn) Hrest) as H1.
    pose proof (carveVertex_moves_at_most radius h vn Hh) as H2.
    pose proof (distanceTo_triangle
                  (fst (fold_left (fun vn h => carveVertex radius h vn) hs
                                  (carveVertex radius h vn)))
                  (fst (carveVertex radius h vn)) (fst vn)) as H3.
    lra.
Qed.

(** X4.  On a constructed ball, carving moves no vertex further than
    [holeDepth = 0.3] per aperture: each vertex ends within
    [0.3 * N] of where it started, [N] being the number of apertures
    (overlapping apertures compound, one step of at most [0.3] each). *)
Theorem createHoleGeometry_displacement_bound
    (c : ConfigArg) (g : Geometry) (i : nat) (vn : Vector3 * Vector3) :
  nth_error g i = Some vn ->
  exists g' vn',
    createHoleGeometry (DiscoBall_new c) (Some g) = Some g' /\
    nth_error g' i = Some vn' /\
    Vector3_distanceTo (fst vn') (fst vn)
    <= holeDepth * INR (List.length (getHoles (DiscoBall_new c))).
Proof.
  intros Hn. rewrite createHoleGeometry_map. eexists. eexists.
  split; [reflexivity|]. split.
  - rewrite nth_error_map, Hn. reflexivity.
  - apply carve_all_moves_at_most, DiscoBall_new_unit_directions.
Qed.

Lemma createHoleGeometry_displacement_bound_witness :
  exists g' vn',
    createHoleGeometry (DiscoBall_new noConfig) (Some sampleGeometry) = Some g' /\
    nth_error g' 0 = Some vn' /\
    Vector3_distanceTo (fst vn') (mkVector3 0 0 2)
    <= holeDepth * INR (List.length (getHoles (DiscoBall_new noConfig))).
Proof.
  apply (createHoleGeometry_displacement_bound noConfig sampleGeometry 0
           (mkVector3 0 0 2, mkVector3 0 0 1)).
  reflexivity.
Defined.

(** ** The ball after disposal, and its queries *)

Lemma updates_fixed (d : DiscoBall) (dts : list R) :
  mesh d = None -> updates d dts = d.
Proof.
  intros Hm. induction dts as [|dt dts IH]; [reflexivity|].
  change (updates d (dt :: dts)) with (updates (updateRotation d dt) dts).
  unfold updateRotation at 1. rewrite Hm. exact IH.
Qed.

(** X5.  After [dispose()] the ball has no mesh and no aperture, and
    every later call is harmless: a second [dispose()] changes nothing,
    any sequence of [updateRotation] calls leaves the state as it is,
    [getHoleWorldDirection] answers [null] for every index,
    [createHoleGeometry] leaves a geometry untouched, and the beam
    system's [syncWithDiscoBall] leaves every beam where it was. *)
Theorem dispose_then_inert (d : DiscoBall) :
  let d' := dispose d in
  getMesh d' = None /\ getHoles d' = [] /\
  dispose d' = d' /\
  (forall dts, updates d' dts = d') /\
  (forall i, getHoleWorldDirection d' i = None) /\
  (forall g, createHoleGeometry d' g = g) /\
  (forall s, LightBeamSystem.syncWithDiscoBall (Some d') s = s).
Proof.
  cbv zeta. repeat split.
  - intros dts. now apply updates_fixed.
  - intros [g|]; reflexivity.
Qed.

Lemma nth_error_Some_lt {A : Type} (l : list A) (i : nat) :
  (i < List.length l)%nat -> exists a, nth_error l i = Some a.
Proof.
  intros Hi. destruct (nth_error l i) eqn:E; [now eexists|].
  apply nth_error_None in E. lia.
Qed.

Lemma getHoleWorldDirection_at (d : DiscoBall) (i : Z) (m : Mesh) (h : Hole) :
  getMesh d = Some m -> (0 <= i)%Z ->
  nth_error (getHoles d) (Z.to_nat i) = Some h ->
  getHoleWorldDirection d i = Some (applyQuaternion (direction h) (quaternion m)).
Proof.
  unfold getHoleWorldDirection, getMesh, getHoles.
  intros Hm Hi Hh. rewrite Hm.
  assert (Hlt : (Z.to_nat i < List.length (holes d))%nat).
  { apply nth_error_Some. congruence. }
  destruct (Z.ltb_spec i 0) as [Hneg|_]; [lia|]. cbn [orb].
  destruct (Z.leb_spec (Z.of_nat (List.length (holes d))) i) as [Hbig|_]; [lia|].
  now rewrite Hh, clone_id.
Qed.

(** X6.  [getHoleWorldDirection(i)] answers a vector exactly when the
    ball has its mesh and [0 <= i < holes.length], and [null] otherwise;
    the vector is the aperture's direction turned by the mesh's
    quaternion. *)
Theorem getHoleWorldDirection_defined (d : DiscoBall) (i : Z) :
  ((exists v, getHoleWorldDirection d i = Some v) <->
   (getMesh d <> None /\ (0 <= i < Z.of_nat (List.length (getHoles d)))%Z)) /\
  (forall m h,
     getMesh d = Some m -> (0 <= i)%Z ->
     nth_error (getHoles d) (Z.to_nat i) = Some h ->
     getHoleWorldDirection d i = Some (applyQuaternion (direction h) (quaternion m))).
Proof.
  split; [|intros m h; apply getHoleWorldDirection_at].
  unfold getHoleWorldDirection, getMesh, getHoles.
  destruct (mesh d) as [m|].
  2:{ split; [intros [v Hv]; discriminate | intros [H _]; congruence]. }
  destruct (Z.ltb_spec i 0) as [Hneg|Hpos]; cbn [orb].
  { split; [intros [v Hv]; discriminate | intros [_ H]; lia]. }
  destruct (Z.leb_spec (Z.of_nat (List.length (holes d))) i) as [Hbig|Hsmall].
  { split; [intros [v Hv]; discriminate | intros [_ H]; lia]. }
  split; [intros _; split; [discriminate | lia]|].
  intros _. destruct (nth_error_Some_lt (holes d) (Z.to_nat i)) as [h Hh]; [lia|].
  rewrite Hh. now eexists.
Qed.

(** X7.  The two ways of following the ball agree: for a beam whose
    index has an aperture, [syncWithDiscoBall] orients the beam by
    [setFromUnitVectors] from the up axis to exactly the vector that
    [getHoleWorldDirection] answers for that index. *)
Theorem sync_follows_getHoleWorldDirection
    (ball : DiscoBall) (m : Mesh) (s : LightBeamSystem.t) (i : nat)
    (beam : LightBeamSystem.Beam) :
  getMesh ball = Some m ->
  nth_error (LightBeamSystem.beams s) i = Some beam ->
  (i < List.length (getHoles ball))%nat ->
  exists beam' v,
    nth_error (LightBeamSystem.beams
                 (LightBeamSystem.syncWithDiscoBall (Some ball) s)) i
    = Some beam' /\
    getHoleWorldDirection ball (Z.of_nat i) = Some v /\
    quaternion (LightBeamSystem.beam_mesh beam')
    = setFromUnitVectors (mkVector3 0 1 0) v.
Proof.
  intros Hm Hb Hi.
  destruct (nth_error_Some_lt (getHoles ball) i Hi) as [h Hh].
  pose proof (getHoleWorldDirection_at ball (Z.of_nat i) m h Hm
                (Nat2Z.is_nonneg i)) as Hdir.
  rewrite Nat2Z.id in Hdir. specialize (Hdir Hh).
  unfold LightBeamSystem.syncWithDiscoBall. rewrite Hm.
  cbn [LightBeamSystem.beams].
  rewrite (LightBeamSystemFacts.sync_loop_nth m (getHoles ball) _ 0 i beam Hb).
  eexists. eexists. split; [reflexivity|]. split; [exact Hdir|].
  unfold LightBeamSystem.sync_beam. cbn [Nat.add]. rewrite Hh, !clone_id.
  reflexivity.
Qed.

Lemma sync_follows_getHoleWorldDirection_witness :
  exists beam' v,
    nth_error (LightBeamSystem.beams
                 (LightBeamSystem.syncWithDiscoBall
                    (Some (DiscoBall_new oneHole)) sampleSystem)) 0
    = Some beam' /\
    getHoleWorldDirection (DiscoBall_new oneHole) (Z.of_nat 0) = Some v /\
    quaternion (LightBeamSystem.beam_mesh beam')
    = setFromUnitVectors (mkVector3 0 1 0) v.
Proof.
  apply (sync_follows_getHoleWorldDirection (DiscoBall_new oneHole)
           (Mesh_position_set Mesh_new (mkVector3 0 0 0)) sampleSystem 0
           sampleBeam); [reflexivity | reflexivity | simpl; lia].
Defined.

(** ** The rotation controller: settling *)

Lemma updateRotation_mesh (d : DiscoBall) (m : Mesh) (dt : R) :
  mesh d = Some m -> exists m', mesh (updateRotation d dt) = Some m'.
Proof. intros Hm. unfold updateRotation. rewrite Hm. now eexists. Qed.

Lemma updates_mesh (dts : list R) (d : DiscoBall) (m : Mesh) :
  mesh d = Some m -> exists m', mesh (updates d dts) = Some m'.
Proof.
  revert d m. induction dts as [|dt dts IH]; intros d m Hm; [exists m; exact Hm|].
  change (updates d (dt :: dts)) with (updates (updateRotation d dt) dts).
  destruct (updateRotation_mesh d m dt Hm) as [m' Hm']. now apply (IH _ m').
Qed.

Lemma updates_snoc (d : DiscoBall) (dts : list R) (dt : R) :
  updates d (dts ++ [dt]) = updateRotation (updates d dts) dt.
Proof. now rewrite updates_app. Qed.

Lemma updates_settled (dts : list R) (d : DiscoBall) :
  rotationSpeed d = targetRotationSpeed d ->
  rotationSpeed (updates d dts) = rotationSpeed d.
Proof.
  revert d. induction dts as [|dt dts IH]; intros d E; [reflexivity|].
  change (updates d (dt :: dts)) with (updates (updateRotation d dt) dts).
  assert (Es : rotationSpeed (updateRotation d dt) = rotationSpeed d).
  { rewrite updateRotation_speed. destruct (mesh d); [|reflexivity].
    now apply updateRotationSpeed_settled. }
  rewrite IH; [exact Es|]. now rewrite Es, updateRotation_target.
Qed.

(** X8.  [setRotationSpeedImmediate(s)] stores the clamp of [s] as both
    the speed and the target; the ball is then not in transition, and no
    sequence of [updateRotation] calls changes the speed again. *)
Theorem setRotationSpeedImmediate_settles (d : DiscoBall) (s : R) (dts : list R) :
  let d' := setRotationSpeedImmediate d s in
  rotationSpeed d' = clampSpeed (rotationConfig d) s /\
  targetRotationSpeed d' = clampSpeed (rotationConfig d) s /\
  isTransitioning (getRotationState d') = false /\
  rotationSpeed (updates d' dts) = clampSpeed (rotationConfig d) s.
Proof.
  cbv zeta. split; [reflexivity|]. split; [reflexivity|]. split.
  - unfold getRotationState, setRotationSpeedImmediate;
      cbn [isTransitioning rotationSpeed targetRotationSpeed].
    destruct (Rlt_dec _ _) as [H|_]; [|reflexivity].
    exfalso. revert H. unfold Rminus. rewrite Rplus_opp_r, Rabs_R0. lra.
  - now rewrite updates_settled.
Qed.

(** One frame shrinks the distance to the target by the factor
    [1 - min(rate * deltaTime * 0.001, 1)], or closes it. *)
Lemma updateRotation_error (d : DiscoBall) (m : Mesh) (dt : R) :
  mesh d = Some m ->
  0 <= speedTransitionRate (rotationConfig d) -> 0 <= dt ->
  let q := 1 - Rmin (speedTransitionRate (rotationConfig d) * (dt * 0.001)) 1.0 in
  Rabs (rotationSpeed (updateRotation d dt) - targetRotationSpeed d)
  <= q * Rabs (rotationSpeed d - targetRotationSpeed d) /\
  (Rabs (rotationSpeed d - targetRotationSpeed d) <= 0.01 ->
   rotationSpeed (updateRotation d dt) = targetRotationSpeed d).
Proof.
  intros Hm Hr Hdt q.
  pose proof (transition_factor_range d dt Hr Hdt) as Hf.
  rewrite updateRotation_speed, Hm.
  unfold updateRotationSpeed, lerp; cbn [rotationSpeed].
  assert (Hq : 0 <= q) by (subst q; lra).
  destruct (Rlt_dec _ _) as [Hbig|Hsmall].
  - split; [|lra].
    replace ((1 - Rmin (speedTransitionRate (rotationConfig d) * (dt * 0.001)) 1.0)
               * rotationSpeed d
             + Rmin (speedTransitionRate (rotationConfig d) * (dt * 0.001)) 1.0
               * targetRotationSpeed d - targetRotationSpeed d)
      with (q * (rotationSpeed d - targetRotationSpeed d)) by (subst q; ring).
    rewrite Rabs_mult, (Rabs_pos_eq q Hq). lra.
  - split; [|reflexivity].
    unfold Rminus. rewrite Rplus_opp_r, Rabs_R0.
    apply Rmult_le_pos; [exact Hq | apply Rabs_pos].
Qed.

Lemma repeat_snoc {A : Type} (a : A) (n : nat) :
  repeat a (S n) = repeat a n ++ [a].
Proof. induction n as [|n IH]; [reflexivity|]. simpl in *. now rewrite <- IH. Qed.

Lemma updates_repeat_error (d : DiscoBall) (m : Mesh) (dt : R) (n : nat) :
  mesh d = Some m ->
  0 <= speedTransitionRate (rotationConfig d) -> 0 <= dt ->
  let q := 1 - Rmin (speedTransitionRate (rotationConfig d) * (dt * 0.001)) 1.0 in
  Rabs (rotationSpeed (updates d (repeat dt n)) - targetRotationSpeed d)
  <= q ^ n * Rabs (rotationSpeed d - targetRotationSpeed d).
Proof.
  intros Hm Hr Hdt q.
  pose proof (transition_factor_range d dt Hr Hdt) as Hf.
  assert (Hq : 0 <= q) by (subst q; lra).
  induction n as [|n IH].
  - simpl. unfold updates; simpl. lra.
  - rewrite repeat_snoc, updates_snoc.
    destruct (updates_mesh (repeat dt n) d m Hm) as [m' Hm'].
    pose proof (updateRotation_error (updates d (repeat dt n)) m' dt Hm') as Hstep.
    rewrite updates_config, updates_target in Hstep.
    destruct (Hstep Hr Hdt) as [Hstep' _]. fold q in Hstep'.
    simpl pow.
    apply Rle_trans with (1 := Hstep').
    rewrite Rmult_assoc. apply Rmult_le_compat_l; assumption.
Qed.

(** X9.  Smoothing ends: on a ball with its mesh and a positive
    transition rate, repeating [updateRotation(deltaTime)] with the same
    positive [deltaTime] brings the speed onto the target exactly after
    finitely many frames, and it stays there ([isTransitioning] is false
    from then on). *)
Theorem smoothing_reaches_target (d : DiscoBall) (m : Mesh) (dt : R) :
  mesh d = Some m ->
  0 < speedTransitionRate (rotationConfig d) -> 0 < dt ->
  exists N : nat, forall n : nat, (N <= n)%nat ->
    rotationSpeed (updates d (repeat dt n)) = targetRotationSpeed d /\
    isTransitioning (getRotationState (updates d (repeat dt n))) = false.
Proof.
  intros Hm Hr Hdt.
  set (q := 1 - Rmin (speedTransitionRate (rotationConfig d) * (dt * 0.001)) 1.0).
  pose proof (transition_factor_range d dt (Rlt_le _ _ Hr) (Rlt_le _ _ Hdt)) as Hf.
  assert (Hfpos : 0 < Rmin (speedTransitionRate (rotationConfig d) * (dt * 0.001)) 1.0).
  { apply Rmin_glb_lt; [|lra]. apply Rmult_lt_0_compat; lra. }
  assert (Hq : 0 <= q < 1) by (subst q; lra).
  set (e0 := Rabs (rotationSpeed d - targetRotationSpeed d)).
  assert (He0 : 0 <= e0) by apply Rabs_pos.
  destruct (pow_lt_1_zero q) with (y := 0.01 / (e0 + 1)) as [N0 HN0].
  - rewrite Rabs_pos_eq; lra.
  - apply Rdiv_lt_0_compat; lra.
  - assert (Hsettle : forall n, (S N0 <= n)%nat ->
              rotationSpeed (updates d (repeat dt n)) = targetRotationSpeed d).
    { intros n Hn. destruct n as [|n]; [lia|].
      rewrite repeat_snoc, updates_snoc.
      destruct (updates_mesh (repeat dt n) d m Hm) as [m' Hm'].
      pose proof (updateRotation_error (updates d (repeat dt n)) m' dt Hm') as Hstep.
      rewrite updates_config, updates_target in Hstep.
      destruct (Hstep (Rlt_le _ _ Hr) (Rlt_le _ _ Hdt)) as [_ Hsnap].
      apply Hsnap.
      pose proof (updates_repeat_error d m dt n Hm (Rlt_le _ _ Hr) (Rlt_le _ _ Hdt))
        as Herr.
      cbv zeta in Herr. fold q e0 in Herr.
      specialize (HN0 n ltac:(lia)).
      rewrite Rabs_pos_eq in HN0 by (apply pow_le; lra).
      assert (Hpow : 0 <= q ^ n) by (apply pow_le; lra).
      assert (Hbound : q ^ n * (e0 + 1) < 0.01).
      { apply (Rmult_lt_compat_r (e0 + 1)) in HN0; [|lra].
        unfold Rdiv in HN0. rewrite Rmult_assoc, Rinv_l in HN0 by lra. lra. }
      nra. }
    exists (S N0). intros n Hn. split; [now apply Hsettle|].
    unfold getRotationState; cbn [isTransitioning].
    rewrite updates_target, (Hsettle n Hn).
    destruct (Rlt_dec _ _) as [H|_]; [|reflexivity].
    exfalso. revert H. unfold Rminus. rewrite Rplus_opp_r, Rabs_R0. lra.
Qed.

Lemma smoothing_reaches_target_witness :
  exists N : nat, forall n : nat, (N <= n)%nat ->
    rotationSpeed (updates (setRotationSpeed (DiscoBall_new noConfig) 3)
                           (repeat 16 n))
    = targetRotationSpeed (setRotationSpeed (DiscoBall_new noConfig) 3) /\
    isTransitioning
      (getRotationState (updates (setRotationSpeed (DiscoBall_new noConfig) 3)
                                 (repeat 16 n))) = false.
Proof.
  apply (smoothing_reaches_target (setRotationSpeed (DiscoBall_new noConfig) 3)
           (Mesh_position_set Mesh_new (mkVector3 0 0 0)) 16).
  - reflexivity.
  - simpl. lra.
  - lra.
Defined.

(** ** The rotation controller: the angles along a run *)

Lemma applyOp_mesh (d : DiscoBall) (op : RotationOp) (m : Mesh) :
  mesh d = Some m -> exists m', mesh (applyOp d op) = Some m'.
Proof.
  intros Hm. destruct op; simpl; try (now exists m).
  now apply (updateRotation_mesh d m).
Qed.

Lemma runOps_mesh (ops : list RotationOp) (d : DiscoBall) (m : Mesh) :
  mesh d = Some m -> exists m', mesh (runOps d ops) = Some m'.
Proof.
  revert d m. induction ops as [|op ops IH]; intros d m Hm; [exists m; exact Hm|].
  change (runOps d (op :: ops)) with (runOps (applyOp d op) ops).
  destruct (applyOp_mesh d op m Hm) as [m' Hm']. now apply (IH _ m').
Qed.

Lemma applyOp_direction (d : DiscoBall) (op : RotationOp) :
  rotationDirection d = 1 \/ rotationDirection d = -1 ->
  rotationDirection (applyOp d op) = 1 \/ rotationDirection (applyOp d op) = -1.
Proof.
  intros H. destruct op as [s|s|dir| | |dt|c]; simpl; try exact H.
  - destruct (Rlt_dec 0 dir); [now left | now right].
  - unfold updateRotation. destruct (mesh d); exact H.
Qed.

Lemma runOps_direction (ops : list RotationOp) (d : DiscoBall) :
  rotationDirection d = 1 \/ rotationDirection d = -1 ->
  rotationDirection (runOps d ops) = 1 \/ rotationDirection (runOps d ops) = -1.
Proof.
  revert d. induction ops as [|op ops IH]; intros d H; [exact H|].
  change (runOps d (op :: ops)) with (runOps (applyOp d op) ops).
  now apply IH, applyOp_direction.
Qed.

Lemma runOps_snoc (d : DiscoBall) (ops : list RotationOp) (op : RotationOp) :
  runOps d (ops ++ [op]) = applyOp (runOps d ops) op.
Proof. unfold runOps. now rewrite fold_left_app. Qed.

(** X10.  The ball keeps turning.  In any state reached from the
    constructor through calls that keep the speed bounds, the direction
    is [1] or [-1], and one more [updateRotation(deltaTime)] with
    [deltaTime > 0] moves the yaw by at least [0.1 * deltaTime * 0.001]
    in that direction: forwards for [1], backwards for [-1]. *)
Theorem yaw_advances (c : ConfigArg) (ops : list RotationOp) (dt : R) :
  Forall keepsBounds ops -> 0 < dt ->
  let b := runOps (DiscoBall_new c) ops in
  let b' := updateRotation b dt in
  (rotationDirection b = 1 \/ rotationDirection b = -1) /\
  (rotationDirection b = 1 ->
   vy (currentRotation b) + 0.1 * dt * 0.001 <= vy (currentRotation b')) /\
  (rotationDirection b = -1 ->
   vy (currentRotation b') <= vy (currentRotation b) - 0.1 * dt * 0.001).
Proof.
  intros Hall Hdt b b'.
  assert (Hdir : rotationDirection b = 1 \/ rotationDirection b = -1).
  { apply runOps_direction. now left. }
  destruct (runOps_mesh ops (DiscoBall_new c) _ eq_refl) as [m Hm]. fold b in Hm.
  assert (Hall' : Forall keepsBounds (ops ++ [OpUpdate dt])).
  { apply Forall_app. split; [exact Hall|]. repeat constructor. simpl. lra. }
  destruct (runOps_invariant _ (DiscoBall_new c) Hall' (DiscoBall_new_invariant c))
    as ((_ & _ & Hs & _) & Emin & _).
  rewrite runOps_snoc in Hs, Emin. fold b in Hs, Emin.
  change (applyOp b (OpUpdate dt)) with b' in Hs, Emin.
  rewrite Emin, DiscoBall_new_rotationConfig in Hs.
  cbn [minSpeed defaultRotationConfig] in Hs. destruct Hs as [Hs _].
  assert (Hy : vy (currentRotation b')
               = vy (currentRotation b)
                 + rotationSpeed b' * rotationDirection b * dt * 0.001).
  { subst b'. unfold updateRotation. rewrite Hm.
    cbn [currentRotation rotationSpeed vy]. reflexivity. }
  split; [exact Hdir|]. split; intros E; rewrite Hy, E; nra.
Qed.

Lemma yaw_advances_witness :
  let b := runOps (DiscoBall_new noConfig) [OpSetSpeed 3; OpUpdate 16] in
  rotationDirection b = 1 \/ rotationDirection b = -1.
Proof.
  apply (yaw_advances noConfig [OpSetSpeed 3; OpUpdate 16] 16).
  - repeat constructor; simpl; lra.
  - lra.
Defined.

Lemma applyOp_pitch (d : DiscoBall) (op : RotationOp) :
  keepsXAxisFactor op ->
  vx (currentRotation d) = xAxisFactor (rotationConfig d) * vy (currentRotation d) ->
  xAxisFactor (rotationConfig (applyOp d op)) = xAxisFactor (rotationConfig d) /\
  vx (currentRotation (applyOp d op))
  = xAxisFactor (rotationConfig d) * vy (currentRotation (applyOp d op)).
Proof.
  intros Hop Hx.
  destruct op as [s|s|dir| | |deltaTime|c]; simpl in *;
    try (split; [reflexivity | exact Hx]).
  - unfold updateRotation. destruct (mesh d); [|split; [reflexivity | exact Hx]].
    cbn [rotationConfig currentRotation vx vy]. split; [reflexivity|].
    change (currentRotation (updateRotationSpeed d deltaTime))
      with (currentRotation d).
    change (rotationConfig (updateRotationSpeed d deltaTime))
      with (rotationConfig d).
    rewrite Hx. ring.
  - rewrite Hop. split; [reflexivity | exact Hx].
Qed.

(** X11.  Pitch is tied to yaw.  As long as no [setRotationConfig] call
    sets [xAxisFactor], the pitch kept in [currentRotation.x] is always
    [0.1] times the yaw kept in [currentRotation.y], whatever calls and
    frame times produced them. *)
Theorem pitch_follows_yaw (c : ConfigArg) (ops : list RotationOp) :
  Forall keepsXAxisFactor ops ->
  let b := runOps (DiscoBall_new c) ops in
  vx (currentRotation b) = 0.1 * vy (currentRotation b).
Proof.
  intros Hall.
  assert (H : forall d,
             xAxisFactor (rotationConfig d) = 0.1 ->
             vx (currentRotation d) = 0.1 * vy (currentRotation d) ->
             vx (currentRotation (runOps d ops))
             = 0.1 * vy (currentRotation (runOps d ops))).
  { induction Hall as [|op ops Hop Hall IH]; intros d Hf Hx; [exact Hx|].
    change (runOps d (op :: ops)) with (runOps (applyOp d op) ops).
    rewrite <- Hf in Hx.
    destruct (applyOp_pitch d op Hop Hx) as [Ef Ex]. rewrite Hf in Ef, Ex.
    now apply IH. }
  apply H; [reflexivity | simpl; ring].
Qed.

Lemma pitch_follows_yaw_witness :
  let b := runOps (DiscoBall_new noConfig)
                  [OpUpdate 16; OpSetDirection (-1); OpUpdate 40] in
  vx (currentRotation b) = 0.1 * vy (currentRotation b).
Proof.
  apply (pitch_follows_yaw noConfig
           [OpUpdate 16; OpSetDirection (-1); OpUpdate 40]).
  repeat constructor.
Defined.

(** ** The beam system: the rainbow palette *)

Module LightBeamSystemRuns.

Import LightBeamSystem LightBeamSystemOps LightBeamSystemFacts.

Lemma Zfloor_or_Zceil (a : R) :
  exists k : Z,
    (if Rle_dec 0 a then IZR (Zfloor a) else IZR (Zceil a)) = IZR k.
Proof. destruct (Rle_dec 0 a); eexists; reflexivity. Qed.

(** The double remainder of [getRainbowColor] is the fractional part of
    [t], for negative [t] as well. *)
Lemma normalizedT_frac (t : R) :
  js_rem (js_rem t 1.0 + 1.0) 1.0 = t - IZR (Zfloor t).
Proof.
  pose proof (normalizedT_range t) as Hrange.
  assert (Hk : exists k : Z, js_rem (js_rem t 1.0 + 1.0) 1.0 = t - IZR k).
  { rewrite (js_rem_one (js_rem t 1.0 + 1.0)), (js_rem_one t).
    destruct (Zfloor_or_Zceil t) as [k1 ->].
    destruct (Zfloor_or_Zceil (t - IZR k1 + 1.0)) as [k2 ->].
    exists (k1 + k2 - 1)%Z. rewrite minus_IZR, plus_IZR. lra. }
  destruct Hk as [k Hk]. rewrite Hk in *.
  f_equal. f_equal. symmetry. apply Zfloor_eq. lra.
Qed.

Lemma Color_clone_id (c : Color) : Color_clone c = c.
Proof. now destruct c. Qed.

Lemma Color_lerp_zero (a b : Color) : Color_lerp a b 0 = a.
Proof. destruct a; unfold Color_lerp; simpl. f_equal; ring. Qed.

Lemma Zceil_cases (x : R) :
  (IZR (Zfloor x) = x /\ Zceil x = Zfloor x) \/
  (IZR (Zfloor x) < x /\ Zceil x = (Zfloor x + 1)%Z).
Proof.
  pose proof (Zfloor_bound x) as Hf.
  destruct (Req_dec_T (IZR (Zfloor x)) x) as [E|Hne].
  - left. split; [exact E|]. apply Zceil_eq. lra.
  - right. split; [lra|]. apply Zceil_eq. rewrite plus_IZR. lra.
Qed.

(** X12.  [getRainbowColor(t)] is the piecewise-linear walk through the
    seven palette colours, read at the fractional part [u] of [t]: with
    [k] the integer part of [6 * u], which is at most five, the result
    is the blend of palette colour [k] towards palette colour [k + 1] by
    [6 * u - k].  The index never leaves the palette, and the last colour
    is only approached, never passed: the walk does not close back onto
    the first colour. *)
Theorem getRainbowColor_piecewise (t : R) :
  let u := t - IZR (Zfloor t) in
  let k := Z.to_nat (Zfloor (u * 6)) in
  0 <= u < 1 /\ (k <= 5)%nat /\ 0 <= u * 6 - INR k < 1 /\
  getRainbowColor t
  = Color_lerp (nth k rainbowColors white) (nth (S k) rainbowColors white)
               (u * 6 - INR k).
Proof.
  intros u k.
  pose proof (Zfloor_bound t) as Ht.
  assert (Hu : 0 <= u < 1) by (subst u; lra).
  pose proof (Zfloor_bound (u * 6)) as Hf.
  assert (Hf0 : (0 <= Zfloor (u * 6))%Z) by (apply Zfloor_lub; simpl; lra).
  assert (Hf6 : (Zfloor (u * 6) < 6)%Z) by (apply lt_IZR; lra).
  assert (Hk : INR k = IZR (Zfloor (u * 6))).
  { subst k. rewrite INR_IZR_INZ, Z2Nat.id by exact Hf0. reflexivity. }
  split; [exact Hu|]. split; [subst k; lia|]. split; [rewrite Hk; lra|].
  unfold getRainbowColor. rewrite normalizedT_frac. fold u.
  replace (INR (List.length rainbowColors) - 1) with 6 by (simpl; lra).
  fold k. rewrite Hk.
  change (Z.of_nat (List.length rainbowColors)) with 7%Z.
  rewrite Color_clone_id.
  destruct (Zceil_cases (u * 6)) as [[Eint Ec]|[Hlt Ec]]; rewrite Ec.
  - replace (u * 6 - IZR (Zfloor (u * 6))) with 0 by lra.
    now rewrite !Color_lerp_zero.
  - rewrite Z.rem_small by lia.
    replace (Z.to_nat (Zfloor (u * 6) + 1)) with (S k) by (subst k; lia).
    reflexivity.
Qed.

(** X13.  The rainbow colour depends on the fractional part of its
    argument only: shifting [t] by any whole number, negative ones
    included, gives the same colour. *)
Theorem getRainbowColor_periodic (t : R) (z : Z) :
  getRainbowColor (t + IZR z) = getRainbowColor t.
Proof.
  unfold getRainbowColor. rewrite !normalizedT_frac, Zfloor_addz, plus_IZR.
  replace (t + IZR z - (IZR (Zfloor t) + IZR z)) with (t - IZR (Zfloor t)) by ring.
  reflexivity.
Qed.


(** ** The beam system: what one update does to a beam *)

(** The outcome of [updateColors] on one beam, in every mode: the colour
    is blended by [0.05] towards a target that is the rainbow colour, the
    beam's previous random target, or white; the random target is kept or
    re-rolled by [setHSL]; between zero and two random numbers are
    drawn. *)
Lemma updateColors_beam_shape (mode : string) (time : R) (beam : Beam)
    (g : Random) :
  exists targetColor target' g',
    updateColors_beam mode time beam g
    = (mkBeam (beam_id beam) (beam_mesh beam)
              (mkUniforms (Color_lerp (currentColor beam) targetColor 0.05)
                          (u_opacity (material beam))
                          (u_intensity (material beam))
                          (u_time (material beam)))
              (hole beam) (baseColor beam)
              (Color_lerp (currentColor beam) targetColor 0.05)
              (colorOffset beam) target',
       g') /\
    (targetColor = getRainbowColor (colorOffset beam + time) \/
     targetColor = randomColorTarget beam \/ targetColor = white) /\
    (target' = randomColorTarget beam \/ exists h, target' = setHSL h 1.0 0.5) /\
    draws g' = draws g /\
    (mode = "random"%string ->
     (taken g + 1 <= taken g' <= taken g + 2)%nat) /\
    (mode <> "random"%string -> g' = g).
Proof.
  unfold updateColors_beam.
  destruct (String.eqb mode "rainbow") eqn:E1.
  { apply String.eqb_eq in E1. subst mode.
    do 3 eexists. split; [reflexivity|].
    split; [now left|]. split; [now left|]. split; [reflexivity|].
    split; [intros Habs; discriminate | reflexivity]. }
  destruct (String.eqb mode "random") eqn:E2.
  - apply String.eqb_eq in E2. subst mode. unfold Math_random.
    rewrite Color_clone_id.
    destruct (Rlt_dec (draws g (taken g)) 0.01) as [Hroll|Hkeep].
    + do 3 eexists. split; [reflexivity|].
      split; [right; now left|]. split; [right; eexists; reflexivity|].
      split; [reflexivity|]. split; [intros _; simpl; lia|].
      intros Habs. now contradiction Habs.
    + do 3 eexists. split; [reflexivity|].
      split; [right; now left|]. split; [now left|].
      split; [reflexivity|]. split; [intros _; simpl; lia|].
      intros Habs. now contradiction Habs.
  - do 3 eexists. split; [reflexivity|].
    split; [right; now right|]. split; [now left|]. split; [reflexivity|].
    split; [|reflexivity]. intros Habs. subst mode. discriminate.
Qed.

(** What [syncWithDiscoBall] leaves alone in a beam. *)
Lemma sync_beam_shape (discoBallMesh : Mesh) (hs : list Hole) (index : nat)
    (beam : Beam) :
  exists mesh',
    sync_beam discoBallMesh hs index beam
    = mkBeam (beam_id beam) mesh' (material beam) (hole beam) (baseColor beam)
             (currentColor beam) (colorOffset beam) (randomColorTarget beam).
Proof.
  unfold sync_beam. destruct (nth_error hs index).
  - eexists. reflexivity.
  - exists (beam_mesh beam). now destruct beam.
Qed.

(** A property of beams that holds before [updateColors] carries over, as
    long as one step on one beam carries it over. *)
Lemma updateColors_loop_Forall (P Q : Beam -> Prop) (mode : string) (time : R) :
  (forall b g, P b -> Q (fst (updateColors_beam mode time b g))) ->
  forall bs g, Forall P bs -> Forall Q (fst (updateColors_loop mode time bs g)).
Proof.
  intros Hstep bs. induction bs as [|b bs IH]; intros g Hall; [constructor|].
  inversion Hall as [|? ? Hb Hrest]; subst. cbn [updateColors_loop].
  pose proof (Hstep b g Hb) as Hq.
  destruct (updateColors_beam mode time b g) as [b' g1].
  specialize (IH g1 Hrest).
  destruct (updateColors_loop mode time bs g1) as [rest g2].
  cbn [fst] in *. now constructor.
Qed.

Lemma sync_loop_Forall (P : Beam -> Prop) (discoBallMesh : Mesh)
    (hs : list Hole) :
  (forall b index, P b -> P (sync_beam discoBallMesh hs index b)) ->
  forall bs index, Forall P bs -> Forall P (sync_loop discoBallMesh hs index bs).
Proof.
  intros Hstep bs. induction bs as [|b bs IH]; intros index Hall; [constructor|].
  inversion Hall as [|? ? Hb Hrest]; subst. cbn [sync_loop].
  constructor; [now apply Hstep | now apply IH].
Qed.

Lemma syncWithDiscoBall_Forall (P : Beam -> Prop) (ball : option DiscoBall)
    (s : LightBeamSystem.t) :
  (forall b m hs index, P b -> P (sync_beam m hs index b)) ->
  Forall P (beams s) -> Forall P (beams (syncWithDiscoBall ball s)).
Proof.
  intros Hstep Hall. unfold syncWithDiscoBall.
  destruct ball as [b|]; [|exact Hall]. destruct (getMesh b); [|exact Hall].
  cbn [beams]. apply sync_loop_Forall; [|exact Hall].
  intros; now apply Hstep.
Qed.

Lemma createBeams_loop_Forall (P : Beam -> Prop) (cfg : LightBeamSystem.Config)
    (total : nat) :
  (forall index h g, P (fst (createBeam cfg total index h g))) ->
  forall hs index g, Forall P (fst (createBeams_loop cfg total index hs g)).
Proof.
  intros Hstep hs. induction hs as [|h hs IH]; intros index g; [constructor|].
  cbn [createBeams_loop].
  pose proof (Hstep index h g) as Hp.
  destruct (createBeam cfg total index h g) as [b g1].
  specialize (IH (S index) g1).
  destruct (createBeams_loop cfg total (S index) hs g1) as [bs g2].
  cbn [fst] in *. now constructor.
Qed.

(** [update] and the constructor, with their pairs opened. *)
Lemma update_unfold (ball : option DiscoBall) (s : LightBeamSystem.t)
    (deltaTime : R) (g : Random) :
  let time := colorTime s
              + animationSpeed (LightBeamSystem.config s) * (deltaTime * 0.001) in
  let timed :=
    map (fun beam =>
           mkBeam (beam_id beam) (beam_mesh beam)
                  (mkUniforms (u_color (material beam)) (u_opacity (material beam))
                              (u_intensity (material beam)) time)
                  (hole beam) (baseColor beam) (currentColor beam)
                  (colorOffset beam) (randomColorTarget beam))
        (beams s) in
  let loop := updateColors_loop (colorMode (LightBeamSystem.config s)) time timed g in
  update ball s deltaTime g
  = (syncWithDiscoBall ball
       (mkLightBeamSystem (LightBeamSystem.config s) (fst loop) time),
     snd loop).
Proof.
  cbv zeta. unfold update, updateColors.
  cbn [LightBeamSystem.config beams colorTime].
  destruct (updateColors_loop _ _ _ g) as [bs g']. reflexivity.
Qed.

Lemma new_unfold (ball : DiscoBall) (c : LightBeamSystem.ConfigArg) (g : Random) :
  let cfg := LightBeamSystem.mkConfig
               (or_default (arg_beamLength c) 8)
               (or_default (arg_beamOpacity c) 0.8)
               (or_default (arg_beamIntensity c) 2.0)
               (or_default (arg_colorMode c) "rainbow"%string)
               (or_default (arg_animationSpeed c) 0.02) in
  let created :=
    createBeams_loop cfg (List.length (getHoles ball)) 0 (getHoles ball) g in
  let loop := updateColors_loop (colorMode cfg) 0 (fst created) (snd created) in
  LightBeamSystem.new ball c g = (mkLightBeamSystem cfg (fst loop) 0, snd loop).
Proof.
  cbv zeta. unfold LightBeamSystem.new, updateColors.
  destruct (createBeams_loop _ _ _ _ g) as [bs g1].
  cbn [LightBeamSystem.config beams colorTime fst snd].
  destruct (updateColors_loop _ _ bs g1) as [bs' g2]. reflexivity.
Qed.

Lemma syncWithDiscoBall_fields (ball : option DiscoBall) (s : LightBeamSystem.t) :
  LightBeamSystem.config (syncWithDiscoBall ball s) = LightBeamSystem.config s /\
  colorTime (syncWithDiscoBall ball s) = colorTime s.
Proof.
  unfold syncWithDiscoBall. destruct ball as [b|]; [|now split].
  destruct (getMesh b); now split.
Qed.

Lemma update_fields (ball : option DiscoBall) (s : LightBeamSystem.t)
    (deltaTime : R) (g : Random) :
  LightBeamSystem.config (fst (update ball s deltaTime g))
  = LightBeamSystem.config s /\
  colorTime (fst (update ball s deltaTime g))
  = colorTime s + animationSpeed (LightBeamSystem.config s) * (deltaTime * 0.001).
Proof.
  rewrite update_unfold. cbn [fst].
  match goal with
  | |- context [syncWithDiscoBall ball ?x] =>
      destruct (syncWithDiscoBall_fields ball x) as [E1 E2]
  end.
  rewrite E1, E2. now split.
Qed.

(** The uniforms of a beam after one colour step, given what they were. *)
Lemma updateColors_beam_mirror (mode : string) (time : R) (o i t : R)
    (b : Beam) (g : Random) :
  (u_opacity (material b) = o /\ u_intensity (material b) = i
   /\ u_time (material b) = t) ->
  let b' := fst (updateColors_beam mode time b g) in
  u_color (material b') = currentColor b' /\
  u_opacity (material b') = o /\ u_intensity (material b') = i /\
  u_time (material b') = t.
Proof.
  intros (Ho & Hi & Ht).
  destruct (updateColors_beam_shape mode time b g) as (tc & tg & g' & E & _).
  rewrite E. cbn [fst material currentColor u_color u_opacity u_intensity u_time].
  now repeat split.
Qed.

Lemma sync_beam_mirror (P : Color -> Color -> R -> R -> R -> Prop)
    (m : Mesh) (hs : list Hole) (index : nat) (b : Beam) :
  P (u_color (material b)) (currentColor b) (u_opacity (material b))
    (u_intensity (material b)) (u_time (material b)) ->
  let b' := sync_beam m hs index b in
  P (u_color (material b')) (currentColor b') (u_opacity (material b'))
    (u_intensity (material b')) (u_time (material b')).
Proof.
  intros H. destruct (sync_beam_shape m hs index b) as [mesh' E].
  cbv zeta. rewrite E. exact H.
Qed.

Lemma new_mirror (ball : DiscoBall) (c : LightBeamSystem.ConfigArg) (g : Random) :
  uniformsMirror (fst (LightBeamSystem.new ball c g)).
Proof.
  rewrite new_unfold. cbn [fst]. unfold uniformsMirror.
  cbn [beams LightBeamSystem.config colorTime].
  match goal with
  | |- Forall _ (fst (updateColors_loop ?mode ?time ?bs ?g0)) =>
      apply (updateColors_loop_Forall
               (fun b => u_opacity (material b) = or_default (arg_beamOpacity c) 0.8
                         /\ u_intensity (material b)
                            = or_default (arg_beamIntensity c) 2.0
                         /\ u_time (material b) = 0))
  end.
  - intros b g0 Hb. cbn [beamOpacity beamIntensity].
    now apply updateColors_beam_mirror.
  - apply createBeams_loop_Forall. intros index h g0.
    unfold createBeam, Math_random.
    cbn [fst material u_opacity u_intensity u_time beamOpacity beamIntensity].
    repeat split. lra.
Qed.

Lemma applyBeamOp_mirror (sg : LightBeamSystem.t * Random) (op : BeamOp) :
  uniformsMirror (fst sg) -> uniformsMirror (fst (applyBeamOp sg op)).
Proof.
  destruct sg as [s g]. cbn [fst]. intros Hm.
  destruct op as [ball dt|mode|v|v|v]; cbn [applyBeamOp fst snd].
  - destruct (update_fields ball s dt g) as [Ec Et].
    unfold uniformsMirror. rewrite Ec, Et. rewrite update_unfold. cbn [fst].
    apply syncWithDiscoBall_Forall.
    { intros b m hs index Hb.
      apply (sync_beam_mirror
               (fun uc cc uo ui ut =>
                  uc = cc /\ uo = beamOpacity (LightBeamSystem.config s)
                  /\ ui = beamIntensity (LightBeamSystem.config s)
                  /\ ut = colorTime s
                          + animationSpeed (LightBeamSystem.config s)
                            * (dt * 0.001))).
      exact Hb. }
    cbn [beams].
    match goal with
    | |- Forall _ (fst (updateColors_loop ?mode ?time ?bs ?g0)) =>
        apply (updateColors_loop_Forall
                 (fun b => u_opacity (material b)
                           = beamOpacity (LightBeamSystem.config s)
                           /\ u_intensity (material b)
                              = beamIntensity (LightBeamSystem.config s)
                           /\ u_time (material b) = time))
    end.
    + intros b g0 Hb. now apply updateColors_beam_mirror.
    + apply Forall_forall. intros b' Hin.
      apply in_map_iff in Hin as (b & <- & Hb).
      unfold uniformsMirror in Hm. rewrite Forall_forall in Hm.
      destruct (Hm b Hb) as (_ & Ho & Hi & _).
      cbn [material u_opacity u_intensity u_time]. now repeat split.
  - unfold setColorMode.
    destruct (existsb _ _); [|exact Hm].
    unfold uniformsMirror in *.
    cbn [beams LightBeamSystem.config colorTime beamOpacity beamIntensity].
    exact Hm.
  - unfold uniformsMirror, setIntensity in *.
    cbn [beams LightBeamSystem.config colorTime beamOpacity beamIntensity].
    apply Forall_forall. intros b' Hin.
    apply in_map_iff in Hin as (b & <- & Hb).
    rewrite Forall_forall in Hm. destruct (Hm b Hb) as (Hc & Ho & _ & Ht).
    unfold withIntensity.
    cbn [material currentColor u_color u_opacity u_intensity u_time].
    now repeat split.
  - unfold uniformsMirror, setOpacity in *.
    cbn [beams LightBeamSystem.config colorTime beamOpacity beamIntensity].
    apply Forall_forall. intros b' Hin.
    apply in_map_iff in Hin as (b & <- & Hb).
    rewrite Forall_forall in Hm. destruct (Hm b Hb) as (Hc & _ & Hi & Ht).
    unfold withOpacity.
    cbn [material currentColor u_color u_opacity u_intensity u_time].
    now repeat split.
  - unfold uniformsMirror, setAnimationSpeed in *.
    cbn [beams LightBeamSystem.config colorTime beamOpacity beamIntensity].
    exact Hm.
Qed.

Lemma runBeamOps_snoc (sg : LightBeamSystem.t * Random) (ops : list BeamOp)
    (op : BeamOp) :
  runBeamOps sg (ops ++ [op]) = applyBeamOp (runBeamOps sg ops) op.
Proof. unfold runBeamOps. now rewrite fold_left_app. Qed.

(** X14.  The shader uniforms never drift from the state they are copied
    from.  After the constructor and after any sequence of [update],
    [setColorMode], [setIntensity], [setOpacity] and [setAnimationSpeed]
    calls, every beam's uniforms hold the beam's [currentColor], the
    configured opacity and intensity, and the system's [colorTime]. *)
Theorem uniforms_mirror_state
    (ball : DiscoBall) (c : LightBeamSystem.ConfigArg) (g : Random)
    (ops : list BeamOp) :
  uniformsMirror (fst (runBeamOps (LightBeamSystem.new ball c g) ops)).
Proof.
  induction ops as [|op ops IH] using rev_ind.
  - apply new_mirror.
  - rewrite runBeamOps_snoc. now apply applyBeamOp_mirror.
Qed.

(** ** The beam system: beams and apertures, one to one *)

Lemma updateColors_loop_key (mode : string) (time : R) (bs : list Beam)
    (g : Random) :
  map beamKey (fst (updateColors_loop mode time bs g)) = map beamKey bs.
Proof.
  revert g. induction bs as [|b bs IH]; intros g; [reflexivity|].
  cbn [updateColors_loop].
  destruct (updateColors_beam_shape mode time b g) as (tc & tg & g' & E & _).
  rewrite E. specialize (IH g').
  destruct (updateColors_loop mode time bs g') as [rest g2].
  cbn [fst map] in *. now rewrite IH.
Qed.

Lemma sync_loop_key (m : Mesh) (hs : list Hole) (bs : list Beam) (index : nat) :
  map beamKey (sync_loop m hs index bs) = map beamKey bs.
Proof.
  revert index. induction bs as [|b bs IH]; intros index; [reflexivity|].
  cbn [sync_loop map]. rewrite IH.
  destruct (sync_beam_shape m hs index b) as [mesh' E]. now rewrite E.
Qed.

Lemma applyBeamOp_key (sg : LightBeamSystem.t * Random) (op : BeamOp) :
  map beamKey (beams (fst (applyBeamOp sg op))) = map beamKey (beams (fst sg)).
Proof.
  destruct sg as [s g]. cbn [fst].
  destruct op as [ball dt|mode|v|v|v]; cbn [applyBeamOp fst snd].
  - rewrite update_unfold. cbn [fst]. unfold syncWithDiscoBall.
    assert (Hloop : forall time bs,
              map beamKey
                  (fst (updateColors_loop (colorMode (LightBeamSystem.config s))
                                          time bs g))
              = map beamKey bs) by (intros; apply updateColors_loop_key).
    destruct ball as [b|]; [destruct (getMesh b)|]; cbn [beams];
      rewrite ?sync_loop_key, Hloop, map_map; reflexivity.
  - unfold setColorMode. destruct (existsb _ _); reflexivity.
  - unfold setIntensity. cbn [beams]. now rewrite map_map.
  - unfold setOpacity. cbn [beams]. now rewrite map_map.
  - reflexivity.
Qed.

Lemma createBeams_loop_key (cfg : LightBeamSystem.Config) (total : nat)
    (hs : list Hole) (index : nat) (g : Random) :
  map beamKey (fst (createBeams_loop cfg total index hs g))
  = map (fun ih => (fst ih, snd ih, INR (fst ih) / INR total))
        (combine (seq index (List.length hs)) hs).
Proof.
  revert index g. induction hs as [|h hs IH]; intros index g; [reflexivity|].
  cbn [createBeams_loop]. unfold createBeam at 1, Math_random.
  match goal with
  | |- context [createBeams_loop cfg total (S index) hs ?g1] =>
      specialize (IH (S index) g1);
      destruct (createBeams_loop cfg total (S index) hs g1) as [bs g2]
  end.
  cbn [fst snd map List.length seq combine] in *. now rewrite IH.
Qed.

Lemma runBeamOps_key (ball : DiscoBall) (c : LightBeamSystem.ConfigArg)
    (g : Random) (ops : list BeamOp) :
  map beamKey (beams (fst (runBeamOps (LightBeamSystem.new ball c g) ops)))
  = map (fun ih => (fst ih, snd ih,
                    INR (fst ih) / INR (List.length (getHoles ball))))
        (combine (seq 0 (List.length (getHoles ball))) (getHoles ball)).
Proof.
  induction ops as [|op ops IH] using rev_ind.
  - unfold runBeamOps; cbn [fold_left]. rewrite new_unfold. cbn [fst beams].
    now rewrite updateColors_loop_key, createBeams_loop_key.
  - now rewrite runBeamOps_snoc, applyBeamOp_key.
Qed.

(** X15.  Beams and apertures stay one to one until the system is
    disposed of.  After the constructor and after any sequence of
    [update], [setColorMode], [setIntensity], [setOpacity] and
    [setAnimationSpeed] calls, the beam count equals the number of
    apertures the ball had at construction, and beam [i] still has id
    [i], refers to aperture [i], and has the colour offset [i / count].
    [dispose()] ends this: it empties the beam list, no later call of
    the five fills it again, and the count is zero from then on,
    whatever the number of apertures. *)
Theorem beams_match_apertures
    (ball : DiscoBall) (c : LightBeamSystem.ConfigArg) (g : Random)
    (ops : list BeamOp) :
  let s := fst (runBeamOps (LightBeamSystem.new ball c g) ops) in
  getBeamCount s = List.length (getHoles ball) /\
  (forall (i : nat) (h : Hole),
     nth_error (getHoles ball) i = Some h ->
     exists beam,
       nth_error (beams s) i = Some beam /\
       beam_id beam = i /\ hole beam = h /\
       colorOffset beam = INR i / INR (List.length (getHoles ball))) /\
  (forall (g' : Random) (later : list BeamOp),
     getBeamCount (fst (runBeamOps (dispose s, g') later)) = 0%nat).
Proof.
  intros s. pose proof (runBeamOps_key ball c g ops) as Hkey. fold s in Hkey.
  assert (Hlen : getBeamCount s = List.length (getHoles ball)).
  { unfold getBeamCount. rewrite <- (length_map beamKey), Hkey, length_map.
    rewrite length_combine, length_seq. apply Nat.min_id. }
  split; [exact Hlen|]. split.
  2:{ intros g' later. unfold getBeamCount.
      induction later as [|op later IH] using rev_ind; [reflexivity|].
      rewrite runBeamOps_snoc, <- (length_map beamKey), applyBeamOp_key,
        length_map.
      exact IH. }
  intros i h Hh.
  assert (Hi : (i < List.length (getHoles ball))%nat)
    by (apply nth_error_Some; congruence).
  destruct (nth_error (beams s) i) as [beam|] eqn:Eb.
  2:{ apply nth_error_None in Eb. unfold getBeamCount in Hlen. lia. }
  exists beam. split; [reflexivity|].
  pose proof (map_nth_error beamKey i (beams s) Eb) as Hk. rewrite Hkey in Hk.
  rewrite nth_error_map in Hk.
  assert (Hc : nth_error (combine (seq 0 (List.length (getHoles ball)))
                                  (getHoles ball)) i = Some (i, h)).
  { rewrite <- (Nat.add_0_l i) at 2.
    clear - Hh. generalize 0%nat as start.
    revert i Hh. induction (getHoles ball) as [|x l IH]; intros i Hh start.
    - destruct i; discriminate.
    - destruct i as [|i]; cbn in *.
      + injection Hh as ->. now rewrite Nat.add_0_r.
      + rewrite (IH i Hh (S start)). f_equal. f_equal. lia. }
  rewrite Hc in Hk. cbn in Hk. injection Hk as E1 E2 E3.
  now repeat split.
Qed.

(** ** The beam system: setters *)

(** X16.  [setOpacity(o)] stores the clamp of [o] to [[0, 1]]: [0] for a
    negative [o], [1] for [o] above one, [o] itself otherwise; it writes
    the stored value into the opacity uniform of every beam and changes
    neither the beam count nor any other configuration key. *)
Theorem setOpacity_clamps (s : LightBeamSystem.t) (o : R) :
  let s' := setOpacity s o in
  let c := LightBeamSystem.config s in
  0 <= beamOpacity (LightBeamSystem.config s') <= 1 /\
  (o < 0 -> beamOpacity (LightBeamSystem.config s') = 0) /\
  (1 < o -> beamOpacity (LightBeamSystem.config s') = 1) /\
  (0 <= o <= 1 -> beamOpacity (LightBeamSystem.config s') = o) /\
  Forall (fun b => u_opacity (material b)
                   = beamOpacity (LightBeamSystem.config s')) (beams s') /\
  getBeamCount s' = getBeamCount s /\
  LightBeamSystem.config s'
  = LightBeamSystem.mkConfig (beamLength c)
      (beamOpacity (LightBeamSystem.config s')) (beamIntensity c) (colorMode c)
      (animationSpeed c).
Proof.
  cbv zeta. unfold setOpacity, getBeamCount.
  cbn [LightBeamSystem.config beamOpacity beams].
  split; [unfold Rmax, Rmin; repeat destruct (Rle_dec _ _); lra|].
  split; [intros H; unfold Rmax, Rmin; repeat destruct (Rle_dec _ _); lra|].
  split; [intros H; unfold Rmax, Rmin; repeat destruct (Rle_dec _ _); lra|].
  split; [intros H; unfold Rmax, Rmin; repeat destruct (Rle_dec _ _); lra|].
  split; [|split; [apply length_map | reflexivity]].
  apply Forall_forall. intros b' Hin.
  apply in_map_iff in Hin as (b & <- & _). reflexivity.
Qed.

(** ** The beam system: colour time and random numbers *)

(** The elapsed times of a run of updates, added up. *)
Lemma update_colorTime_step (ball : option DiscoBall) (s : LightBeamSystem.t)
    (dt : R) (g : Random) :
  colorTime (fst (update ball s dt g))
  = colorTime s + animationSpeed (LightBeamSystem.config s) * (dt * 0.001).
Proof. apply update_fields. Qed.

Lemma runUpdates_fields
    (ups : list (option DiscoBall * R)) (s : LightBeamSystem.t) (g : Random) :
  let s' := fst (runBeamOps (s, g)
                   (map (fun bd => BUpdate (fst bd) (snd bd)) ups)) in
  LightBeamSystem.config s' = LightBeamSystem.config s /\
  colorTime s'
  = colorTime s
    + animationSpeed (LightBeamSystem.config s)
      * (fold_right Rplus 0 (map snd ups) * 0.001).
Proof.
  revert s g. induction ups as [|[ball dt] ups IH]; intros s g.
  - cbv zeta. unfold runBeamOps; cbn. split; [reflexivity | ring].
  - cbv zeta. cbn [map fst snd fold_right].
    change (runBeamOps (s, g) (BUpdate ball dt :: ?l))
      with (runBeamOps (update ball s dt g) l).
    destruct (update ball s dt g) as [s1 g1] eqn:E.
    destruct (IH s1 g1) as [Ec Et]. cbv zeta in Ec, Et.
    destruct (update_fields ball s dt g) as [Ec1 Et1].
    rewrite E in Ec1, Et1. cbn [fst] in Ec1, Et1.
    rewrite Ec, Et, Ec1, Et1. split; [reflexivity | ring].
Qed.

(** X18.  Colour time is independent of how elapsed time is cut into
    frames: after any run of [update] calls the colour time has advanced
    by [animationSpeed * 0.001] times the sum of the elapsed times, and
    the configuration is as it was. *)
Theorem colorTime_after_updates
    (ups : list (option DiscoBall * R)) (s : LightBeamSystem.t) (g : Random) :
  let s' := fst (runBeamOps (s, g)
                   (map (fun bd => BUpdate (fst bd) (snd bd)) ups)) in
  LightBeamSystem.config s' = LightBeamSystem.config s /\
  colorTime s'
  = colorTime s
    + animationSpeed (LightBeamSystem.config s)
      * (fold_right Rplus 0 (map snd ups) * 0.001).
Proof. apply runUpdates_fields. Qed.

Lemma sum_nonneg (l : list R) :
  Forall (fun x => 0 <= x) l -> 0 <= fold_right Rplus 0 l.
Proof.
  induction 1 as [|x l Hx _ IH]; cbn [fold_right]; lra.
Qed.

(** X17.  [setIntensity(v)] and [setAnimationSpeed(v)] clamp from below
    only: a negative [v] is stored as [0], any other [v] is stored as it
    is, however large.  [setIntensity] writes the stored value into the
    intensity uniform of every beam and leaves the colours alone;
    [setAnimationSpeed] touches no beam, and after it the colour time
    never runs backwards over updates whose elapsed times are not
    negative. *)
Theorem setIntensity_setAnimationSpeed_floor
    (s : LightBeamSystem.t) (v : R) (g : Random)
    (ups : list (option DiscoBall * R)) :
  (v < 0 -> beamIntensity (LightBeamSystem.config (setIntensity s v)) = 0) /\
  (0 <= v -> beamIntensity (LightBeamSystem.config (setIntensity s v)) = v) /\
  Forall (fun b => u_intensity (material b)
                   = beamIntensity (LightBeamSystem.config (setIntensity s v)))
         (beams (setIntensity s v)) /\
  map currentColor (beams (setIntensity s v)) = map currentColor (beams s) /\
  (v < 0 -> animationSpeed (LightBeamSystem.config (setAnimationSpeed s v)) = 0) /\
  (0 <= v -> animationSpeed (LightBeamSystem.config (setAnimationSpeed s v)) = v) /\
  beams (setAnimationSpeed s v) = beams s /\
  (Forall (fun bd => 0 <= snd bd) ups ->
   colorTime s
   <= colorTime (fst (runBeamOps (setAnimationSpeed s v, g)
                        (map (fun bd => BUpdate (fst bd) (snd bd)) ups)))).
Proof.
  split; [intros H; unfold setIntensity, Rmax;
          cbn [LightBeamSystem.config beamIntensity];
          destruct (Rle_dec _ _); lra|].
  split; [intros H; unfold setIntensity, Rmax;
          cbn [LightBeamSystem.config beamIntensity];
          destruct (Rle_dec _ _); lra|].
  split.
  { unfold setIntensity. cbn [LightBeamSystem.config beamIntensity beams].
    apply Forall_forall. intros b' Hin.
    apply in_map_iff in Hin as (b & <- & _). reflexivity. }
  split; [unfold setIntensity; cbn [beams]; now rewrite map_map|].
  split; [intros H; unfold setAnimationSpeed, Rmax;
          cbn [LightBeamSystem.config animationSpeed];
          destruct (Rle_dec _ _); lra|].
  split; [intros H; unfold setAnimationSpeed, Rmax;
          cbn [LightBeamSystem.config animationSpeed];
          destruct (Rle_dec _ _); lra|].
  split; [reflexivity|].
  intros Hall.
  destruct (runUpdates_fields ups (setAnimationSpeed s v) g) as [_ Et].
  cbv zeta in Et. rewrite Et.
  assert (Hsum : 0 <= fold_right Rplus 0 (map snd ups)).
  { apply sum_nonneg. apply Forall_forall. intros x Hin.
    apply in_map_iff in Hin as (bd & <- & Hbd).
    rewrite Forall_forall in Hall. now apply Hall. }
  assert (Hv : 0 <= animationSpeed (LightBeamSystem.config (setAnimationSpeed s v))).
  { unfold setAnimationSpeed; cbn [LightBeamSystem.config animationSpeed].
    apply Rmax_l. }
  change (colorTime (setAnimationSpeed s v)) with (colorTime s). nra.
Qed.

Lemma updateColors_loop_draws (mode : string) (time : R) (bs : list Beam)
    (g : Random) :
  let g' := snd (updateColors_loop mode time bs g) in
  draws g' = draws g /\
  (mode = "random"%string ->
   (taken g + List.length bs <= taken g' <= taken g + 2 * List.length bs)%nat) /\
  (mode <> "random"%string -> g' = g).
Proof.
  revert g. induction bs as [|b bs IH]; intros g.
  - cbn. repeat split; lia.
  - cbn [updateColors_loop].
    destruct (updateColors_beam_shape mode time b g)
      as (tc & tg & g1 & E & _ & _ & Hd & Hr & Hn).
    rewrite E. specialize (IH g1).
    destruct (updateColors_loop mode time bs g1) as [rest g2].
    cbn [snd List.length] in *. destruct IH as (Hd' & Hr' & Hn').
    split; [congruence|]. split.
    + intros Hm. specialize (Hr Hm). specialize (Hr' Hm). lia.
    + intros Hm. rewrite (Hn' Hm). now apply Hn.
Qed.

(** X19.  Random numbers are drawn in random mode only.  One [update] in
    random mode draws between [n] and [2n] numbers for [n] beams (one per
    beam for the re-roll test, one more for each beam that re-rolls); in
    every other mode the source of random numbers is left untouched. *)
Theorem update_random_draws
    (ball : option DiscoBall) (s : LightBeamSystem.t) (dt : R) (g : Random) :
  let g' := snd (update ball s dt g) in
  draws g' = draws g /\
  (colorMode (LightBeamSystem.config s) = "random"%string ->
   (taken g + getBeamCount s <= taken g' <= taken g + 2 * getBeamCount s)%nat) /\
  (colorMode (LightBeamSystem.config s) <> "random"%string -> g' = g).
Proof.
  cbv zeta. rewrite update_unfold. cbn [snd].
  match goal with
  | |- context [updateColors_loop ?m ?t ?bs g] =>
      pose proof (updateColors_loop_draws m t bs g) as H
  end.
  cbv zeta in H. rewrite length_map in H. exact H.
Qed.

(** X20.  In white mode the colour closes in on white geometrically:
    after [n] updates every component of every beam's colour is at
    [0.95 ^ n] times its initial distance from one, whatever the frame
    times and whatever the ball does in between. *)
Theorem white_mode_fades
    (ups : list (option DiscoBall * R)) (s : LightBeamSystem.t) (g : Random) :
  colorMode (LightBeamSystem.config s) = "white"%string ->
  let s' := fst (runBeamOps (s, g)
                   (map (fun bd => BUpdate (fst bd) (snd bd)) ups)) in
  map currentColor (beams s')
  = map (fun b => fadedToWhite (List.length ups) (currentColor b)) (beams s).
Proof.
  revert s g. induction ups as [|[ball dt] ups IH]; intros s g Hmode.
  - cbv zeta. unfold runBeamOps; cbn [map fold_left fst List.length].
    apply map_ext. intros b. destruct (currentColor b) as [r gg bb].
    unfold fadedToWhite; cbn [cr cg cb pow]. f_equal; lra.
  - cbv zeta. cbn [map fst snd List.length].
    change (runBeamOps (s, g) (BUpdate ball dt :: ?l))
      with (runBeamOps (update ball s dt g) l).
    destruct (update_other_mode_colors ball s dt g) as (_ & Hc & _);
      try (rewrite Hmode; reflexivity).
    destruct (update_fields ball s dt g) as [Ec _].
    destruct (update ball s dt g) as [s1 g1]. cbn [fst] in *.
    rewrite (IH s1 g1) by (rewrite Ec; exact Hmode).
    rewrite <- (map_map currentColor
                  (fun c => fadedToWhite (List.length ups) c)), Hc, map_map.
    apply map_ext. intros b. rewrite white_is_one.
    destruct (currentColor b) as [r gg bb].
    unfold fadedToWhite, Color_lerp; cbn [cr cg cb pow].
    generalize (0.95 ^ List.length ups). intros p. f_equal; nra.
Qed.

Lemma white_mode_fades_witness :
  let s := setColorMode (fst oneBeamSystem) "white" in
  map currentColor
      (beams (fst (runBeamOps (s, snd oneBeamSystem)
                     (map (fun bd => BUpdate (fst bd) (snd bd))
                          [(None, 16); (None, 16)]))))
  = map (fun b => fadedToWhite 2 (currentColor b)) (beams s).
Proof.
  intros s.
  apply (white_mode_fades [(None, 16); (None, 16)] s (snd oneBeamSystem)).
  reflexivity.
Defined.

(** ** The beam system: colours stay in gamut *)

Lemma byte_fraction_range (x : Z) : 0 <= IZR (Z.land x 255) / 255 <= 1.
Proof.
  change 255%Z with (Z.ones 8). rewrite Z.land_ones by lia.
  pose proof (Z.mod_pos_bound x (2 ^ 8) ltac:(lia)) as [H0 H1].
  apply IZR_le in H0. apply IZR_lt in H1.
  change (IZR (2 ^ 8)) with 256 in H1.
  change (IZR (Z.ones 8)) with 255.
  assert (Hle : IZR (x mod 2 ^ 8) <= 255).
  { apply IZR_le. change (2 ^ 8)%Z with 256%Z in *.
    pose proof (Z.mod_pos_bound x 256 ltac:(lia)). lia. }
  split.
  - apply Rmult_le_pos; [exact H0 | lra].
  - apply (Rmult_le_reg_r 255); [lra|].
    unfold Rdiv. rewrite Rmult_assoc, Rinv_l by lra. lra.
Qed.

Lemma Color_hex_inGamut (hex : Z) : inGamut (Color_hex hex).
Proof.
  unfold inGamut, Color_hex; cbn [cr cg cb].
  repeat split; apply byte_fraction_range.
Qed.

Lemma Color_lerp_inGamut (a b : Color) (f : R) :
  inGamut a -> inGamut b -> 0 <= f <= 1 -> inGamut (Color_lerp a b f).
Proof.
  unfold inGamut, Color_lerp; cbn [cr cg cb].
  intros (Ha1 & Ha2 & Ha3) (Hb1 & Hb2 & Hb3) Hf.
  repeat split; nra.
Qed.

Lemma palette_inGamut (i : nat) : inGamut (nth i rainbowColors white).
Proof.
  destruct (nth_in_or_default i rainbowColors white) as [Hin|E].
  2:{ rewrite E. apply Color_hex_inGamut. }
  remember (nth i rainbowColors white) as col eqn:Ecol. clear Ecol.
  unfold rainbowColors in Hin. cbn [In] in Hin.
  repeat (destruct Hin as [E|Hin]; [subst col; apply Color_hex_inGamut|]).
  contradiction.
Qed.

Lemma getRainbowColor_inGamut (t : R) : inGamut (getRainbowColor t).
Proof.
  unfold getRainbowColor. rewrite Color_clone_id.
  apply Color_lerp_inGamut; try apply palette_inGamut.
  match goal with
  | |- 0 <= ?x - IZR (Zfloor ?x) <= 1 => pose proof (Zfloor_bound x); lra
  end.
Qed.

Lemma js_rem_by_one (a : R) :
  js_rem a 1 = a - (if Rle_dec 0 a then IZR (Zfloor a) else IZR (Zceil a)).
Proof.
  unfold js_rem, Math_floor, Math_ceil.
  replace (a / 1) with a by lra.
  destruct (Rle_dec 0 a); lra.
Qed.

Lemma euclideanModulo_one_nonneg (h : R) : 0 <= euclideanModulo h 1.
Proof.
  unfold euclideanModulo.
  assert (Hin : -1 < js_rem h 1).
  { rewrite js_rem_by_one.
    pose proof (Zfloor_bound h). pose proof (Zceil_bound h).
    destruct (Rle_dec 0 h); lra. }
  rewrite (js_rem_by_one (js_rem h 1 + 1)).
  pose proof (Zfloor_bound (js_rem h 1 + 1)).
  destruct (Rle_dec 0 (js_rem h 1 + 1)); lra.
Qed.

Lemma hue2rgb_unit_range (t : R) : -1 <= t -> 0 <= hue2rgb 0 1 t <= 1.
Proof.
  intros Ht. unfold hue2rgb.
  repeat match goal with
         | |- context [Rlt_dec ?a ?b] => destruct (Rlt_dec a b)
         end; lra.
Qed.

(** A re-rolled random target, [setHSL(h, 1.0, 0.5)], is in gamut for
    every [h]. *)
Lemma setHSL_inGamut (h : R) : inGamut (setHSL h 1.0 0.5).
Proof.
  pose proof (euclideanModulo_one_nonneg h) as Hh.
  unfold setHSL.
  assert (Es : clamp 1.0 0 1 = 1).
  { unfold clamp, Rmax, Rmin. repeat destruct (Rle_dec _ _); lra. }
  assert (El : clamp 0.5 0 1 = 0.5).
  { unfold clamp, Rmax, Rmin. repeat destruct (Rle_dec _ _); lra. }
  rewrite Es, El.
  destruct (Req_dec_T 1 0) as [E|_]; [lra|].
  destruct (Rle_dec 0.5 0.5) as [_|n]; [|lra].
  replace (0.5 * (1 + 1)) with 1 by lra.
  replace (2 * 0.5 - 1) with 0 by lra.
  unfold inGamut; cbn [cr cg cb].
  repeat split; apply hue2rgb_unit_range; lra.
Qed.

Lemma white_inGamut : inGamut white.
Proof. apply Color_hex_inGamut. Qed.

Lemma updateColors_beam_inGamut (mode : string) (time : R) (b : Beam)
    (g : Random) :
  inGamut (currentColor b) /\ inGamut (randomColorTarget b) ->
  let b' := fst (updateColors_beam mode time b g) in
  inGamut (currentColor b') /\ inGamut (randomColorTarget b').
Proof.
  intros [Hc Ht].
  destruct (updateColors_beam_shape mode time b g)
    as (tc & tg & g' & E & Htc & Htg & _).
  cbv zeta. rewrite E. cbn [fst currentColor randomColorTarget]. split.
  - apply Color_lerp_inGamut; [exact Hc| |lra].
    destruct Htc as [E1|[E1|E1]]; rewrite E1;
      [apply getRainbowColor_inGamut | exact Ht | apply white_inGamut].
  - destruct Htg as [E1|[h E1]]; rewrite E1; [exact Ht | apply setHSL_inGamut].
Qed.

Lemma applyBeamOp_inGamut (sg : LightBeamSystem.t * Random) (op : BeamOp) :
  Forall (fun b => inGamut (currentColor b) /\ inGamut (randomColorTarget b))
         (beams (fst sg)) ->
  Forall (fun b => inGamut (currentColor b) /\ inGamut (randomColorTarget b))
         (beams (fst (applyBeamOp sg op))).
Proof.
  destruct sg as [s g]. cbn [fst]. intros Hall.
  destruct op as [ball dt|mode|v|v|v]; cbn [applyBeamOp fst snd].
  - rewrite update_unfold. cbn [fst].
    apply syncWithDiscoBall_Forall.
    { intros b m hs index Hb.
      destruct (sync_beam_shape m hs index b) as [mesh' E]. rewrite E. exact Hb. }
    cbn [beams].
    apply (updateColors_loop_Forall
             (fun b => inGamut (currentColor b) /\ inGamut (randomColorTarget b))).
    + intros b g0 Hb. now apply updateColors_beam_inGamut.
    + apply Forall_forall. intros b' Hin.
      apply in_map_iff in Hin as (b & <- & Hb).
      rewrite Forall_forall in Hall. exact (Hall b Hb).
  - unfold setColorMode. destruct (existsb _ _); exact Hall.
  - unfold setIntensity. cbn [beams]. apply Forall_forall. intros b' Hin.
    apply in_map_iff in Hin as (b & <- & Hb).
    rewrite Forall_forall in Hall. exact (Hall b Hb).
  - unfold setOpacity. cbn [beams]. apply Forall_forall. intros b' Hin.
    apply in_map_iff in Hin as (b & <- & Hb).
    rewrite Forall_forall in Hall. exact (Hall b Hb).
  - exact Hall.
Qed.

(** X21.  Beam colours stay in gamut.  After the constructor and after
    any sequence of calls, in any colour mode and for any random numbers,
    the three components of every beam's [currentColor] and of its
    random target lie between zero and one. *)
Theorem colours_stay_in_gamut
    (ball : DiscoBall) (c : LightBeamSystem.ConfigArg) (g : Random)
    (ops : list BeamOp) :
  Forall (fun b => inGamut (currentColor b) /\ inGamut (randomColorTarget b))
         (beams (fst (runBeamOps (LightBeamSystem.new ball c g) ops))).
Proof.
  induction ops as [|op ops IH] using rev_ind.
  - unfold runBeamOps; cbn [fold_left]. rewrite new_unfold. cbn [fst beams].
    apply (updateColors_loop_Forall
             (fun b => inGamut (currentColor b) /\ inGamut (randomColorTarget b))).
    + intros b g0 Hb. now apply updateColors_beam_inGamut.
    + apply createBeams_loop_Forall. intros index h g0.
      unfold createBeam, Math_random. cbn [fst currentColor randomColorTarget].
      split; [apply white_inGamut | apply setHSL_inGamut].
  - rewrite runBeamOps_snoc. now apply applyBeamOp_inGamut.
Qed.

End LightBeamSystemRuns.

(** ** The render engine: device classes and quality profile *)

Module RenderEngineFacts.

Import RenderEngine.

(** X22.  The performance tier that [detectDevice] assigns: [low] exactly
    for a width of at most 480 with a pixel ratio above two, and then the
    screen class is [mobile]; [high] exactly for a user agent that is not
    mobile, a pixel ratio of at most two and at most 2073600 device
    pixels; [medium] in every other case.  The pixel ratio used is
    [window.devicePixelRatio], or one when that is zero. *)
Theorem detectDevice_tiers (w : Window) :
  let info := detectDevice w in
  (pixelRatio info = devicePixelRatio w \/
   (devicePixelRatio w = 0 /\ pixelRatio info = 1)) /\
  (performanceLevel info = low <->
   innerWidth w <= 480 /\ 2 < pixelRatio info) /\
  (performanceLevel info = low -> screenSize info = mobile) /\
  (performanceLevel info = high <->
   userAgentIsMobile w = false /\ pixelRatio info <= 2 /\
   innerWidth w * innerHeight w * pixelRatio info <= 2073600).
Proof.
  cbv zeta. unfold detectDevice.
  cbn [pixelRatio performanceLevel screenSize].
  set (pr := if Req_dec_T (devicePixelRatio w) 0 then 1 else devicePixelRatio w).
  split.
  { subst pr. destruct (Req_dec_T (devicePixelRatio w) 0); [right | left]; auto. }
  destruct (userAgentIsMobile w);
    destruct (Rle_dec (innerWidth w) 480);
    destruct (Rlt_dec 2 pr);
    destruct (Rlt_dec 2073600 (innerWidth w * innerHeight w * pr));
    repeat split; intros; try discriminate; try reflexivity; try lra;
    try (exfalso; intuition (try discriminate; try lra)).
Qed.

(** In the [low] tier the device pixel ratio is above two. *)
Lemma detectDevice_tiers_low_ratio (w : Window) :
  performanceLevel (detectDevice w) = low -> 2 < devicePixelRatio w.
Proof.
  unfold detectDevice. cbn [performanceLevel].
  destruct (Req_dec_T (devicePixelRatio w) 0) as [E|Hne];
    destruct (userAgentIsMobile w);
    destruct (Rle_dec (innerWidth w) 480);
    repeat match goal with
           | |- context [Rlt_dec ?a ?b] => destruct (Rlt_dec a b)
           end; intros H; try discriminate; lra.
Qed.

Lemma spread_pixelRatio (c : ResponsiveConfig) (p : ResponsiveConfigPart) :
  cfg_pixelRatio (spread c p) = or_default (part_pixelRatio p) (cfg_pixelRatio c).
Proof. reflexivity. Qed.

(** X23.  The renderer is never asked to oversample.  For every window,
    the pixel ratio of the profile computed from [detectDevice] is at most
    two and at most [window.devicePixelRatio]; it is at most 1.5 unless
    the tier is [high], and exactly one in the [low] tier. *)
Theorem pixelRatio_capped (w : Window) :
  let info := detectDevice w in
  let cfg := getResponsiveConfig info w in
  cfg_pixelRatio cfg <= 2 /\
  cfg_pixelRatio cfg <= devicePixelRatio w /\
  (performanceLevel info <> high -> cfg_pixelRatio cfg <= 1.5) /\
  (performanceLevel info = low -> cfg_pixelRatio cfg = 1).
Proof.
  cbv zeta.
  pose proof (detectDevice_tiers_low_ratio w) as Hlow.
  unfold getResponsiveConfig. rewrite spread_pixelRatio.
  destruct (performanceLevel (detectDevice w)) eqn:E;
    cbn [performanceConfig part_pixelRatio or_default].
  - specialize (Hlow eq_refl). repeat split; intros; try lra.
  - pose proof (Rmin_l (devicePixelRatio w) 1.5).
    pose proof (Rmin_r (devicePixelRatio w) 1.5).
    repeat split; intros; try lra. discriminate.
  - pose proof (Rmin_l (devicePixelRatio w) 2).
    pose proof (Rmin_r (devicePixelRatio w) 2).
    repeat split; intros; try lra; try discriminate. now contradiction H1.
Qed.


(** X24.  How the three layers of [getResponsiveConfig] combine.  The
    performance tier alone decides the frame rate (30, 45, 60), the shadow
    map size (512, 1024, 2048) and whether shadows, fog and antialiasing
    are on (off in the [low] tier only): the values the screen class sets
    for the first two are always overwritten.  The screen class alone
    decides the field of view and the camera distance. *)
Theorem getResponsiveConfig_layers (info : DeviceInfo) (w : Window) :
  let cfg := getResponsiveConfig info w in
  targetFPS cfg = match performanceLevel info with
                  | low => 30 | medium => 45 | high => 60 end /\
  shadowMapSize cfg = match performanceLevel info with
                      | low => 512 | medium => 1024 | high => 2048 end /\
  enableShadows cfg = match performanceLevel info with
                      | low => false | _ => true end /\
  enableFog cfg = match performanceLevel info with
                  | low => false | _ => true end /\
  antialias cfg = match performanceLevel info with
                  | low => false | _ => true end /\
  fov cfg = match screenSize info with mobile => 80 | _ => 75 end /\
  cameraDistance cfg = match screenSize info with
                       | mobile => 6 | tablet => 7 | _ => 8 end.
Proof.
  cbv zeta. unfold getResponsiveConfig.
  destruct (performanceLevel info), (screenSize info); repeat split.
Qed.

Lemma getResponsiveConfig_fps (info : DeviceInfo) (w : Window) :
  targetFPS (getResponsiveConfig info w) = 30 \/
  targetFPS (getResponsiveConfig info w) = 45 \/
  targetFPS (getResponsiveConfig info w) = 60.
Proof.
  unfold getResponsiveConfig.
  destruct (performanceLevel info), (screenSize info); cbn; auto.
Qed.

(** ** The render engine: frame pacing *)

Lemma setFrameRate_range (e : t) (fps : R) :
  30 <= frameRate (setFrameRate e fps) <= 120.
Proof.
  unfold setFrameRate; cbn [frameRate]. unfold Rmax, Rmin.
  repeat destruct (Rle_dec _ _); lra.
Qed.

(** X25.  [setFrameRate] keeps the frame rate between 30 and 120 and the
    frame interval, [1000 / frameRate], between a little over eight and a
    little over 33 milliseconds, so the interval is always positive.  The
    frame rate of every quality profile lies inside that range and is
    taken as it is, and a construction-time engine runs at 60. *)
Theorem setFrameRate_clamps (e : t) (fps : R) (info : DeviceInfo) (w : Window) :
  let e' := setFrameRate e fps in
  30 <= frameRate e' <= 120 /\
  frameInterval e' = 1000 / frameRate e' /\
  1000 / 120 <= frameInterval e' <= 1000 / 30 /\
  0 < frameInterval e' /\
  (fps < 30 -> frameRate e' = 30) /\
  (120 < fps -> frameRate e' = 120) /\
  (30 <= fps <= 120 -> frameRate e' = fps) /\
  frameRate (setFrameRate e (targetFPS (getResponsiveConfig info w)))
  = targetFPS (getResponsiveConfig info w) /\
  frameRate (new w) = 60 /\ frameInterval (new w) = 1000 / 60.
Proof.
  cbv zeta. pose proof (setFrameRate_range e fps) as Hr.
  assert (Hi : frameInterval (setFrameRate e fps)
               = 1000 / frameRate (setFrameRate e fps)) by reflexivity.
  assert (Hinv : / 120 <= / frameRate (setFrameRate e fps) <= / 30).
  { split; apply Rinv_le_contravar; lra. }
  split; [exact Hr|]. split; [exact Hi|].
  split; [rewrite Hi; unfold Rdiv; lra|].
  split; [rewrite Hi; unfold Rdiv; lra|].
  unfold setFrameRate; cbn [frameRate].
  split; [intros; unfold Rmax, Rmin; repeat destruct (Rle_dec _ _); lra|].
  split; [intros; unfold Rmax, Rmin; repeat destruct (Rle_dec _ _); lra|].
  split; [intros; unfold Rmax, Rmin; repeat destruct (Rle_dec _ _); lra|].
  split; [|split; reflexivity].
  destruct (getResponsiveConfig_fps info w) as [E|[E|E]]; rewrite E;
    unfold Rmax, Rmin; repeat destruct (Rle_dec _ _); lra.
Qed.

(** The remainder of a time that is not negative by a positive interval. *)
Lemma js_rem_range (a b : R) :
  0 <= a -> 0 < b ->
  0 <= js_rem a b < b /\
  exists k : Z, (0 <= k)%Z /\ js_rem a b = a - b * IZR k /\
                IZR k <= a / b < IZR k + 1.
Proof.
  intros Ha Hb. unfold js_rem, Math_floor.
  assert (Hq : 0 <= a / b).
  { apply Rmult_le_pos; [exact Ha | apply Rlt_le, Rinv_0_lt_compat, Hb]. }
  destruct (Rle_dec 0 (a / b)) as [_|n]; [|contradiction].
  pose proof (Zfloor_bound (a / b)) as [Hf1 Hf2].
  assert (Ea : a = b * (a / b)) by (field; lra).
  assert (H1 : b * IZR (Zfloor (a / b)) <= a).
  { rewrite Ea at 2. apply Rmult_le_compat_l; lra. }
  assert (H2 : a < b * (IZR (Zfloor (a / b)) + 1)).
  { rewrite Ea at 1. apply Rmult_lt_compat_l; lra. }
  split; [lra|].
  exists (Zfloor (a / b)). split; [apply Zfloor_lub; simpl; lra|].
  split; [reflexivity | lra].
Qed.

Lemma render_skip (e : t) (currentTime : R) (g : Random) :
  currentTime - lastTime e < frameInterval e ->
  render e currentTime g = (e, g).
Proof.
  intros H. unfold render. destruct (Rlt_dec _ _); [reflexivity | lra].
Qed.

Lemma updateAnimations_fields (e : t) (dt : R) (g : Random) :
  let e' := fst (updateAnimations e dt g) in
  lastTime e' = lastTime e /\ frameInterval e' = frameInterval e /\
  frameRate e' = frameRate e /\
  discoBall e' = option_map (fun b => updateRotation b dt) (discoBall e) /\
  lightBeamSystem e'
  = option_map (fun s => fst (LightBeamSystem.update
                               (option_map (fun b => updateRotation b dt)
                                           (discoBall e)) s dt g))
               (lightBeamSystem e).
Proof.
  cbv zeta. unfold updateAnimations.
  destruct (lightBeamSystem e) as [s|]; cbn [option_map].
  - destruct (LightBeamSystem.update _ s dt g) as [s' g'].
    cbn [fst lastTime frameInterval frameRate discoBall lightBeamSystem].
    repeat split; reflexivity.
  - cbn [fst lastTime frameInterval frameRate discoBall lightBeamSystem].
    repeat split; reflexivity.
Qed.

Lemma render_frame (e : t) (currentTime : R) (g : Random) :
  frameInterval e <= currentTime - lastTime e ->
  let dt := currentTime - lastTime e in
  let e' := fst (render e currentTime g) in
  lastTime e' = currentTime - js_rem dt (frameInterval e) /\
  frameInterval e' = frameInterval e /\
  discoBall e' = option_map (fun b => updateRotation b dt) (discoBall e) /\
  lightBeamSystem e'
  = option_map (fun s => fst (LightBeamSystem.update
                               (option_map (fun b => updateRotation b dt)
                                           (discoBall e)) s dt g))
               (lightBeamSystem e).
Proof.
  intros H dt e'. subst dt e'. unfold render.
  destruct (Rlt_dec _ _) as [Hlt|_]; [lra|].
  match goal with
  | |- context [updateAnimations ?e1 ?d g] =>
      destruct (updateAnimations_fields e1 d g) as (E1 & E2 & _ & E3 & E4)
  end.
  cbv zeta in *. now rewrite E1, E2, E3, E4.
Qed.

(** X26.  Frame pacing.  A [render(currentTime)] call that comes less
    than one frame interval after [lastTime] changes nothing.  Any other
    call hands the whole elapsed time, which is at least one interval, to
    the ball and the beam system, and moves [lastTime] forward by a whole
    number of intervals, at least one, to within one interval of
    [currentTime]; the elapsed time handed on exceeds that advance of
    [lastTime] by the remainder, so a remainder is handed on again with
    the next frame. *)
Theorem render_paces (e : t) (currentTime : R) (g : Random) :
  0 < frameInterval e ->
  let dt := currentTime - lastTime e in
  let e' := fst (render e currentTime g) in
  (dt < frameInterval e -> render e currentTime g = (e, g)) /\
  (frameInterval e <= dt ->
   discoBall e' = option_map (fun b => updateRotation b dt) (discoBall e) /\
   (exists k : Z, (1 <= k)%Z /\
                  lastTime e' = lastTime e + frameInterval e * IZR k) /\
   currentTime - frameInterval e < lastTime e' <= currentTime /\
   dt - (lastTime e' - lastTime e) = js_rem dt (frameInterval e) /\
   0 <= js_rem dt (frameInterval e) < frameInterval e).
Proof.
  intros Hfi dt e'. split; [apply render_skip|]. intros Hdt.
  destruct (render_frame e currentTime g Hdt) as (El & _ & Eb & _).
  fold dt e' in El, Eb.
  destruct (js_rem_range dt (frameInterval e)) as (Hr & k & Hk0 & Ek & Hkb);
    [lra | exact Hfi |].
  split; [exact Eb|]. split.
  { exists k. split.
    - assert (1 <= dt / frameInterval e).
      { apply (Rmult_le_reg_r (frameInterval e)); [exact Hfi|].
        unfold Rdiv. rewrite Rmult_assoc, Rinv_l by lra. lra. }
      apply Z.lt_pred_le. apply lt_IZR. unfold Z.pred. rewrite plus_IZR.
      simpl. lra.
    - rewrite El, Ek. subst dt. ring. }
  split; [rewrite El; lra|]. split; [rewrite El; unfold dt; ring | exact Hr].
Qed.

Lemma render_paces_witness :
  let e := new desktopWindow in
  render e 5 fixedRandom = (e, fixedRandom).
Proof.
  intros e.
  apply (render_paces e 5 fixedRandom); unfold e; simpl; lra.
Defined.

(** ** The render engine drives the ball *)

Lemma runEngine_snoc (eg : t * Random) (ops : list EngineOp) (op : EngineOp) :
  runEngine eg (ops ++ [op]) = applyEngineOp (runEngine eg ops) op.
Proof. unfold runEngine. now rewrite fold_left_app. Qed.

Lemma start_fields (w : Window) (g : Random) :
  let e := fst (start w g) in
  frameInterval e = 1000 / 60 /\ lastTime e = 0 /\
  deviceInfo e = detectDevice w /\
  discoBall e
  = Some (DiscoBall_new (mkConfigArg (Some (getBallRadius (detectDevice w)))
                                     (Some (getBallSegments (detectDevice w)))
                                     (Some 50%nat))) /\
  lightBeamSystem e
  = Some (fst (LightBeamSystem.new
                 (DiscoBall_new
                    (mkConfigArg (Some (getBallRadius (detectDevice w)))
                                 (Some (getBallSegments (detectDevice w)))
                                 (Some 50%nat)))
                 (getLightBeamConfig (detectDevice w)) g)).
Proof.
  cbv zeta. unfold start, createLightBeamSystem, createDiscoBall.
  cbn [discoBall deviceInfo new].
  destruct (LightBeamSystem.new _ _ g) as [s g'].
  cbn [fst frameInterval lastTime deviceInfo discoBall lightBeamSystem].
  repeat split; reflexivity.
Qed.

(** The engine's interval is positive and its ball is within bounds. *)
Lemma applyEngineOp_invariant (eg : t * Random) (op : EngineOp) :
  keepsBallBounds op ->
  (0 < frameInterval (fst eg) /\
   exists ball, discoBall (fst eg) = Some ball /\ speedInvariant ball /\
                minSpeed (rotationConfig ball) = 0.1 /\
                maxSpeed (rotationConfig ball) = 5.0) ->
  0 < frameInterval (fst (applyEngineOp eg op)) /\
  exists ball, discoBall (fst (applyEngineOp eg op)) = Some ball /\
               speedInvariant ball /\
               minSpeed (rotationConfig ball) = 0.1 /\
               maxSpeed (rotationConfig ball) = 5.0.
Proof.
  destruct eg as [e g]. cbn [fst]. intros Hop (Hfi & ball & Hb & Hinv & Hmin & Hmax).
  assert (Hstep : forall o, keepsBounds o ->
            speedInvariant (applyOp ball o) /\
            minSpeed (rotationConfig (applyOp ball o)) = 0.1 /\
            maxSpeed (rotationConfig (applyOp ball o)) = 5.0).
  { intros o Ho. destruct (applyOp_bounds_fixed ball o Ho) as [E1 E2].
    split; [now apply applyOp_invariant|]. split; congruence. }
  destruct op as [currentTime|o|o|fps]; cbn [applyEngineOp].
  - destruct (Rlt_dec (currentTime - lastTime e) (frameInterval e)) as [Hs|Hr].
    + rewrite render_skip by exact Hs. cbn [fst].
      split; [exact Hfi|]. exists ball. tauto.
    + destruct (render_frame e currentTime g) as (_ & Ef & Eb & _); [lra|].
      cbv zeta in Ef, Eb. rewrite Ef, Eb, Hb. cbn [option_map].
      split; [exact Hfi|]. eexists. split; [reflexivity|].
      apply (Hstep (OpUpdate (currentTime - lastTime e))). simpl. lra.
  - cbn [fst frameInterval discoBall]. rewrite Hb. cbn [option_map].
    split; [exact Hfi|]. eexists. split; [reflexivity|]. now apply Hstep.
  - destruct (lightBeamSystem e) as [s|].
    + destruct (LightBeamSystemOps.applyBeamOp (s, g) o) as [s' g'].
      cbn [fst frameInterval discoBall].
      split; [exact Hfi|]. exists ball. tauto.
    + cbn [fst]. split; [exact Hfi|]. exists ball. tauto.
  - cbn [fst]. pose proof (setFrameRate_range e fps) as Hr.
    split.
    + change (frameInterval (setFrameRate e fps))
        with (1000 / frameRate (setFrameRate e fps)).
      apply Rdiv_lt_0_compat; lra.
    + exists ball. tauto.
Qed.

(** X27.  The frame loop cannot push the ball out of its speed bounds.
    Start an engine on any window and let it run: frame callbacks at any
    times at all (out of order, repeated, negative), calls on the beam
    system, changes of frame rate, and calls on the ball that keep its
    bounds.  The frame interval stays positive (so every elapsed time
    handed to the ball is positive), the ball's speed stays between
    [0.1] and [5], and the bounds themselves stay [0.1] and [5]. *)
Theorem engine_keeps_speed_bounds
    (w : Window) (g : Random) (ops : list EngineOp) :
  Forall keepsBallBounds ops ->
  let e := fst (runEngine (start w g) ops) in
  0 < frameInterval e /\
  exists ball, discoBall e = Some ball /\
               0.1 <= rotationSpeed ball <= 5.0 /\
               minSpeed (rotationConfig ball) = 0.1 /\
               maxSpeed (rotationConfig ball) = 5.0.
Proof.
  intros Hall.
  assert (H : 0 < frameInterval (fst (runEngine (start w g) ops)) /\
              exists ball, discoBall (fst (runEngine (start w g) ops)) = Some ball /\
                           speedInvariant ball /\
                           minSpeed (rotationConfig ball) = 0.1 /\
                           maxSpeed (rotationConfig ball) = 5.0).
  { induction ops as [|op ops IH] using rev_ind.
    - unfold runEngine; cbn [fold_left].
      destruct (start_fields w g) as (Ef & _ & _ & Eb & _). cbv zeta in Ef, Eb.
      rewrite Ef, Eb. split; [lra|]. eexists. split; [reflexivity|].
      split; [apply DiscoBall_new_invariant | split; reflexivity].
    - apply Forall_app in Hall as [Hall Hop]. inversion Hop; subst.
      rewrite runEngine_snoc. apply applyEngineOp_invariant; [assumption|].
      now apply IH. }
  cbv zeta. destruct H as (Hfi & ball & Hb & (_ & _ & Hs & _) & Hmin & Hmax).
  split; [exact Hfi|]. exists ball. rewrite Hmin, Hmax in Hs. now repeat split.
Qed.

Lemma engine_keeps_speed_bounds_witness :
  let e := fst (runEngine (start desktopWindow fixedRandom)
                          [ERender 20; EBall (OpSetSpeed 9); ERender (-3);
                           ERender 1000]) in
  0 < frameInterval e.
Proof.
  apply (engine_keeps_speed_bounds desktopWindow fixedRandom
           [ERender 20; EBall (OpSetSpeed 9); ERender (-3); ERender 1000]).
  repeat constructor.
Defined.

(** X28.  What an engine starts with, on every window: a ball of fifty
    apertures and a beam system of fifty beams in rainbow mode; the
    ball's radius is [2.4] on a [mobile] screen, [2.2] on a [tablet] one
    and [2] otherwise, and every aperture lies at exactly that distance
    from the centre. *)
Theorem start_builds_fifty (w : Window) (g : Random) :
  let e := fst (start w g) in
  exists ball s,
    discoBall e = Some ball /\ lightBeamSystem e = Some s /\
    List.length (getHoles ball) = 50%nat /\
    LightBeamSystemOps.getBeamCount s = 50%nat /\
    LightBeamSystem.colorMode (LightBeamSystem.config s) = "rainbow"%string /\
    radius (config ball)
    = match screenSize (detectDevice w) with
      | mobile => 2.4 | tablet => 2.2 | _ => 2 end /\
    Forall (fun h => Vector3_length (hole_position h) = radius (config ball))
           (getHoles ball).
Proof.
  cbv zeta. destruct (start_fields w g) as (_ & _ & _ & Eb & Es).
  cbv zeta in Eb, Es. rewrite Eb, Es.
  set (r := getBallRadius (detectDevice w)).
  assert (Hr : r = match screenSize (detectDevice w) with
                   | mobile => 2.4 | tablet => 2.2 | _ => 2 end).
  { subst r. unfold getBallRadius. destruct (screenSize (detectDevice w)); lra. }
  assert (Hpos : 0 <= r) by (rewrite Hr; destruct (screenSize (detectDevice w)); lra).
  eexists. eexists. split; [reflexivity|]. split; [reflexivity|].
  assert (Hlen : List.length
                   (getHoles (DiscoBall_new
                      (mkConfigArg (Some r)
                                   (Some (getBallSegments (detectDevice w)))
                                   (Some 50%nat)))) = 50%nat).
  { rewrite DiscoBall_new_holes. cbn [or_default arg_holes arg_radius].
    apply generateHoles_length. }
  split; [exact Hlen|].
  split; [unfold LightBeamSystemOps.getBeamCount;
          rewrite LightBeamSystemFacts.new_beam_count; exact Hlen|].
  split.
  { rewrite LightBeamSystemRuns.new_unfold.
    cbn [fst LightBeamSystem.config LightBeamSystem.colorMode].
    unfold getLightBeamConfig.
    destruct (performanceLevel (detectDevice w)); reflexivity. }
  split; [exact Hr|].
  rewrite DiscoBall_new_holes. cbn [or_default arg_holes arg_radius].
  change (radius (config (DiscoBall_new _))) with r.
  rewrite generateHoles_map. apply Forall_forall. intros h Hin.
  apply in_map_iff in Hin as (i & <- & _).
  unfold makeHole; cbn [hole_position].
  rewrite clone_id, multiplyScalar_length by exact Hpos.
  rewrite spherical_unit. ring.
Qed.

End RenderEngineFacts.
